(** * Table upcast converters of the editor engine: a shallow embedding

    The development follows [packages/ckeditor5-table/src/converters/upcasttable.ts]:
    the cell-matrix reconstruction ([generateCellMatrix]), the table scanner
    ([scanTable]) and the event listeners ([upcastTableFigure],
    [upcastTable], [skipEmptyTableRow], [ensureParagraphInTableCell]).

    Conventions of the embedding.
    - A view node is a tree; since the source compares elements by object
      identity ([tableChild === firstTheadElement]), an element handed to the
      converters is a [ViewItem]: the node together with its path from the
      root of the scanned tree.
    - The numbers produced by [parseInt] are the doubles they are in the
      source: [NaN], the two infinities, or an integer that a double holds;
      an integer above 2^53 is rounded to the nearest double, and one past
      the largest double becomes an infinity.  The two zeros are not told
      apart (no operation of the converters does).  Strings are sequences of
      code units below 256.
    - The array [curSlots] of [generateCellMatrix], whose length the
      attributes of the input drive, is a list together with the bound of
      ECMA-262 on the length of an array: [push] on an array of 2^32 - 1
      elements raises [RangeError].  The arrays that only collect nodes of
      the input (the children of a node, [headRows], [bodyRows]) are plain
      lists, as long as the input is.  Memory is not bounded otherwise.
    - A function either returns, or raises an exception, or (in the model
      only) runs out of the fuel that bounds its loops; that enough fuel
      exists is a theorem, not part of a definition.
    - A listener is a program over the calls it makes on [conversionApi]; the
      engine that answers the calls (consumable tracker, writer, dispatcher)
      is a separate module, written after the contracts of the
      specification. *)

From Stdlib Require Import ZArith Ascii Bool Lia.
From stdpp Require Import base option list gmap strings fin_maps functions.

Set Warnings "-register-all".

Local Open Scope Z_scope.

(** ** The outcome of running a function *)

(** The exceptions that the code of the converters can raise. *)
Inductive Error : Type :=
| RangeError
| TypeError.

(** A run returns a value, or is ended by an exception, or needs more fuel
    than it was given. *)
Inductive Outcome (A : Type) : Type :=
| Returns (a : A)
| Raises (e : Error)
| OutOfFuel.

Arguments Returns {A} a.
Arguments Raises {A} e.
Arguments OutOfFuel {A}.

Definition outcome_bind {A B : Type} (f : A -> Outcome B) (o : Outcome A) : Outcome B :=
  match o with
  | Returns a => f a
  | Raises e => Raises e
  | OutOfFuel => OutOfFuel
  end.

#[global] Instance Outcome_ret : MRet Outcome := @Returns.
#[global] Instance Outcome_bind : MBind Outcome := @outcome_bind.

(** Unfolds the sequencing of outcomes. *)
Ltac obind := cbn [mbind Outcome_bind outcome_bind mret Outcome_ret] in *.

(** ** JavaScript values used by the converters *)

Module JS.

(** A number that [parseInt] and the arithmetic on its results can give:
    [NaN], an infinity, or an integer held by a double. *)
Inductive number : Type :=
| NaN
| Num (z : Z)
| PosInf
| NegInf.

#[global] Instance number_eq_dec : EqDecision number.
Proof. solve_decision. Defined.

(** The Number value for an integer: the nearest double, ties going to the
    even significand of 53 bits; at 2^1024 and beyond, an infinity. *)
Definition toNumber (z : Z) : number :=
  let a := Z.abs z in
  if a <=? 2 ^ 53 then Num z
  else
    let shift := Z.log2 a - 52 in
    let q := Z.shiftr a shift in
    let r := a - Z.shiftl q shift in
    let half := Z.shiftl 1 (shift - 1) in
    let q' := if (half <? r) || ((r =? half) && Z.odd q) then q + 1 else q in
    let m := Z.shiftl q' shift in
    if 2 ^ 1024 <=? m then (if 0 <? z then PosInf else NegInf)
    else Num (Z.sgn z * m).

(** [a < b] on numbers; any comparison with [NaN] is false. *)
Definition lt (a b : number) : bool :=
  match a, b with
  | Num x, Num y => x <? y
  | NegInf, (Num _ | PosInf) => true
  | Num _, PosInf => true
  | _, _ => false
  end.

(** [a > b] is [b < a]. *)
Definition gt (a b : number) : bool := lt b a.

(** [-a]. *)
Definition neg (a : number) : number :=
  match a with
  | NaN => NaN
  | Num x => Num (- x)
  | PosInf => NegInf
  | NegInf => PosInf
  end.

(** [a + b]: the exact sum, rounded; [NaN] is absorbing, and so is the sum
    of the two infinities. *)
Definition add (a b : number) : number :=
  match a, b with
  | Num x, Num y => toNumber (x + y)
  | PosInf, (Num _ | PosInf) => PosInf
  | Num _, PosInf => PosInf
  | NegInf, (Num _ | NegInf) => NegInf
  | Num _, NegInf => NegInf
  | _, _ => NaN
  end.

(** [a - b] is [a + (-b)]. *)
Definition sub (a b : number) : number := add a (neg b).

(** The largest length of an array, 2^32 - 1. *)
Definition maxArrayLength : Z := 4294967295.

(** [array.push( x )]: on an array of the largest length, setting the new
    length raises [RangeError]. *)
Definition push {A : Type} (array : list A) (x : A) : Outcome (list A) :=
  if Z.of_nat (length array) <? maxArrayLength then Returns (array ++ [x])
  else Raises RangeError.

(** White space skipped by [parseInt] (code units below 256):
    TAB, LF, VT, FF, CR, SP and NBSP. *)
Definition isStrWhiteSpaceChar (c : ascii) : bool :=
  match nat_of_ascii c with
  | 9%nat | 10%nat | 11%nat | 12%nat | 13%nat | 32%nat | 160%nat => true
  | _ => false
  end.

Fixpoint trimStart (s : string) : string :=
  match s with
  | String c s' => if isStrWhiteSpaceChar c then trimStart s' else s
  | EmptyString => s
  end.

(** Value of a digit in radix up to 36: [0-9], [a-z], [A-Z]. *)
Definition digitValue (c : ascii) : option Z :=
  let n := Z.of_nat (nat_of_ascii c) in
  if (48 <=? n) && (n <=? 57) then Some (n - 48)
  else if (97 <=? n) && (n <=? 122) then Some (n - 87)
  else if (65 <=? n) && (n <=? 90) then Some (n - 55)
  else None.

(** The longest prefix of radix-[R] digits, read as an integer;
    [acc] is [None] as long as no digit was read. *)
Fixpoint parseDigits (R : Z) (s : string) (acc : option Z) : option Z :=
  match s with
  | String c s' =>
      match digitValue c with
      | Some d =>
          if d <? R
          then parseDigits R s' (Some (default 0 acc * R + d))
          else acc
      | None => acc
      end
  | EmptyString => acc
  end.

(** [parseInt( string )] with the radix left undefined: leading white space
    is dropped, then an optional sign, then an optional [0x]/[0X] prefix
    that switches to radix 16; no digit at all gives [NaN].  The digits are
    read exactly and the integer is then turned into a Number (ECMA-262
    lets an implementation replace the decimal digits after the 20th by
    zeros; that is not done here). *)
Definition parseInt (input : string) : number :=
  let S1 := trimStart input in
  let '(sign, S2) :=
    match S1 with
    | String "-"%char r => (-1, r)
    | String "+"%char r => (1, r)
    | _ => (1, S1)
    end in
  let '(R, S3) :=
    match S2 with
    | String "0"%char (String "x"%char r) => (16, r)
    | String "0"%char (String "X"%char r) => (16, r)
    | _ => (10, S2)
    end in
  match parseDigits R S3 None with
  | None => NaN
  | Some m => toNumber (sign * m)
  end.

(** [value || fallback] for an optional string: [undefined] and the empty
    string are falsy. *)
Definition orString (value : option string) (fallback : string) : string :=
  match value with
  | Some "" => fallback
  | Some s => s
  | None => fallback
  end.

End JS.

(** ** The view tree

    Modelled from the spec: the view nodes of the engine (section 3) and the
    accessors the converters call on them; the classes themselves are not
    part of the converters' file. *)

Module View.

Inductive ViewNode : Type :=
| ViewText (data : string)
| ViewElement (name : string) (attrs : gmap string string) (children : list ViewNode).

(** A node as the converters hold it: the node and its identity. *)
Record ViewItem : Type := mkItem {
  path : list nat;
  node : ViewNode
}.

(** [item.name]; [undefined] on a text node. *)
Definition name (it : ViewItem) : option string :=
  match node it with
  | ViewElement n _ _ => Some n
  | ViewText _ => None
  end.

(** [item.is( 'element', n )]. *)
Definition isElement (n : string) (it : ViewItem) : bool :=
  match node it with
  | ViewElement m _ _ => bool_decide (m = n)
  | ViewText _ => false
  end.

(** [item.getAttribute( key )]. *)
Definition getAttribute (key : string) (it : ViewItem) : option string :=
  match node it with
  | ViewElement _ attrs _ => attrs !! key
  | ViewText _ => None
  end.

Definition childNodes (it : ViewItem) : list ViewNode :=
  match node it with
  | ViewElement _ _ cs => cs
  | ViewText _ => []
  end.

(** [Array.from( item.getChildren() )]: the [k]-th child gets the path of
    its parent extended by [k]. *)
Definition getChildren (it : ViewItem) : list ViewItem :=
  imap (fun k c => mkItem (path it ++ [k]) c) (childNodes it).

(** [item.isEmpty]: the element has no child. *)
Definition isEmpty (it : ViewItem) : bool :=
  match childNodes it with
  | [] => true
  | _ => false
  end.

(** [a === b] on elements of one tree. *)
Definition same (a b : ViewItem) : bool := bool_decide (path a = path b).

End View.

Import View.

(** ** [generateCellMatrix] *)

Module CellMatrix.

(** An entry of the [prevRowspans]/[curRowspans] maps. *)
Record RowSpan : Type := mkRowSpan {
  cell : ViewItem;
  remaining : JS.number
}.

(** The variables the [while] loop works on. *)
Record RowState : Type := mkRowState {
  children : list ViewItem;
  curSlots : list (option ViewItem);
  curRowspans : gmap nat RowSpan
}.

(** [while ( children.length || curSlots.length < maxColumns )]. *)
Definition loopCond (maxColumns : nat) (st : RowState) : bool :=
  negb (bool_decide (children st = [])) || (length (curSlots st) <? maxColumns)%nat.

(** [for ( let i = 0; i < colspan; i++ ) { ... }], from the test of [i] on:
    the body records the row span of the cell, if any, at the index of the
    next slot, and pushes the cell. *)
Fixpoint colspanLoop (fuel : nat) (i colspan : JS.number) (c : ViewItem)
    (rowspan : JS.number) (slots : list (option ViewItem)) (spans : gmap nat RowSpan)
    : Outcome (list (option ViewItem) * gmap nat RowSpan) :=
  if JS.lt i colspan then
    match fuel with
    | O => OutOfFuel
    | S fuel' =>
        let spans' :=
          if JS.gt rowspan (JS.Num 1)
          then <[length slots := mkRowSpan c (JS.sub rowspan (JS.Num 1))]> spans
          else spans in
        slots' ← JS.push slots (Some c);
        colspanLoop fuel' (JS.add i (JS.Num 1)) colspan c rowspan slots' spans'
    end
  else Returns (slots, spans).

(** One iteration of the [while] loop. *)
Definition loopBody (fuel : nat) (prevRowspans : gmap nat RowSpan) (st : RowState)
    : Outcome RowState :=
  let fromChildren :=
    match children st with
    | c :: rest =>
        let colspan := JS.parseInt (JS.orString (getAttribute "colspan" c) "1") in
        let rowspan := JS.parseInt (JS.orString (getAttribute "rowspan" c) "1") in
        '(slots, spans) ←
          colspanLoop fuel (JS.Num 0) colspan c rowspan (curSlots st) (curRowspans st);
        Returns (mkRowState rest slots spans)
    | [] =>
        slots ← JS.push (curSlots st) None;
        Returns (mkRowState [] slots (curRowspans st))
    end in
  match prevRowspans !! length (curSlots st) with
  | Some rowSpan =>
      if JS.gt (remaining rowSpan) (JS.Num 0)
      then
        slots ← JS.push (curSlots st) (Some (cell rowSpan));
        Returns (mkRowState (children st) slots (curRowspans st))
      else fromChildren
  | None => fromChildren
  end.

(** The [while] loop. *)
Fixpoint whileLoop (fuel : nat) (prevRowspans : gmap nat RowSpan) (maxColumns : nat)
    (st : RowState) : Outcome RowState :=
  if loopCond maxColumns st then
    match fuel with
    | O => OutOfFuel
    | S fuel' =>
        st' ← loopBody fuel prevRowspans st;
        whileLoop fuel' prevRowspans maxColumns st'
    end
  else Returns st.

(** The update of the row spans after a row:
    [entry.remaining -= 1] for every entry of [prevRowspans], copied into
    [curRowspans] when still positive and not overridden. *)
Definition mergeRowspans (prevRowspans cur : gmap nat RowSpan) : gmap nat RowSpan :=
  map_fold
    (fun index entry acc =>
       let entry' := mkRowSpan (cell entry) (JS.sub (remaining entry) (JS.Num 1)) in
       if JS.gt (remaining entry') (JS.Num 0) && negb (bool_decide (is_Some (acc !! index)))
       then <[index := entry']> acc
       else acc)
    cur prevRowspans.

(** The state the callback of [trs.map] closes over. *)
Record MapState : Type := mkMapState {
  prevRowspans : gmap nat RowSpan;
  maxColumns : nat
}.

(** The callback of [trs.map( tr => ... )]. *)
Definition processRow (fuel : nat) (ms : MapState) (tr : ViewItem)
    : Outcome (list (option ViewItem) * MapState) :=
  let cells :=
    filter (fun child => name child = Some "th" \/ name child = Some "td") (getChildren tr) in
  st ← whileLoop fuel (prevRowspans ms) (maxColumns ms) (mkRowState cells [] ∅);
  Returns (curSlots st,
           mkMapState (mergeRowspans (prevRowspans ms) (curRowspans st))
                      (Nat.max (maxColumns ms) (length (curSlots st)))).

(** [trs.map( ... )], threading the closed-over state. *)
Fixpoint mapRows (fuel : nat) (ms : MapState) (trs : list ViewItem)
    : Outcome (list (list (option ViewItem)) * MapState) :=
  match trs with
  | [] => Returns ([], ms)
  | tr :: rest =>
      '(row, ms') ← processRow fuel ms tr;
      '(rows, ms'') ← mapRows fuel ms' rest;
      Returns (row :: rows, ms'')
  end.

(** [while ( rowSlots.length < maxColumns ) rowSlots.push( null )];
    [maxColumns] is the length of one of the rows, so no [push] is refused. *)
Definition padRow (maxColumns : nat) (rowSlots : list (option ViewItem))
    : list (option ViewItem) :=
  rowSlots ++ replicate (maxColumns - length rowSlots) None.

Definition generateCellMatrix (fuel : nat) (trs : list ViewItem)
    : Outcome (list (list (option ViewItem))) :=
  '(slots, ms) ← mapRows fuel (mkMapState ∅ O) trs;
  Returns (map (padRow (maxColumns ms)) slots).

End CellMatrix.

Import CellMatrix.

(** ** [scanTable] *)

Module Scan.

(** The variables of [scanTable] that the loop over the sections updates. *)
Record ScanState : Type := mkScanState {
  headingRowsAcc : nat;
  headRows : list ViewItem;
  bodyRows : list ViewItem;
  firstTheadElement : option ViewItem
}.

(** The condition under which a [<tr>] is pushed to [headRows]. *)
Definition isHeadingTr (firstThead : option ViewItem) (tableChild tr : ViewItem) : bool :=
  match firstThead with
  | Some f => same tableChild f
  | None => false
  end
  || (bool_decide (name tableChild = Some "tbody")
      && negb (bool_decide (length (getChildren tr) = O))
      && forallb (isElement "th") (getChildren tr)).

(** The body of [for ( const tr of trs )]. *)
Definition scanTr (tableChild : ViewItem) (st : ScanState) (tr : ViewItem) : ScanState :=
  if isHeadingTr (firstTheadElement st) tableChild tr
  then mkScanState (S (headingRowsAcc st)) (headRows st ++ [tr]) (bodyRows st)
                   (firstTheadElement st)
  else mkScanState (headingRowsAcc st) (headRows st) (bodyRows st ++ [tr])
                   (firstTheadElement st).

(** The body of [for ( const tableChild of ... )]. *)
Definition scanSection (st : ScanState) (tableChild : ViewItem) : ScanState :=
  if bool_decide (name tableChild ≠ Some "tbody")
     && bool_decide (name tableChild ≠ Some "thead")
     && bool_decide (name tableChild ≠ Some "tfoot")
  then st
  else
    let st1 :=
      if bool_decide (name tableChild = Some "thead")
         && negb (bool_decide (is_Some (firstTheadElement st)))
      then mkScanState (headingRowsAcc st) (headRows st) (bodyRows st) (Some tableChild)
      else st in
    let trs := filter (fun el => isElement "tr" el = true) (getChildren tableChild) in
    fold_left (scanTr tableChild) trs st1.

(** The index of the first entry of a matrix row that is not a [<th>]. *)
Fixpoint leadingTh (rowSlots : list (option ViewItem)) : nat :=
  match rowSlots with
  | Some c :: rest =>
      if bool_decide (name c ≠ Some "th") then O else S (leadingTh rest)
  | _ => O
  end.

(** [!headingColumns] for [headingColumns : number | undefined]
    ([None] is [undefined]): true on [undefined] and on [0]. *)
Definition notTruthy (headingColumns : option nat) : bool :=
  match headingColumns with
  | None | Some O => true
  | Some (S _) => false
  end.

(** The body of [for ( const rowSlots of bodyMatrix )]:
    [if ( !headingColumns || index < headingColumns ) headingColumns = index]. *)
Definition updateHeadingColumns (headingColumns : option nat)
    (rowSlots : list (option ViewItem)) : option nat :=
  let index := leadingTh rowSlots in
  if notTruthy headingColumns || (index <? default O headingColumns)%nat
  then Some index
  else headingColumns.

Record ScanResult : Type := mkScanResult {
  headingRows : nat;
  headingColumns : nat;
  rows : list ViewItem
}.

(** The loop over the children of the [<table>]. *)
Definition scanSections (viewTable : ViewItem) : ScanState :=
  fold_left scanSection (getChildren viewTable) (mkScanState O [] [] None).

Definition scanTable (fuel : nat) (viewTable : ViewItem) : Outcome ScanResult :=
  let st := scanSections viewTable in
  bodyMatrix ← generateCellMatrix fuel (bodyRows st);
  let headingColumns := fold_left updateHeadingColumns bodyMatrix None in
  Returns (mkScanResult (headingRowsAcc st) (default O headingColumns)
                        (headRows st ++ bodyRows st)).

End Scan.

Import Scan.

(** ** The model tree and the conversion API

    Elements of the model are objects that the converters hold by reference
    and that other converters fill in later, so they are kept in a store
    indexed by identity. *)

Module Model.

Record Element : Type := mkElement {
  ename : string;
  eattrs : gmap string nat;
  echildren : list nat
}.

Record Position : Type := mkPosition {
  parent : nat;
  index : nat
}.

End Model.

Import Model.

Module Conversion.

(** What a consumable descriptor can ask for; [{ name: true, classes: 'table' }]
    is [[AName; AClass "table"]]. *)
Inductive Aspect : Type :=
| AName
| AClass (c : string).

(** The second argument of [createPositionAt]: ['end'] or a number. *)
Inductive Offset : Type :=
| AtEnd
| AtOffset (n : nat).

(** The [data] object of an upcast event; [modelRange] lists the model
    items the range spans, [None] while it is unset. *)
Record Data : Type := mkData {
  viewItem : ViewItem;
  modelCursor : Position;
  modelRange : option (list nat)
}.

(** What [convertItem] and [convertChildren] return: [modelRange] as in
    [Data] ([None] is [null], the answer for an item that no converter took),
    and [modelCursor]. *)
Record ConversionResult : Type := mkConversionResult {
  resultRange : option (list nat);
  resultCursor : Position
}.

(** The calls the listeners make on [conversionApi], on the writer, on a
    model element and on the event, with the type of their answer. *)
Inductive Call : Type -> Type :=
| ConsumableTest (item : ViewItem) (d : list Aspect) : Call (option bool)
| ConsumableConsume (item : ViewItem) (d : list Aspect) : Call bool
| ConsumableRevert (item : ViewItem) (d : list Aspect) : Call unit
| WriterCreateElement (name : string) (attrs : gmap string nat) : Call nat
| WriterCreatePositionAt (e : nat) (o : Offset) : Call Position
| WriterInsert (e : nat) (pos : Position) : Call unit
| SafeInsert (e : nat) (pos : Position) : Call bool
| ConvertItem (item : ViewItem) (pos : Position) : Call ConversionResult
| ConvertChildren (item : ViewItem) (pos : Position) : Call ConversionResult
| UpdateConversionResult (e : nat) (data : Data) : Call Data
| ElementIsEmpty (e : nat) : Call bool
| CreateEmptyTableCell (pos : Position) : Call nat
| EvtStop : Call unit.

(** A listener is a program over these calls. *)
Inductive Prog (A : Type) : Type :=
| Ret (a : A)
| Do {X : Type} (c : Call X) (k : X -> Prog A).

Arguments Ret {A} a.
Arguments Do {A X} c k.

Fixpoint bind {A B : Type} (p : Prog A) (f : A -> Prog B) : Prog B :=
  match p with
  | Ret a => f a
  | Do c k => Do c (fun x => bind (k x) f)
  end.

Definition call {X : Type} (c : Call X) : Prog X := Do c Ret.

#[global] Instance Prog_ret : MRet Prog := @Ret.
#[global] Instance Prog_bind : MBind Prog := fun A B f p => bind p f.

(** A call together with the answer it got. *)
Inductive Event : Type :=
| Called {X : Type} (c : Call X) (answer : X).

(** An implementation of the API over a state [S]. *)
Definition Env (S : Type) : Type := forall X, Call X -> S -> X * S.

(** Running a listener: its result, the final state and the calls made. *)
Fixpoint run {S A : Type} (env : Env S) (p : Prog A) (s : S) : A * S * list Event :=
  match p with
  | Ret a => (a, s, [])
  | Do c k =>
      let '(x, s1) := env _ c s in
      let '(a, s2, evs) := run env (k x) s1 in
      (a, s2, Called c x :: evs)
  end.

Definition result {S A : Type} (env : Env S) (p : Prog A) (s : S) : A := (run env p s).1.1.
Definition final {S A : Type} (env : Env S) (p : Prog A) (s : S) : S := (run env p s).1.2.
Definition trace {S A : Type} (env : Env S) (p : Prog A) (s : S) : list Event :=
  (run env p s).2.

(** [!x] on the answer of [consumable.test]: [null] and [false] are falsy. *)
Definition truthy (v : option bool) : bool := default false v.

(** *** [getViewTableFromFigure] *)

Fixpoint firstTable (children : list ViewItem) : option ViewItem :=
  match children with
  | [] => None
  | figureChild :: rest =>
      if isElement "table" figureChild then Some figureChild else firstTable rest
  end.

Definition getViewTableFromFigure (figureView : ViewItem) : option ViewItem :=
  firstTable (getChildren figureView).

(** *** [upcastTableFigure]: the listener on [element:figure] *)

Definition figureDescriptor : list Aspect := [AName; AClass "table"].

(** The listener.  [conversionResult.modelRange!] is an assertion of the
    type checker only: on [null], the call of [getItems] raises [TypeError]. *)
Definition upcastTableFigure (data : Data) : Prog (Outcome Data) :=
  avail ← call (ConsumableTest (viewItem data) figureDescriptor);
  if negb (truthy avail) then mret (Returns data)
  else
    match getViewTableFromFigure (viewItem data) with
    | None => mret (Returns data)
    | Some viewTable =>
        availTable ← call (ConsumableTest viewTable [AName]);
        if negb (truthy availTable) then mret (Returns data)
        else
          _ ← call (ConsumableConsume (viewItem data) figureDescriptor);
          conversionResult ← call (ConvertItem viewTable (modelCursor data));
          match resultRange conversionResult with
          | None => mret (Raises TypeError)
          | Some items =>
              match head items with
              | None =>
                  _ ← call (ConsumableRevert (viewItem data) figureDescriptor);
                  mret (Returns data)
              | Some modelTable =>
                  pos ← call (WriterCreatePositionAt modelTable AtEnd);
                  _ ← call (ConvertChildren (viewItem data) pos);
                  data' ← call (UpdateConversionResult modelTable data);
                  mret (Returns data')
              end
          end
    end.

(** *** [upcastTable]: the listener on [element:table] *)

(** [rows.forEach( row => conversionApi.convertItem( row, createPositionAt( table, 'end' ) ) )]. *)
Fixpoint forEachRow (table : nat) (rows : list ViewItem) : Prog unit :=
  match rows with
  | [] => mret tt
  | row :: rest =>
      pos ← call (WriterCreatePositionAt table AtEnd);
      _ ← call (ConvertItem row pos);
      forEachRow table rest
  end.

(** The [attributes] object: a key is set only for a non-zero value. *)
Definition tableAttributes (scan : ScanResult) : gmap string nat :=
  let attributes : gmap string nat := ∅ in
  let attributes :=
    if bool_decide (headingColumns scan ≠ O)
    then <["headingColumns" := headingColumns scan]> attributes else attributes in
  if bool_decide (headingRows scan ≠ O)
  then <["headingRows" := headingRows scan]> attributes else attributes.

(** [if ( table.isEmpty ) { ... }]. *)
Definition fillEmptyTable (table : nat) : Prog unit :=
  tableIsEmpty ← call (ElementIsEmpty table);
  if (tableIsEmpty : bool) then
    row ← call (WriterCreateElement "tableRow" ∅);
    pos ← call (WriterCreatePositionAt table AtEnd);
    _ ← call (WriterInsert row pos);
    posRow ← call (WriterCreatePositionAt row AtEnd);
    _ ← call (CreateEmptyTableCell posRow);
    mret tt
  else mret tt.

(** From the consumption of the [<table>] to the conversion of its other
    children. *)
Definition convertContent (viewTable : ViewItem) (table : nat) (rows : list ViewItem)
    : Prog unit :=
  _ ← call (ConsumableConsume viewTable [AName]);
  _ ← forEachRow table rows;
  pos ← call (WriterCreatePositionAt table AtEnd);
  _ ← call (ConvertChildren viewTable pos);
  mret tt.

(** The part of the listener after [scanTable]. *)
Definition upcastScanned (scan : ScanResult) (data : Data) : Prog Data :=
  let viewTable := viewItem data in
  table ← call (WriterCreateElement "table" (tableAttributes scan));
  inserted ← call (SafeInsert table (modelCursor data));
  if negb inserted then mret data
  else
    _ ← convertContent viewTable table (rows scan);
    _ ← fillEmptyTable table;
    call (UpdateConversionResult table data).

(** The listener; an exception of [scanTable] ends it. *)
Definition upcastTable (fuel : nat) (data : Data) : Prog (Outcome Data) :=
  let viewTable := viewItem data in
  avail ← call (ConsumableTest viewTable [AName]);
  if negb (truthy avail) then mret (Returns data)
  else
    match scanTable fuel viewTable with
    | Returns scan => data' ← upcastScanned scan data; mret (Returns data')
    | Raises e => mret (Raises e)
    | OutOfFuel => mret OutOfFuel
    end.

(** *** [skipEmptyTableRow]: the high-priority listener on [element:tr] *)

Definition skipEmptyTableRow (data : Data) : Prog Data :=
  if isEmpty (viewItem data) && bool_decide (index (modelCursor data) = O)
  then _ ← call EvtStop; mret data
  else mret data.

End Conversion.

Import Conversion.

(** ** The engine side of the API

    The consumable tracker, the dispatcher helpers and the model writer live
    in the engine package.  They are modelled here as far as the listeners of
    this file depend on them; the schema and the converters that
    [convertItem] and [convertChildren] reach are parameters. *)

Module Engine.

#[global] Instance Aspect_eq_dec : EqDecision Aspect.
Proof. solve_decision. Defined.

#[global] Instance Aspect_countable : Countable Aspect.
Proof.
  refine (inj_countable'
    (fun a => match a with AName => inl tt | AClass c => inr c end)
    (fun x => match x with inl _ => AName | inr c => AClass c end) _).
  by intros [].
Defined.

(** The state of one conversion pass. *)
Record ConvState : Type := mkConvState {
  consumables : gmap (list nat * Aspect) bool;
  elements : nat -> Element;
  nextId : nat;
  stopped : bool
}.

(** Modelled from the spec: the consumable tracker of the engine (section
    4.2).  [test] answers [null] for an aspect that was never registered,
    [false] for a consumed one and [true] when every aspect asked for is
    available. *)
Fixpoint consumableTest (c : gmap (list nat * Aspect) bool) (item : list nat)
    (d : list Aspect) : option bool :=
  match d with
  | [] => Some true
  | a :: rest =>
      match c !! (item, a) with
      | None => None
      | Some false => Some false
      | Some true => consumableTest c item rest
      end
  end.

(** Modelled from the spec: [consume] succeeds only on available aspects,
    and marks them used. *)
Definition consumableConsume (c : gmap (list nat * Aspect) bool) (item : list nat)
    (d : list Aspect) : bool * gmap (list nat * Aspect) bool :=
  if bool_decide (consumableTest c item d = Some true)
  then (true, foldr (fun a m => <[(item, a) := false]> m) c d)
  else (false, c).

(** Modelled from the spec: [revert] restores the availability of the
    registered aspects it is given. *)
Definition consumableRevert (c : gmap (list nat * Aspect) bool) (item : list nat)
    (d : list Aspect) : gmap (list nat * Aspect) bool :=
  foldr (fun a m => alter (fun _ => true) (item, a) m) c d.

(** Modelled from the spec: the writer of the engine.  [createElement]
    makes a new, detached element. *)
Definition createElement (name : string) (attrs : gmap string nat) (s : ConvState)
    : nat * ConvState :=
  (nextId s,
   mkConvState (consumables s)
               (<[nextId s := mkElement name attrs []]> (elements s))
               (S (nextId s)) (stopped s)).

(** Modelled from the spec: [writer.createPositionAt( element, offset )];
    ['end'] is the position after the last child. *)
Definition createPositionAt (e : nat) (o : Offset) (s : ConvState) : Position :=
  match o with
  | AtEnd => mkPosition e (length (echildren (elements s e)))
  | AtOffset n => mkPosition e n
  end.

(** Modelled from the spec: [writer.insert( element, position )] puts the
    element among the children of the parent of the position. *)
Definition insertChild (e : nat) (pos : Position) (p : Element) : Element :=
  mkElement (ename p) (eattrs p)
            (take (index pos) (echildren p) ++ e :: drop (index pos) (echildren p)).

Definition writerInsert (e : nat) (pos : Position) (s : ConvState) : ConvState :=
  mkConvState (consumables s)
              (<[parent pos := insertChild e pos (elements s (parent pos))]> (elements s))
              (nextId s) (stopped s).

(** Modelled from the spec: [element.isEmpty] of a model element. *)
Definition elementIsEmpty (e : nat) (s : ConvState) : bool :=
  bool_decide (echildren (elements s e) = []).

(** Modelled from the spec: [createEmptyTableCell] of [utils/common]
    yields one empty cell at the position. *)
Definition createEmptyTableCell (pos : Position) (s : ConvState) : nat * ConvState :=
  let '(tableCell, s1) := createElement "tableCell" ∅ s in
  (tableCell, writerInsert tableCell pos s1).

(** Modelled from the spec: [updateConversionResult] merges the element
    into the running result of the event. *)
Definition updateConversionResult (e : nat) (data : Data) : Data :=
  mkData (viewItem data)
         (mkPosition (parent (modelCursor data)) (S (index (modelCursor data))))
         (Some (default [] (modelRange data) ++ [e])).

(** What the engine is set up with: the schema check behind [safeInsert], and
    what the dispatcher does on [convertItem] and on [convertChildren]. *)
Record Externals : Type := mkExternals {
  schemaAllows : ConvState -> nat -> Position -> bool;
  convertItemImpl : ViewItem -> Position -> ConvState -> ConversionResult * ConvState;
  convertChildrenImpl : ViewItem -> Position -> ConvState -> ConversionResult * ConvState
}.

Section Env.

Variable ext : Externals.

(** Modelled from the spec: [safeInsert] inserts when the schema allows
    it and otherwise fails with no side effect (section 4.3). *)
Definition safeInsert (e : nat) (pos : Position) (s : ConvState) : bool * ConvState :=
  if schemaAllows ext s e pos then (true, writerInsert e pos s) else (false, s).

Definition specEnv : Env ConvState :=
  fun X c =>
    match c in Call X return ConvState -> X * ConvState with
    | ConsumableTest item d => fun s => (consumableTest (consumables s) (path item) d, s)
    | ConsumableConsume item d => fun s =>
        let '(ok, c') := consumableConsume (consumables s) (path item) d in
        (ok, mkConvState c' (elements s) (nextId s) (stopped s))
    | ConsumableRevert item d => fun s =>
        (tt, mkConvState (consumableRevert (consumables s) (path item) d)
                         (elements s) (nextId s) (stopped s))
    | WriterCreateElement name attrs => createElement name attrs
    | WriterCreatePositionAt e o => fun s => (createPositionAt e o s, s)
    | WriterInsert e pos => fun s => (tt, writerInsert e pos s)
    | SafeInsert e pos => safeInsert e pos
    | ConvertItem item pos => convertItemImpl ext item pos
    | ConvertChildren item pos => convertChildrenImpl ext item pos
    | UpdateConversionResult e data => fun s => (updateConversionResult e data, s)
    | ElementIsEmpty e => fun s => (elementIsEmpty e s, s)
    | CreateEmptyTableCell pos => createEmptyTableCell pos
    | EvtStop => fun s =>
        (tt, mkConvState (consumables s) (elements s) (nextId s) true)
    end.

(** Modelled from the spec: the listeners of an event are called from the
    most prioritized on, until one of them stops the event (section 4.3). *)
Fixpoint callListeners (listeners : list (Data -> Prog Data)) (data : Data) (s : ConvState)
    : Data * ConvState :=
  match listeners with
  | [] => (data, s)
  | listener :: rest =>
      let '(data', s', _) := run specEnv (listener data) s in
      if stopped s' then (data', s') else callListeners rest data' s'
  end.

(** Modelled from the spec: firing makes a new event, not stopped yet. *)
Definition fire (listeners : list (Data -> Prog Data)) (data : Data) (s : ConvState)
    : Data * ConvState :=
  callListeners listeners data (mkConvState (consumables s) (elements s) (nextId s) false).

End Env.

End Engine.

Import Engine.

(** ** The base class of operations

    [operation.js] declares the constructor only; [_execute], [getReversed]
    and [getTransformedBy] are documented there as methods that the deriving
    classes have to define. *)

Module Operation.

Record Operation : Type := mkOperation {
  baseVersion : Z
}.

(** [new Operation( baseVersion )]. *)
Definition new (baseVersion : Z) : Operation := mkOperation baseVersion.

End Operation.

(** ** Notions used to state the properties *)

(** The fuel only bounds the loops: a function returns [m] when some
    amount of fuel lets the model return [m]. *)
Definition matrixOf (trs : list ViewItem) (m : list (list (option ViewItem))) : Prop :=
  exists fuel, generateCellMatrix fuel trs = Returns m.

Definition scanOf (viewTable : ViewItem) (r : ScanResult) : Prop :=
  exists fuel, scanTable fuel viewTable = Returns r.

(** The cells of a row: its [<th>] and [<td>] children. *)
Definition rowCells (tr : ViewItem) : list ViewItem :=
  filter (fun child => name child = Some "th" \/ name child = Some "td") (getChildren tr).

(** The number that a span attribute of a cell is parsed to. *)
Definition spanOf (attr : string) (c : ViewItem) : JS.number :=
  JS.parseInt (JS.orString (getAttribute attr c) "1").

(** [n] iterations of the body of the loop over [colspan], every [push]
    being accepted. *)
Fixpoint pushCell (n : nat) (c : ViewItem) (rowspan : JS.number)
    (slots : list (option ViewItem)) (spans : gmap nat RowSpan)
    : list (option ViewItem) * gmap nat RowSpan :=
  match n with
  | O => (slots, spans)
  | S n' =>
      let spans' :=
        if JS.gt rowspan (JS.Num 1)
        then <[length slots := mkRowSpan c (JS.sub rowspan (JS.Num 1))]> spans
        else spans in
      pushCell n' c rowspan (slots ++ [Some c]) spans'
  end.

(** The number of slots that a cell with this [colspan] takes in a row that
    gets completed: [colspan] itself when it is a positive integer, and none
    when it is zero, negative, [NaN] or minus infinity.  (With an infinite
    [colspan] the row is never completed.) *)
Definition slotCount (colspan : JS.number) : nat :=
  match colspan with
  | JS.Num z => Z.to_nat z
  | _ => O
  end.

(** Every key of a row-span map lies below [n]. *)
Definition spansBelow (m : gmap nat RowSpan) (n : nat) : Prop :=
  forall k, is_Some (m !! k) -> (k < n)%nat.

(** What is left to do in a row: cells not yet taken, and columns of the
    running maximum not yet filled. *)
Definition measure (maxColumns : nat) (st : RowState) : nat :=
  (length (children st) + (maxColumns - length (curSlots st)))%nat.

(** The three ways an iteration that completes can go: a cell of an earlier
    row is carried over, or the next cell of the row is taken and pushed
    [colspan] times, or an empty slot is pushed. *)
Inductive Step (prev : gmap nat RowSpan) (st : RowState) : RowState -> Prop :=
| StepSpan rowSpan :
    prev !! length (curSlots st) = Some rowSpan ->
    Z.of_nat (length (curSlots st)) < JS.maxArrayLength ->
    Step prev st (mkRowState (children st) (curSlots st ++ [Some (cell rowSpan)])
                             (curRowspans st))
| StepCell c rest :
    children st = c :: rest ->
    spanOf "colspan" c <> JS.PosInf ->
    ((0 < slotCount (spanOf "colspan" c))%nat ->
     Z.of_nat (length (curSlots st)) + Z.of_nat (slotCount (spanOf "colspan" c))
     <= JS.maxArrayLength) ->
    Step prev st
         (mkRowState rest
            (pushCell (slotCount (spanOf "colspan" c)) c (spanOf "rowspan" c)
                      (curSlots st) (curRowspans st)).1
            (pushCell (slotCount (spanOf "colspan" c)) c (spanOf "rowspan" c)
                      (curSlots st) (curRowspans st)).2)
| StepNull :
    children st = [] ->
    Z.of_nat (length (curSlots st)) < JS.maxArrayLength ->
    Step prev st (mkRowState [] (curSlots st ++ [None]) (curRowspans st)).

(** *** The rows of a table, as the specification words them *)

(** The smallest number of leading [<th>] slots over the rows of a matrix
    ([0] for no row at all). *)
Definition minLeadingTh (matrix : list (list (option ViewItem))) : nat :=
  match leadingTh <$> matrix with
  | [] => O
  | n :: ns => foldr Nat.min n ns
  end.

(** A child of the table that can hold rows. *)
Definition isSection (tableChild : ViewItem) : bool :=
  bool_decide (name tableChild = Some "tbody")
  || bool_decide (name tableChild = Some "thead")
  || bool_decide (name tableChild = Some "tfoot").

(** The [<tr>] children of a section. *)
Definition trsOf (tableChild : ViewItem) : list ViewItem :=
  filter (fun el => isElement "tr" el = true) (getChildren tableChild).

(** Every [<tr>] of the sections among [cs], with its section, in source
    document order. *)
Fixpoint sectionRowsOf (cs : list ViewItem) : list (ViewItem * ViewItem) :=
  match cs with
  | [] => []
  | tableChild :: rest =>
      (if isSection tableChild then pair tableChild <$> trsOf tableChild else [])
      ++ sectionRowsOf rest
  end.

Definition sectionRows (viewTable : ViewItem) : list (ViewItem * ViewItem) :=
  sectionRowsOf (getChildren viewTable).

(** The first [<thead>] among [cs]. *)
Fixpoint firstTheadOf (cs : list ViewItem) : option ViewItem :=
  match cs with
  | [] => None
  | tableChild :: rest =>
      if bool_decide (name tableChild = Some "thead") then Some tableChild
      else firstTheadOf rest
  end.

Definition firstThead (viewTable : ViewItem) : option ViewItem :=
  firstTheadOf (getChildren viewTable).

(** A row with at least one child, all of whose children are [<th>] elements. *)
Definition allTh (tr : ViewItem) : bool :=
  match getChildren tr with
  | [] => false
  | cells => forallb (isElement "th") cells
  end.

(** The [firstTheadElement] in force while the rows of [tableChild] are
    scanned. *)
Definition theadAt (F : option ViewItem) (tableChild : ViewItem) : option ViewItem :=
  match F with
  | Some f => Some f
  | None => if bool_decide (name tableChild = Some "thead") then Some tableChild else None
  end.

(** The first [<thead>] as the loop sees it from a state on. *)
Definition resolveThead (F : option ViewItem) (cs : list ViewItem) : option ViewItem :=
  match F with
  | Some f => Some f
  | None => firstTheadOf cs
  end.

(** The row belongs to the section [f]. *)
Definition inSection (f : option ViewItem) (p : ViewItem * ViewItem) : bool :=
  match f with
  | Some f => bool_decide (path p.1 = path f)
  | None => false
  end.

(** The row is a [<tbody>] row made of [<th>] cells only. *)
Definition tbodyAllTh (p : ViewItem * ViewItem) : bool :=
  bool_decide (name p.1 = Some "tbody") && allTh p.2.

(** A heading row: a row of the first [<thead>], or a [<tbody>] row made of
    [<th>] cells only. *)
Definition headingRow (f : option ViewItem) (p : ViewItem * ViewItem) : bool :=
  inSection f p || tbodyAllTh p.

(** The rows of the first [<thead>] of the table. *)
Definition firstTheadRows (viewTable : ViewItem) : list ViewItem :=
  match firstThead viewTable with
  | Some f => trsOf f
  | None => []
  end.

(** *** Notions about the converters *)

(** The event is a call of [consumable.test]. *)
Definition isTest (ev : Event) : Prop :=
  match ev with
  | Called c _ =>
      match c with
      | ConsumableTest _ _ => True
      | _ => False
      end
  end.

(** The element [table] of the store has a [tableRow] child that has a
    [tableCell] child. *)
Definition hasRowWithCell (s : ConvState) (table : nat) : bool :=
  existsb
    (fun row =>
       bool_decide (ename (elements s row) = "tableRow")
       && existsb (fun c => bool_decide (ename (elements s c) = "tableCell"))
                  (echildren (elements s row)))
    (echildren (elements s table)).

(** ** Further notions about the listeners *)

(** The item and the position of a call of [convertItem]. *)
Definition convertItemOf (ev : Event) : option (ViewItem * Position) :=
  match ev with
  | Called c _ =>
      match c with
      | ConvertItem item pos => Some (item, pos)
      | _ => None
      end
  end.

(** The item and the position of a call of [convertChildren]. *)
Definition convertChildrenOf (ev : Event) : option (ViewItem * Position) :=
  match ev with
  | Called c _ =>
      match c with
      | ConvertChildren item pos => Some (item, pos)
      | _ => None
      end
  end.

(** The event is a call of [consumable.revert]. *)
Definition isRevert (ev : Event) : Prop :=
  match ev with
  | Called c _ =>
      match c with
      | ConsumableRevert _ _ => True
      | _ => False
      end
  end.

(** ** Further notions about the scanner and the matrix *)

(** The smallest number of a list, [0] for the empty list. *)
Definition minOr0 (ns : list nat) : nat :=
  match ns with
  | [] => O
  | n :: rest => foldr Nat.min n rest
  end.

(** The slots a cell takes in its own row: as many as its [colspan]. *)
Definition ownSlots (c : ViewItem) : list (option ViewItem) :=
  replicate (slotCount (spanOf "colspan" c)) (Some c).

(** The slots of the cells of a list, one cell after the other. *)
Definition expandCells (cells : list ViewItem) : list (option ViewItem) :=
  concat (ownSlots <$> cells).

Definition expandRow (tr : ViewItem) : list (option ViewItem) :=
  expandCells (rowCells tr).

(** What is known in the middle of a row that starts with [M] columns to
    fill and whose cells take [T] slots: the slots in place and those of the
    cells still to come fit in [M + T]. *)
Definition fitsIn (M T : nat) (st : RowState) : Prop :=
  (length (curSlots st) + length (expandCells (children st)) <= M + T)%nat
  /\ (length (expandCells (children st)) <= T)%nat
  /\ Forall (fun c => spanOf "colspan" c <> JS.PosInf) (children st).

(** The number of slots that the cells of all the rows take. *)
Definition totalSlots (trs : list ViewItem) : nat :=
  sum_list (length <$> (expandRow <$> trs)).

(** ** [ensureParagraphInTableCell] *)

(** Modelled from the spec: [writer.move( writer.createRangeOn( node ), position )]
    takes the node out of the children of its parent and puts it among the
    children of the parent of the position; this is how the markers of a
    cell get wrapped in the new paragraph (section 4.5).  A model element
    holds no reference to its parent here, so the parent is given. *)
Definition removeChild (node : nat) (p : Element) : Element :=
  mkElement (ename p) (eattrs p) (filter (fun c => c <> node) (echildren p)).

Definition writerMove (node from : nat) (pos : Position) (s : ConvState) : ConvState :=
  writerInsert node pos
    (mkConvState (consumables s)
                 (<[from := removeChild node (elements s from)]> (elements s))
                 (nextId s) (stopped s)).

(** [node.is( 'element', '$marker' )]. *)
Definition isMarkerElement (s : ConvState) (node : nat) : bool :=
  bool_decide (ename (elements s node) = "$marker").

(** The [for] loop over the snapshot [childNodes]. *)
Definition moveToParagraph (tableCell paragraph : nat) (childNodes : list nat)
    (s : ConvState) : ConvState :=
  foldl (fun st node => writerMove node tableCell (createPositionAt paragraph AtEnd st) st)
        s childNodes.

(** The listener on [element:<elementName>], of low priority; it changes
    the model only.  [data.modelRange.start.nodeAfter] is the first item of
    the range; on a range that spans no item there is no table cell to work
    on, and the result is [None]. *)
Definition ensureParagraphInTableCell (data : Data) (s : ConvState) : option ConvState :=
  match modelRange data with
  | None => Some s
  | Some range =>
      tableCell ← head range;
      let modelCursor := createPositionAt tableCell (AtOffset 0) s in
      if isEmpty (viewItem data) then
        let '(paragraph, s1) := createElement "paragraph" ∅ s in
        Some (writerInsert paragraph modelCursor s1)
      else
        let childNodes := echildren (elements s tableCell) in
        if forallb (isMarkerElement s) childNodes then
          let '(paragraph, s1) := createElement "paragraph" ∅ s in
          let s2 := writerInsert paragraph (createPositionAt tableCell (AtOffset 0) s1) s1 in
          Some (moveToParagraph tableCell paragraph childNodes s2)
        else Some s
  end.

(** ** Concrete inputs *)

Module Examples.

Definition td (attrs : gmap string string) : ViewNode := ViewElement "td" attrs [].
Definition th (attrs : gmap string string) : ViewNode := ViewElement "th" attrs [].
Definition tr (cells : list ViewNode) : ViewNode := ViewElement "tr" ∅ cells.
Definition tbody (rows : list ViewNode) : ViewNode := ViewElement "tbody" ∅ rows.
Definition thead (rows : list ViewNode) : ViewNode := ViewElement "thead" ∅ rows.
Definition table (sections : list ViewNode) : ViewItem :=
  mkItem [] (ViewElement "table" ∅ sections).

(** [tbody{ tr[ td, td(rowspan 2), td ]; tr[ td ] }]. *)
Definition spanTbody : ViewItem :=
  mkItem [O] (tbody [tr [td ∅; td {[ "rowspan" := "2" ]}; td ∅]; tr [td ∅]]).

Definition spanRows : list ViewItem := getChildren spanTbody.

Definition cell11 : ViewItem := mkItem [O; O; O] (td ∅).
Definition cell12 : ViewItem := mkItem [O; O; 1%nat] (td {[ "rowspan" := "2" ]}).
Definition cell13 : ViewItem := mkItem [O; O; 2%nat] (td ∅).
Definition cell21 : ViewItem := mkItem [O; 1%nat; O] (td ∅).

(** The matrix with the empty slot in the middle of the second row. *)
Definition spanMatrixNullSecond : list (list (option ViewItem)) :=
  [ [Some cell11; Some cell12; Some cell13];
    [Some cell21; None; Some cell12] ].

(** The matrix with the row-spanning cell in the middle of the second row. *)
Definition spanMatrixNullThird : list (list (option ViewItem)) :=
  [ [Some cell11; Some cell12; Some cell13];
    [Some cell21; Some cell12; None] ].

(** The example of the source's comment: the third cell spans two rows. *)
Definition docRows : list ViewItem :=
  getChildren
    (mkItem [O] (tbody [tr [td ∅; td ∅; td {[ "rowspan" := "2" ]}]; tr [td ∅]; tr [td ∅]])).

(** Cells with spans that are zero, negative or not numbers. *)
Definition oddRows : list ViewItem :=
  getChildren
    (mkItem [O] (tbody
      [ tr [td {[ "colspan" := "0" ]}; td {[ "colspan" := "-3" ]};
            td {[ "colspan" := "wide"; "rowspan" := "tall" ]};
            td {[ "rowspan" := "0" ]}; td {[ "rowspan" := "-1"; "colspan" := "2" ]}];
        tr [td {[ "colspan" := "" ]}] ])).

(** A row with one cell whose [colspan] is 2^32. *)
Definition hugeCell : ViewItem := mkItem [O; O; O] (td {[ "colspan" := "4294967296" ]}).
Definition hugeRow : ViewItem := mkItem [O; O] (tr [td {[ "colspan" := "4294967296" ]}]).
Definition hugeColspanRows : list ViewItem := [hugeRow].

(** The string of [n] digits 9. *)
Definition nines (n : nat) : string := Nat.iter n (String "9"%char) "".

(** A body row starting with a [<td>], then one starting with a [<th>]. *)
Definition tdRowThenThRow : ViewItem :=
  table [tbody [tr [td ∅]; tr [th ∅; td ∅]]].

(** The table of the comment in [scanTable]: a [<thead>] between two
    [<tbody>]s. *)
Definition theadInTheMiddle : ViewItem :=
  table [tbody [tr [td ∅]]; thead [tr [td ∅]]; tbody [tr [td ∅]]].

(** A [<thead>] after a [<tbody>] whose only row is made of [<th>] cells. *)
Definition theadAfterThTbody : ViewItem :=
  table [tbody [tr [th ∅]]; thead [tr [td ∅]]].

(** A pass over a document with a root element, before anything is
    converted; the aspects of the items at the given paths are available. *)
Definition root : Element := mkElement "$root" ∅ [].

Definition startState (available : list (list nat * Aspect)) : ConvState :=
  mkConvState (list_to_map ((fun k => (k, true)) <$> available)) (fun _ => root) 1 false.

Definition atRoot : Position := mkPosition O O.

(** A schema that allows everything, and one that allows nothing. *)
Definition allowAll (s : ConvState) (e : nat) (pos : Position) : bool := true.
Definition allowNothing (s : ConvState) (e : nat) (pos : Position) : bool := false.

(** A dispatcher with no converter for the items it is given: the range
    it answers is [null]. *)
Definition noConversion (item : ViewItem) (pos : Position) (s : ConvState)
    : ConversionResult * ConvState :=
  (mkConversionResult None pos, s).

(** A dispatcher whose converters take the item and insert nothing: the
    range it answers is empty. *)
Definition emptyConversion (item : ViewItem) (pos : Position) (s : ConvState)
    : ConversionResult * ConvState :=
  (mkConversionResult (Some []) pos, s).

(** A dispatcher whose only converter turns a [<caption>] child into a
    [caption] element at the position. *)
Definition captionConversion (item : ViewItem) (pos : Position) (s : ConvState)
    : ConversionResult * ConvState :=
  if existsb (isElement "caption") (getChildren item) then
    let '(caption, s1) := createElement "caption" ∅ s in
    (mkConversionResult (Some [caption]) (mkPosition (parent pos) (S (index pos))),
     writerInsert caption pos s1)
  else (mkConversionResult (Some []) pos, s).

(** A dispatcher in which the item does not become the model element meant
    for it (the schema refuses it, say) and its content is turned into a
    paragraph at the position by another converter. *)
Definition paragraphConversion (item : ViewItem) (pos : Position) (s : ConvState)
    : ConversionResult * ConvState :=
  let '(paragraph, s1) := createElement "paragraph" ∅ s in
  (mkConversionResult (Some [paragraph]) (mkPosition (parent pos) (S (index pos))),
   writerInsert paragraph pos s1).

(** Engines: one that converts nothing and allows every insertion, one that
    refuses every insertion, one that converts captions. *)
Definition plain : Externals := mkExternals allowAll noConversion noConversion.
Definition refusing : Externals := mkExternals allowNothing noConversion noConversion.
Definition withCaptions : Externals := mkExternals allowAll noConversion captionConversion.

(** The engines around a table figure whose [<table>] is converted to
    nothing, and to a paragraph. *)
Definition emptyInFigure : Externals := mkExternals allowAll emptyConversion noConversion.
Definition paragraphInFigure : Externals :=
  mkExternals allowAll paragraphConversion noConversion.

(** A listener that turns the item into a [tableRow] at the cursor. *)
Definition rowListener (data : Data) : Prog Data :=
  row ← call (WriterCreateElement "tableRow" ∅);
  _ ← call (WriterInsert row (modelCursor data));
  call (UpdateConversionResult row data).

Definition emptyTable : ViewItem := table [].
Definition captionTable : ViewItem := table [ViewElement "caption" ∅ [ViewText "Sizes"]].

Definition figureOf (children : list ViewNode) : ViewItem :=
  mkItem [] (ViewElement "figure" ∅ children).

Definition emptyTr : ViewItem := mkItem [O; 1%nat] (tr []).

(** The event data for a [<table>] at the root of the view, the cursor at
    the start of the model root; the name of the table is available. *)
Definition tableData (viewTable : ViewItem) : Data := mkData viewTable atRoot None.
Definition tableState : ConvState := startState [([], AName)].

(** A [<figure class="table">] holding a [<table>], with the aspects the
    listeners ask for available. *)
Definition tableFigure : ViewItem := figureOf [ViewElement "table" ∅ [tbody [tr [td ∅]]]].
Definition figureState : ConvState :=
  startState [([], AName); ([], AClass "table"); ([O], AName)].

(** A dispatcher that converts an item with the listener on [element:table],
    under a schema that refuses the table. *)
Definition refusedTableConversion (item : ViewItem) (pos : Position) (s : ConvState)
    : ConversionResult * ConvState :=
  let '(data', s', _) :=
    run (specEnv refusing) (upcastTable 2 (mkData item pos None)) s in
  (mkConversionResult
     match data' with
     | Returns d => modelRange d
     | _ => None
     end pos, s').

(** The engine around a table figure whose [<table>] the schema refuses. *)
Definition refusedInFigure : Externals :=
  mkExternals allowAll refusedTableConversion noConversion.

(** A dispatcher that fires [element:tr] on the item: the guard first, then
    the listener that makes the row. *)
Definition rowDispatch (item : ViewItem) (pos : Position) (s : ConvState)
    : ConversionResult * ConvState :=
  let '(data', s') := fire plain [skipEmptyTableRow; rowListener] (mkData item pos None) s in
  (mkConversionResult (modelRange data') (modelCursor data'), s').

Definition withRows : Externals := mkExternals allowAll rowDispatch noConversion.

(** Two empty rows, a row with a cell, an empty row. *)
Definition leadingEmptyRows : ViewItem := table [tbody [tr []; tr []; tr [td ∅]; tr []]].

(** Empty rows only. *)
Definition onlyEmptyRows : ViewItem := table [tbody [tr []; tr []]].

(** A figure with a caption before its table. *)
Definition captionedFigure : ViewItem :=
  figureOf [ViewElement "figcaption" ∅ []; ViewElement "table" ∅ [tbody [tr [td ∅]]]].

(** A dispatcher that makes one [table] element at the position for the item. *)
Definition tableConversion (item : ViewItem) (pos : Position) (s : ConvState)
    : ConversionResult * ConvState :=
  let '(t, s1) := createElement "table" ∅ s in
  (mkConversionResult (Some [t]) (mkPosition (parent pos) (S (index pos))),
   writerInsert t pos s1).

Definition withTables : Externals := mkExternals allowAll tableConversion noConversion.

(** The body rows of [tdRowThenThRow] and their matrix. *)
Definition tdRowThenThRowMatrix : list (list (option ViewItem)) :=
  [ [Some (mkItem [O; O; O] (td ∅)); None];
    [Some (mkItem [O; 1%nat; O] (th ∅)); Some (mkItem [O; 1%nat; 1%nat] (td ∅))] ].

(** The matrix of [oddRows]: of the first row only the last two cells take
    slots, the last of them two. *)
Definition oddMatrix : list (list (option ViewItem)) :=
  [ [ Some (mkItem [O; O; 3%nat] (td {[ "rowspan" := "0" ]}));
      Some (mkItem [O; O; 4%nat] (td {[ "rowspan" := "-1"; "colspan" := "2" ]}));
      Some (mkItem [O; O; 4%nat] (td {[ "rowspan" := "-1"; "colspan" := "2" ]})) ];
    [ Some (mkItem [O; 1%nat; O] (td {[ "colspan" := "" ]})); None; None ] ].

(** A model whose table cell (element 1) holds two marker elements, and the
    event data of the view cell it was converted from. *)
Definition markerCellState : ConvState :=
  mkConvState ∅
    (<[1%nat := mkElement "tableCell" ∅ [2%nat; 3%nat]]>
       (<[2%nat := mkElement "$marker" ∅ []]>
          (<[3%nat := mkElement "$marker" ∅ []]> (fun _ => root))))
    4 false.

Definition cellData (children : list ViewNode) : Data :=
  mkData (mkItem [O; O; O] (ViewElement "td" ∅ children)) (mkPosition 1 O) (Some [1%nat]).

End Examples.

(** ** The loops of [generateCellMatrix] *)

Section WhileLoop.

Lemma spansBelow_mono m a b : spansBelow m a -> (a <= b)%nat -> spansBelow m b.
Proof. intros H Hab k Hk. specialize (H k Hk). lia. Qed.

Lemma spansBelow_empty n : spansBelow ∅ n.
Proof. intros k [x Hx]. rewrite lookup_empty in Hx. discriminate. Qed.

Lemma spansBelow_insert m k v n :
  spansBelow m n -> (k < n)%nat -> spansBelow (<[k := v]> m) n.
Proof.
  intros H Hk j Hj. destruct (decide (k = j)) as [<-|Hne]; [done|].
  rewrite lookup_insert_ne in Hj by done. by apply H.
Qed.

Lemma pushCell_length n c rowspan slots spans :
  length (pushCell n c rowspan slots spans).1 = (length slots + n)%nat.
Proof.
  revert slots spans. induction n as [|n IH]; intros slots spans; simpl; [lia|].
  rewrite IH, length_app. simpl. lia.
Qed.

Lemma pushCell_slots n c rowspan slots spans :
  (pushCell n c rowspan slots spans).1 = slots ++ replicate n (Some c).
Proof.
  revert slots spans. induction n as [|n IH]; intros slots spans; simpl.
  - by rewrite app_nil_r.
  - rewrite IH, <- app_assoc. done.
Qed.

Lemma pushCell_spansBelow n c rowspan slots spans :
  spansBelow spans (length slots) ->
  spansBelow (pushCell n c rowspan slots spans).2
             (length (pushCell n c rowspan slots spans).1).
Proof.
  revert slots spans.
  induction n as [|n IH]; intros slots spans H; cbn [pushCell]; [done|].
  apply IH. rewrite length_app. cbn [length].
  destruct (JS.gt rowspan (JS.Num 1)).
  - apply spansBelow_insert; [|lia]. eapply spansBelow_mono; [exact H|lia].
  - eapply spansBelow_mono; [exact H|lia].
Qed.

(** *** Numbers and arrays *)

Lemma toNumber_exact z : Z.abs z <= 2 ^ 53 -> JS.toNumber z = JS.Num z.
Proof.
  intros Hz. unfold JS.toNumber. cbv zeta.
  destruct (Z.leb_spec (Z.abs z) (2 ^ 53)); [done|lia].
Qed.

(** [i++] is exact as long as [i] is the index of an array. *)
Lemma add_one_exact k :
  0 <= k <= JS.maxArrayLength -> JS.add (JS.Num k) (JS.Num 1) = JS.Num (k + 1).
Proof.
  intros Hk. unfold JS.add, JS.maxArrayLength in *. apply toNumber_exact.
  change (2 ^ 53) with 9007199254740992. lia.
Qed.

Lemma push_Returns {A} (array array' : list A) (x : A) :
  JS.push array x = Returns array' <->
  Z.of_nat (length array) < JS.maxArrayLength /\ array' = array ++ [x].
Proof.
  unfold JS.push. destruct (Z.ltb_spec (Z.of_nat (length array)) JS.maxArrayLength).
  - split; [by intros [= <-]|by intros [_ ->]].
  - split; [done|]. intros [? _]. lia.
Qed.

Lemma push_not_OutOfFuel {A} (array : list A) (x : A) : JS.push array x <> OutOfFuel.
Proof. unfold JS.push. by destruct (_ <? _). Qed.

Lemma push_Raises {A} (array : list A) (x : A) e :
  JS.push array x = Raises e <->
  JS.maxArrayLength <= Z.of_nat (length array) /\ e = RangeError.
Proof.
  unfold JS.push. destruct (Z.ltb_spec (Z.of_nat (length array)) JS.maxArrayLength).
  - split; [done|]. intros [? _]. lia.
  - split; [by intros [= <-]|by intros [_ ->]].
Qed.

(** *** The loop over [colspan] *)

Lemma slotCount_Num z : slotCount (JS.Num z) = Z.to_nat z.
Proof. reflexivity. Qed.

Lemma slotCount_exhausted k colspan :
  0 <= k -> JS.lt (JS.Num k) colspan = false ->
  colspan <> JS.PosInf /\ (slotCount colspan - Z.to_nat k)%nat = O.
Proof.
  intros Hk Hlt. destruct colspan as [|z| |]; cbn in Hlt; try done.
  split; [done|]. apply Z.ltb_ge in Hlt. cbn [slotCount]. lia.
Qed.

Lemma slotCount_more k colspan :
  0 <= k -> JS.lt (JS.Num k) colspan = true -> colspan <> JS.PosInf ->
  (slotCount colspan - Z.to_nat k)%nat = S (slotCount colspan - Z.to_nat (k + 1)).
Proof.
  intros Hk Hlt Hfin. destruct colspan as [|z| |]; cbn in Hlt; try done.
  apply Z.ltb_lt in Hlt. cbn [slotCount]. lia.
Qed.

(** When the loop over [colspan] ends normally, [colspan] is finite, the
    cell was pushed once for every number from [i] to [colspan - 1], and the
    array took every one of them. *)
Lemma colspanLoop_returns fuel c rowspan colspan :
  forall k slots spans r,
    0 <= k <= Z.of_nat (length slots) ->
    colspanLoop fuel (JS.Num k) colspan c rowspan slots spans = Returns r ->
    colspan <> JS.PosInf
    /\ r = pushCell (slotCount colspan - Z.to_nat k) c rowspan slots spans
    /\ ((0 < slotCount colspan - Z.to_nat k)%nat ->
        Z.of_nat (length slots) + Z.of_nat (slotCount colspan - Z.to_nat k)
        <= JS.maxArrayLength).
Proof.
  assert (forall k slots spans r,
            0 <= k -> JS.lt (JS.Num k) colspan = false -> Returns (slots, spans) = Returns r ->
            colspan <> JS.PosInf
            /\ r = pushCell (slotCount colspan - Z.to_nat k) c rowspan slots spans
            /\ ((0 < slotCount colspan - Z.to_nat k)%nat ->
                Z.of_nat (length slots) + Z.of_nat (slotCount colspan - Z.to_nat k)
                <= JS.maxArrayLength)) as Hexit.
  { intros k slots spans r Hk Hlt [= <-].
    destruct (slotCount_exhausted k colspan Hk Hlt) as [Hfin ->].
    split; [done|]. split; [done|lia]. }
  induction fuel as [|fuel IH]; intros k slots spans r Hk; cbn [colspanLoop].
  - destruct (JS.lt (JS.Num k) colspan) eqn:Hlt; [done|]. apply Hexit; [lia|done].
  - destruct (JS.lt (JS.Num k) colspan) eqn:Hlt; [|apply Hexit; [lia|done]].
    destruct (JS.push slots (Some c)) as [slots'| |] eqn:Hpush; obind; [|done..].
    apply push_Returns in Hpush as [Hlen ->].
    rewrite add_one_exact by lia. intros Hloop.
    apply IH in Hloop as (Hfin & -> & Hbound); [|rewrite length_app; cbn [length]; lia].
    split; [done|].
    rewrite (slotCount_more k colspan) by (lia || done).
    split; [done|]. intros _. rewrite length_app in Hbound. cbn [length] in Hbound.
    destruct (decide (0 < slotCount colspan - Z.to_nat (k + 1))%nat) as [Hpos|Hzero]; [|lia].
    specialize (Hbound Hpos). lia.
Qed.

(** Fuel above what an array can still take is enough for the loop over
    [colspan] to end, normally or not. *)
Lemma colspanLoop_halts fuel c rowspan colspan :
  forall i slots spans,
    (Z.to_nat JS.maxArrayLength - length slots < fuel)%nat ->
    colspanLoop fuel i colspan c rowspan slots spans <> OutOfFuel.
Proof.
  induction fuel as [|fuel IH]; intros i slots spans Hfuel; [lia|].
  cbn [colspanLoop]. destruct (JS.lt i colspan); [|done].
  destruct (JS.push slots (Some c)) as [slots'|e|] eqn:Hpush; obind; [|done|].
  - apply push_Returns in Hpush as [Hlen ->]. cbn [mbind Outcome_bind outcome_bind].
    apply IH. rewrite length_app. cbn [length]. unfold JS.maxArrayLength in *. lia.
  - by apply push_not_OutOfFuel in Hpush.
Qed.

Lemma colspanLoop_fuel_mono fuel c rowspan colspan :
  forall fuel' i slots spans o,
    colspanLoop fuel i colspan c rowspan slots spans = o -> o <> OutOfFuel ->
    (fuel <= fuel')%nat ->
    colspanLoop fuel' i colspan c rowspan slots spans = o.
Proof.
  induction fuel as [|fuel IH]; intros fuel' i slots spans o; cbn [colspanLoop].
  - destruct (JS.lt i colspan) eqn:Hlt; [by intros <-|].
    intros <- _ _. destruct fuel'; cbn [colspanLoop]; by rewrite Hlt.
  - destruct (JS.lt i colspan) eqn:Hlt.
    + intros Ho Hne Hle. destruct fuel' as [|fuel']; [lia|]. cbn [colspanLoop]. rewrite Hlt.
      destruct (JS.push slots (Some c)) as [slots'|e|]; [|done..].
      cbn [mbind Outcome_bind outcome_bind] in *. apply IH; [done|done|lia].
    + intros <- _ _. destruct fuel'; cbn [colspanLoop]; by rewrite Hlt.
Qed.

(** *** One iteration of the [while] loop *)

Lemma loopBody_Step fuel prev st st' :
  loopBody fuel prev st = Returns st' -> Step prev st st'.
Proof.
  unfold loopBody.
  assert (Hchild :
    match children st with
    | c :: rest =>
        let colspan := JS.parseInt (JS.orString (getAttribute "colspan" c) "1") in
        let rowspan := JS.parseInt (JS.orString (getAttribute "rowspan" c) "1") in
        '(slots, spans) ←
          colspanLoop fuel (JS.Num 0) colspan c rowspan (curSlots st) (curRowspans st);
        Returns (mkRowState rest slots spans)
    | [] =>
        slots ← JS.push (curSlots st) None;
        Returns (mkRowState [] slots (curRowspans st))
    end = Returns st' -> Step prev st st').
  { destruct (children st) as [|c rest] eqn:Hch.
    - destruct (JS.push _ _) as [slots| |] eqn:Hpush; obind; [|done..].
      apply push_Returns in Hpush as [Hlen ->]. intros [= <-]. by apply StepNull.
    - cbv zeta. fold (spanOf "colspan" c). fold (spanOf "rowspan" c).
      destruct (colspanLoop _ _ _ _ _ _ _) as [[slots spans]| |] eqn:Hloop; obind; [|done..].
      intros [= <-].
      apply colspanLoop_returns in Hloop as (Hfin & Hr & Hbound); [|lia].
      rewrite Nat.sub_0_r in Hr, Hbound.
      replace slots with (slots, spans).1 by done.
      replace spans with (slots, spans).2 at 2 by done.
      rewrite Hr. by apply StepCell. }
  destruct (prev !! length (curSlots st)) as [rowSpan|] eqn:Hprev; [|exact Hchild].
  destruct (JS.gt (remaining rowSpan) (JS.Num 0)); [|exact Hchild].
  destruct (JS.push (curSlots st) (Some (cell rowSpan))) as [slots| |] eqn:Hpush; obind;
    [|done..].
  apply push_Returns in Hpush as [Hlen ->]. intros [= <-]. by apply StepSpan.
Qed.

Lemma loopBody_halts fuel prev st :
  (Z.to_nat JS.maxArrayLength < fuel)%nat -> loopBody fuel prev st <> OutOfFuel.
Proof.
  intros Hfuel. unfold loopBody.
  assert (Hchild :
    match children st with
    | c :: rest =>
        let colspan := JS.parseInt (JS.orString (getAttribute "colspan" c) "1") in
        let rowspan := JS.parseInt (JS.orString (getAttribute "rowspan" c) "1") in
        '(slots, spans) ←
          colspanLoop fuel (JS.Num 0) colspan c rowspan (curSlots st) (curRowspans st);
        Returns (mkRowState rest slots spans)
    | [] =>
        slots ← JS.push (curSlots st) None;
        Returns (mkRowState [] slots (curRowspans st))
    end <> OutOfFuel).
  { destruct (children st) as [|c rest].
    - destruct (JS.push _ _) as [slots| |] eqn:Hpush; obind; [done..|].
      by apply push_not_OutOfFuel in Hpush.
    - cbv zeta.
      destruct (colspanLoop _ _ _ _ _ _ _) as [[slots spans]| |] eqn:Hloop; obind; [done..|].
      apply colspanLoop_halts in Hloop; [done|lia]. }
  destruct (prev !! length (curSlots st)) as [rowSpan|]; [|exact Hchild].
  destruct (JS.gt (remaining rowSpan) (JS.Num 0)); [|exact Hchild].
  destruct (JS.push (curSlots st) (Some (cell rowSpan))) as [slots| |] eqn:Hpush; obind;
    [done..|].
  by apply push_not_OutOfFuel in Hpush.
Qed.

Lemma loopBody_fuel_mono fuel fuel' prev st o :
  loopBody fuel prev st = o -> o <> OutOfFuel -> (fuel <= fuel')%nat ->
  loopBody fuel' prev st = o.
Proof.
  unfold loopBody. intros Ho Hne Hle.
  assert (Hchild : forall o,
    match children st with
    | c :: rest =>
        let colspan := JS.parseInt (JS.orString (getAttribute "colspan" c) "1") in
        let rowspan := JS.parseInt (JS.orString (getAttribute "rowspan" c) "1") in
        '(slots, spans) ←
          colspanLoop fuel (JS.Num 0) colspan c rowspan (curSlots st) (curRowspans st);
        Returns (mkRowState rest slots spans)
    | [] =>
        slots ← JS.push (curSlots st) None;
        Returns (mkRowState [] slots (curRowspans st))
    end = o -> o <> OutOfFuel ->
    match children st with
    | c :: rest =>
        let colspan := JS.parseInt (JS.orString (getAttribute "colspan" c) "1") in
        let rowspan := JS.parseInt (JS.orString (getAttribute "rowspan" c) "1") in
        '(slots, spans) ←
          colspanLoop fuel' (JS.Num 0) colspan c rowspan (curSlots st) (curRowspans st);
        Returns (mkRowState rest slots spans)
    | [] =>
        slots ← JS.push (curSlots st) None;
        Returns (mkRowState [] slots (curRowspans st))
    end = o).
  { intros o'. destruct (children st) as [|c rest]; [done|]. cbv zeta.
    destruct (colspanLoop fuel _ _ _ _ _ _) as [[slots spans]|e|] eqn:Hloop; obind.
    - intros <- _. by rewrite (colspanLoop_fuel_mono _ _ _ _ _ _ _ _ _ Hloop).
    - intros <- _. by rewrite (colspanLoop_fuel_mono _ _ _ _ _ _ _ _ _ Hloop).
    - by intros <-. }
  destruct (prev !! length (curSlots st)) as [rowSpan|]; [|by apply Hchild].
  destruct (JS.gt (remaining rowSpan) (JS.Num 0)); [done|by apply Hchild].
Qed.

Lemma Step_measure prev M st st' :
  spansBelow prev M -> loopCond M st = true -> Step prev st st' ->
  (measure M st' < measure M st)%nat.
Proof.
  intros Hprev Hcond Hstep. unfold measure.
  destruct Hstep as [rowSpan Hget _|c rest Hch _ _|Hch _]; simpl.
  - assert (length (curSlots st) < M)%nat by (apply Hprev; eauto).
    rewrite length_app. simpl. lia.
  - rewrite Hch, pushCell_length. simpl. lia.
  - unfold loopCond in Hcond. rewrite Hch in Hcond.
    rewrite bool_decide_eq_true_2 in Hcond by done. simpl in Hcond.
    apply Nat.ltb_lt in Hcond. rewrite Hch, length_app. simpl. lia.
Qed.

Lemma Step_spansBelow prev st st' :
  spansBelow (curRowspans st) (length (curSlots st)) -> Step prev st st' ->
  spansBelow (curRowspans st') (length (curSlots st')).
Proof.
  intros Hcur Hstep.
  destruct Hstep as [rowSpan Hget _|c rest Hch _ _|Hch _]; simpl.
  - eapply spansBelow_mono; [exact Hcur|]. rewrite length_app. simpl. lia.
  - by apply pushCell_spansBelow.
  - eapply spansBelow_mono; [exact Hcur|]. rewrite length_app. simpl. lia.
Qed.

(** *** The [while] loop *)

(** What holds when the loop is left by its condition. *)
Lemma whileLoop_returns prev M fuel :
  forall st st',
    spansBelow (curRowspans st) (length (curSlots st)) ->
    whileLoop fuel prev M st = Returns st' ->
    loopCond M st' = false /\ spansBelow (curRowspans st') (length (curSlots st')).
Proof.
  induction fuel as [|fuel IH]; intros st st' Hcur; cbn [whileLoop].
  - destruct (loopCond M st) eqn:Hc; [done|]. by intros [= <-].
  - destruct (loopCond M st) eqn:Hc; [|by intros [= <-]].
    destruct (loopBody _ prev st) as [st1| |] eqn:Hbody; obind; [|done..].
    cbn [mbind Outcome_bind outcome_bind]. apply IH.
    eapply Step_spansBelow; [exact Hcur|]. by eapply loopBody_Step.
Qed.

(** With the keys of [prevRowspans] below [maxColumns], fuel above the
    measure and the largest length of an array is enough for the loop to
    end, by its condition or by an exception. *)
Lemma whileLoop_halts prev M :
  spansBelow prev M ->
  forall fuel st,
    spansBelow (curRowspans st) (length (curSlots st)) ->
    (measure M st + Z.to_nat JS.maxArrayLength < fuel)%nat ->
    whileLoop fuel prev M st <> OutOfFuel.
Proof.
  intros Hprev fuel. induction fuel as [|fuel IH]; intros st Hcur Hm; [lia|].
  cbn [whileLoop]. destruct (loopCond M st) eqn:Hc; [|done].
  destruct (loopBody _ prev st) as [st1|e|] eqn:Hbody; obind; [|done|].
  - cbn [mbind Outcome_bind outcome_bind].
    pose proof (loopBody_Step _ _ _ _ Hbody) as Hstep.
    apply IH.
    + eapply Step_spansBelow; eauto.
    + pose proof (Step_measure prev M st _ Hprev Hc Hstep). lia.
  - apply loopBody_halts in Hbody; [done|lia].
Qed.

Lemma whileLoop_fuel_mono prev M fuel :
  forall fuel' st o,
    whileLoop fuel prev M st = o -> o <> OutOfFuel -> (fuel <= fuel')%nat ->
    whileLoop fuel' prev M st = o.
Proof.
  induction fuel as [|fuel IH]; intros fuel' st o; cbn [whileLoop].
  - destruct (loopCond M st) eqn:Hc; [by intros <-|]. intros <- _ _.
    destruct fuel'; cbn [whileLoop]; by rewrite Hc.
  - destruct (loopCond M st) eqn:Hc.
    + intros Ho Hne Hle. destruct fuel' as [|fuel']; [lia|]. cbn [whileLoop]. rewrite Hc.
      destruct (loopBody (S fuel) prev st) as [st1|e|] eqn:Hbody; obind.
      * rewrite (loopBody_fuel_mono _ (S fuel') _ _ _ Hbody) by (done || lia).
        cbn [mbind Outcome_bind outcome_bind] in *. apply IH; [done|done|lia].
      * rewrite (loopBody_fuel_mono _ (S fuel') _ _ _ Hbody) by (done || lia). done.
      * by subst o.
    + intros <- _ _. destruct fuel'; cbn [whileLoop]; by rewrite Hc.
Qed.

Lemma mergeRowspans_spansBelow prev cur M N :
  spansBelow prev M -> spansBelow cur N -> (M <= N)%nat ->
  spansBelow (mergeRowspans prev cur) N.
Proof.
  intros Hprev Hcur Hle. unfold mergeRowspans. revert Hprev.
  apply (map_fold_weak_ind (fun acc m => spansBelow m M -> spansBelow acc N)).
  - done.
  - intros i x m acc Hi IH Hm.
    assert (i < M)%nat as HiM by (apply Hm; rewrite lookup_insert_eq; eauto).
    assert (spansBelow acc N) as Hacc.
    { apply IH. intros k Hk. apply Hm.
      destruct (decide (i = k)) as [<-|Hne]; [rewrite Hi in Hk; by destruct Hk|].
      by rewrite lookup_insert_ne. }
    destruct (_ && _); [|done].
    apply spansBelow_insert; [done|lia].
Qed.

(** *** The loop over the rows *)

Lemma processRow_fuel_mono fuel fuel' ms tr o :
  processRow fuel ms tr = o -> o <> OutOfFuel -> (fuel <= fuel')%nat ->
  processRow fuel' ms tr = o.
Proof.
  unfold processRow. intros Ho Hne Hle.
  destruct (whileLoop fuel _ _ _) as [st|e|] eqn:Hw; obind.
  - by rewrite (whileLoop_fuel_mono _ _ _ _ _ _ Hw).
  - by rewrite (whileLoop_fuel_mono _ _ _ _ _ _ Hw).
  - by subst o.
Qed.

Lemma mapRows_fuel_mono fuel fuel' trs :
  (fuel <= fuel')%nat ->
  forall ms o, mapRows fuel ms trs = o -> o <> OutOfFuel -> mapRows fuel' ms trs = o.
Proof.
  intros Hle. induction trs as [|tr rest IH]; intros ms o; cbn [mapRows]; [done|].
  destruct (processRow fuel ms tr) as [[row ms']|e|] eqn:Hrow; obind.
  - rewrite (processRow_fuel_mono _ _ _ _ _ Hrow) by done.
    cbn [mbind Outcome_bind outcome_bind].
    destruct (mapRows fuel ms' rest) as [[rows ms'']|e|] eqn:Hrest; obind.
    + by rewrite (IH _ _ Hrest).
    + by rewrite (IH _ _ Hrest).
    + by intros <-.
  - by rewrite (processRow_fuel_mono _ _ _ _ _ Hrow).
  - by intros <-.
Qed.

Lemma generateCellMatrix_fuel_mono fuel fuel' trs o :
  generateCellMatrix fuel trs = o -> o <> OutOfFuel -> (fuel <= fuel')%nat ->
  generateCellMatrix fuel' trs = o.
Proof.
  unfold generateCellMatrix. intros Ho Hne Hle.
  destruct (mapRows fuel _ trs) as [[slots ms]|e|] eqn:Hm; obind.
  - by rewrite (mapRows_fuel_mono _ _ _ Hle _ _ Hm).
  - by rewrite (mapRows_fuel_mono _ _ _ Hle _ _ Hm).
  - by subst o.
Qed.

(** The result does not depend on the fuel. *)
Lemma matrixOf_functional trs m1 m2 : matrixOf trs m1 -> matrixOf trs m2 -> m1 = m2.
Proof.
  intros [f1 H1] [f2 H2].
  apply (generateCellMatrix_fuel_mono _ (Nat.max f1 f2)) in H1; [|done|lia].
  apply (generateCellMatrix_fuel_mono _ (Nat.max f1 f2)) in H2; [|done|lia].
  congruence.
Qed.

Lemma processRow_returns fuel ms tr row ms' :
  spansBelow (prevRowspans ms) (maxColumns ms) ->
  processRow fuel ms tr = Returns (row, ms') ->
  spansBelow (prevRowspans ms') (maxColumns ms').
Proof.
  intros Hprev. unfold processRow.
  destruct (whileLoop fuel _ _ _) as [st| |] eqn:Hw; obind; [|done..].
  intros [= <- <-]. cbn [prevRowspans maxColumns].
  apply whileLoop_returns in Hw as [_ Hcur]; [|apply spansBelow_empty].
  eapply mergeRowspans_spansBelow; [exact Hprev| |lia].
  eapply spansBelow_mono; [exact Hcur|lia].
Qed.

Lemma processRow_halts fuel ms tr :
  spansBelow (prevRowspans ms) (maxColumns ms) ->
  (length (getChildren tr) + maxColumns ms + Z.to_nat JS.maxArrayLength < fuel)%nat ->
  processRow fuel ms tr <> OutOfFuel.
Proof.
  intros Hprev Hfuel. unfold processRow.
  set (cells := filter _ (getChildren tr)).
  destruct (whileLoop fuel _ _ _) as [st|e|] eqn:Hw; obind; [done..|].
  apply whileLoop_halts in Hw; [done|done|apply spansBelow_empty|].
  unfold measure. cbn [children curSlots length].
  assert (length cells <= length (getChildren tr))%nat by apply length_filter.
  lia.
Qed.

(** Some amount of fuel lets the loop over the rows end. *)
Lemma mapRows_halts trs :
  forall ms, spansBelow (prevRowspans ms) (maxColumns ms) ->
  exists fuel, mapRows fuel ms trs <> OutOfFuel.
Proof.
  induction trs as [|tr rest IH]; intros ms Hms; cbn [mapRows].
  - by exists O.
  - set (fuel1 := S (length (getChildren tr) + maxColumns ms + Z.to_nat JS.maxArrayLength)).
    assert (processRow fuel1 ms tr <> OutOfFuel) as Hrow
      by (apply processRow_halts; [done|unfold fuel1; lia]).
    destruct (processRow fuel1 ms tr) as [[row ms']|e|] eqn:Hrow1; obind; [| |done].
    + destruct (IH ms' (processRow_returns _ _ _ _ _ Hms Hrow1)) as [fuel2 Hrest].
      exists (Nat.max fuel1 fuel2).
      rewrite (processRow_fuel_mono _ (Nat.max fuel1 fuel2) _ _ _ Hrow1) by (done || lia).
      cbn [mbind Outcome_bind outcome_bind].
      destruct (mapRows fuel2 ms' rest) as [[rows ms'']|e|] eqn:Hrest2; obind; [| |done].
      * by rewrite (mapRows_fuel_mono fuel2 (Nat.max fuel1 fuel2) _ ltac:(lia) _ _ Hrest2).
      * by rewrite (mapRows_fuel_mono fuel2 (Nat.max fuel1 fuel2) _ ltac:(lia) _ _ Hrest2).
    + exists fuel1. by rewrite Hrow1.
Qed.

(** The running maximum after [trs.map] is the largest row built. *)
Lemma mapRows_maxColumns fuel trs :
  forall ms slots ms',
    mapRows fuel ms trs = Returns (slots, ms') ->
    maxColumns ms' = Nat.max (maxColumns ms) (max_list (length <$> slots)).
Proof.
  induction trs as [|tr rest IH]; intros ms slots ms'; cbn [mapRows].
  - intros [= <- <-]. simpl. lia.
  - unfold processRow at 1.
    destruct (whileLoop fuel _ _ _) as [st| |]; obind; [|done..].
    cbn [mbind Outcome_bind outcome_bind].
    destruct (mapRows fuel _ rest) as [[rows ms'']| |] eqn:Hrest; obind; [|done..].
    cbn [mbind Outcome_bind outcome_bind].
    intros [= <- <-]. rewrite (IH _ _ _ Hrest).
    cbn [maxColumns fmap list_fmap max_list]. unfold id. lia.
Qed.

(** The only exception is the [RangeError] of [push]. *)
Lemma colspanLoop_RangeError fuel c rowspan colspan e :
  forall i slots spans,
    colspanLoop fuel i colspan c rowspan slots spans = Raises e -> e = RangeError.
Proof.
  induction fuel as [|fuel IH]; intros i slots spans; cbn [colspanLoop].
  - by destruct (JS.lt i colspan).
  - destruct (JS.lt i colspan); [|done].
    destruct (JS.push slots (Some c)) as [slots'|e'|] eqn:Hpush; obind; [apply IH| |done].
    apply push_Raises in Hpush as [_ ->]. by intros [= <-].
Qed.

Lemma loopBody_RangeError fuel prev st e :
  loopBody fuel prev st = Raises e -> e = RangeError.
Proof.
  unfold loopBody.
  assert (Hchild :
    match children st with
    | c :: rest =>
        let colspan := JS.parseInt (JS.orString (getAttribute "colspan" c) "1") in
        let rowspan := JS.parseInt (JS.orString (getAttribute "rowspan" c) "1") in
        '(slots, spans) ←
          colspanLoop fuel (JS.Num 0) colspan c rowspan (curSlots st) (curRowspans st);
        Returns (mkRowState rest slots spans)
    | [] =>
        slots ← JS.push (curSlots st) None;
        Returns (mkRowState [] slots (curRowspans st))
    end = Raises e -> e = RangeError).
  { destruct (children st) as [|c rest].
    - destruct (JS.push (curSlots st) None) as [slots|e'|] eqn:Hpush; obind; [done| |done].
      apply push_Raises in Hpush as [_ ->]. by intros [= <-].
    - cbv zeta.
      destruct (colspanLoop _ _ _ _ _ _ _) as [[slots spans]|e'|] eqn:Hloop; obind;
        [done| |done].
      apply colspanLoop_RangeError in Hloop as ->. by intros [= <-]. }
  destruct (prev !! length (curSlots st)) as [rowSpan|]; [|exact Hchild].
  destruct (JS.gt (remaining rowSpan) (JS.Num 0)); [|exact Hchild].
  destruct (JS.push (curSlots st) (Some (cell rowSpan))) as [slots|e'|] eqn:Hpush; obind;
    [done| |done].
  apply push_Raises in Hpush as [_ ->]. by intros [= <-].
Qed.

Lemma whileLoop_RangeError fuel prev M e :
  forall st, whileLoop fuel prev M st = Raises e -> e = RangeError.
Proof.
  induction fuel as [|fuel IH]; intros st; cbn [whileLoop].
  - by destruct (loopCond M st).
  - destruct (loopCond M st); [|done].
    destruct (loopBody _ prev st) as [st1|e'|] eqn:Hbody; obind; [apply IH| |done].
    apply loopBody_RangeError in Hbody as ->. by intros [= <-].
Qed.

Lemma mapRows_RangeError fuel trs e :
  forall ms, mapRows fuel ms trs = Raises e -> e = RangeError.
Proof.
  induction trs as [|tr rest IH]; intros ms; cbn [mapRows]; [done|].
  unfold processRow at 1.
  destruct (whileLoop fuel _ _ _) as [st|e'|] eqn:Hw; obind; [| |done].
  - destruct (mapRows fuel _ rest) as [[rows ms'']|e'|] eqn:Hrest; obind; [done| |done].
    intros [= <-]. by apply IH in Hrest.
  - apply whileLoop_RangeError in Hw as ->. by intros [= <-].
Qed.

Lemma generateCellMatrix_RangeError fuel trs e :
  generateCellMatrix fuel trs = Raises e -> e = RangeError.
Proof.
  unfold generateCellMatrix.
  destruct (mapRows fuel _ trs) as [[slots ms]|e'|] eqn:Hmap; obind; [done| |done].
  apply mapRows_RangeError in Hmap as ->. by intros [= <-].
Qed.

Lemma loopCond_nil M slots spans :
  loopCond M (mkRowState [] slots spans) = (length slots <? M)%nat.
Proof. unfold loopCond. cbn [children curSlots]. by rewrite bool_decide_eq_true_2. Qed.

Lemma loopCond_cons M c cs slots spans :
  loopCond M (mkRowState (c :: cs) slots spans) = true.
Proof. unfold loopCond. cbn [children curSlots]. by rewrite bool_decide_eq_false_2. Qed.

Lemma padRow_length M (row : list (option ViewItem)) :
  (length row <= M)%nat -> length (padRow M row) = M.
Proof. intros H. unfold padRow. rewrite length_app, length_replicate. lia. Qed.

End WhileLoop.

(** ** The cell matrix *)

Section Matrix.

Import Examples.

Example parseInt_values :
  JS.parseInt "2" = JS.Num 2 /\ JS.parseInt "0" = JS.Num 0
  /\ JS.parseInt "-3" = JS.Num (-3) /\ JS.parseInt " 4px" = JS.Num 4
  /\ JS.parseInt "0x1F" = JS.Num 31
  /\ JS.parseInt "wide" = JS.NaN /\ JS.parseInt "" = JS.NaN.
Proof. repeat split; reflexivity. Qed.

(** Above 2^53 the integer read is rounded to a double, ties to even; 400
    digits are beyond the largest double. *)
Example parseInt_doubles :
  JS.parseInt "9007199254740993" = JS.Num 9007199254740992
  /\ JS.parseInt "9007199254740995" = JS.Num 9007199254740996
  /\ JS.parseInt "4294967296" = JS.Num 4294967296
  /\ JS.parseInt (nines 400) = JS.PosInf
  /\ JS.parseInt (String "-" (nines 400)) = JS.NegInf.
Proof. repeat split; vm_compute; reflexivity. Qed.

(** The example of the comment above [generateCellMatrix] in the source. *)
Example docRows_matrix :
  (m ← generateCellMatrix 3 docRows; Returns (map (map (option_map path)) m))
  = Returns [ [Some [O; O; O]; Some [O; O; 1%nat]; Some [O; O; 2%nat]];
              [Some [O; 1%nat; O]; None; Some [O; O; 2%nat]];
              [Some [O; 2%nat; O]; None; None] ].
Proof. vm_compute. reflexivity. Qed.

(** Zero, negative and non-numeric spans: such a [colspan] gives the cell
    no slot at all, such a [rowspan] spans nothing. *)
Example oddRows_matrix :
  (m ← generateCellMatrix 8 oddRows; Returns (map (map (option_map path)) m))
  = Returns [ [Some [O; O; 3%nat]; Some [O; O; 4%nat]; Some [O; O; 4%nat]];
              [Some [O; 1%nat; O]; None; None] ].
Proof. vm_compute. reflexivity. Qed.

Lemma loopBody_progress fuel prev st st' :
  loopBody fuel prev st = Returns st' ->
  (exists c, children st = c :: children st')
  \/ (children st' = children st
      /\ length (curSlots st') = S (length (curSlots st))).
Proof.
  intros Hbody.
  destruct (loopBody_Step _ _ _ _ Hbody) as [rowSpan Hget _|c rest Hch _ _|Hch _]; simpl.
  - right. split; [done|]. rewrite length_app. simpl. lia.
  - left. by exists c.
  - right. split; [done|]. rewrite length_app. simpl. lia.
Qed.

Lemma generateCellMatrix_ends trs : exists fuel, generateCellMatrix fuel trs <> OutOfFuel.
Proof.
  destruct (mapRows_halts trs (mkMapState ∅ O)) as [fuel H].
  - apply spansBelow_empty.
  - exists fuel. unfold generateCellMatrix.
    by destruct (mapRows fuel _ trs) as [[slots ms]|e|].
Qed.

(** *** Rows that an array can hold *)

Lemma expandCells_cons c cs : expandCells (c :: cs) = ownSlots c ++ expandCells cs.
Proof. reflexivity. Qed.

Lemma ownSlots_length c : length (ownSlots c) = slotCount (spanOf "colspan" c).
Proof. unfold ownSlots. by rewrite length_replicate. Qed.

(** With a finite [colspan] and room in the array for the slots that are
    still to come, no [push] of the loop over [colspan] is refused. *)
Lemma colspanLoop_no_raise fuel c rowspan colspan e :
  colspan <> JS.PosInf ->
  forall k slots spans,
    0 <= k <= Z.of_nat (length slots) ->
    Z.of_nat (length slots) + Z.of_nat (slotCount colspan - Z.to_nat k) <= JS.maxArrayLength ->
    colspanLoop fuel (JS.Num k) colspan c rowspan slots spans <> Raises e.
Proof.
  intros Hfin. induction fuel as [|fuel IH]; intros k slots spans Hk Hroom; cbn [colspanLoop].
  - by destruct (JS.lt (JS.Num k) colspan).
  - destruct (JS.lt (JS.Num k) colspan) eqn:Hlt; [|done].
    rewrite (slotCount_more k colspan) in Hroom by (lia || done).
    destruct (JS.push slots (Some c)) as [slots'|e'|] eqn:Hpush; obind.
    + apply push_Returns in Hpush as [Hlen ->]. rewrite add_one_exact by lia.
      apply IH; rewrite length_app; cbn [length]; lia.
    + apply push_Raises in Hpush as [Hlen _]. lia.
    + by apply push_not_OutOfFuel in Hpush.
Qed.

Lemma Step_fitsIn prev M T st st' :
  spansBelow prev M -> loopCond M st = true -> fitsIn M T st -> Step prev st st' ->
  fitsIn M T st'.
Proof.
  intros Hprev Hcond (Hlen & Hrest & Hfin) Hstep. unfold fitsIn.
  destruct Hstep as [rowSpan Hget _|c rest Hch _ _|Hch _]; cbn [children curSlots].
  - assert (length (curSlots st) < M)%nat by (apply Hprev; eauto).
    rewrite length_app. cbn [length]. split; [lia|done].
  - rewrite Hch in Hlen, Hrest, Hfin. rewrite expandCells_cons, length_app in Hlen, Hrest.
    rewrite ownSlots_length in Hlen, Hrest. rewrite pushCell_length.
    split; [lia|]. split; [lia|]. by inversion Hfin.
  - unfold loopCond in Hcond. rewrite Hch in Hcond.
    rewrite bool_decide_eq_true_2 in Hcond by done. cbn in Hcond.
    apply Nat.ltb_lt in Hcond. rewrite length_app. cbn. split; [lia|]. split; [lia|done].
Qed.

Lemma loopBody_no_raise fuel prev M T st e :
  spansBelow prev M -> loopCond M st = true -> fitsIn M T st ->
  Z.of_nat (M + T) <= JS.maxArrayLength ->
  loopBody fuel prev st <> Raises e.
Proof.
  intros Hprev Hcond (Hlen & Hrest & Hfin) Hroom. unfold loopBody.
  assert (Hchild :
    match children st with
    | c :: rest =>
        let colspan := JS.parseInt (JS.orString (getAttribute "colspan" c) "1") in
        let rowspan := JS.parseInt (JS.orString (getAttribute "rowspan" c) "1") in
        '(slots, spans) ←
          colspanLoop fuel (JS.Num 0) colspan c rowspan (curSlots st) (curRowspans st);
        Returns (mkRowState rest slots spans)
    | [] =>
        slots ← JS.push (curSlots st) None;
        Returns (mkRowState [] slots (curRowspans st))
    end <> Raises e).
  { destruct (children st) as [|c rest] eqn:Hch.
    - unfold loopCond in Hcond. rewrite Hch in Hcond.
      rewrite bool_decide_eq_true_2 in Hcond by done. cbn in Hcond.
      apply Nat.ltb_lt in Hcond.
      destruct (JS.push (curSlots st) None) as [slots|e'|] eqn:Hpush; obind; [done| |done].
      apply push_Raises in Hpush as [Hfull _]. lia.
    - cbv zeta. fold (spanOf "colspan" c). fold (spanOf "rowspan" c).
      rewrite expandCells_cons, length_app, ownSlots_length in Hlen.
      destruct (colspanLoop _ _ _ _ _ _ _) as [[slots spans]|e'|] eqn:Hloop; obind;
        [done| |done].
      apply colspanLoop_no_raise in Hloop; [done|by inversion Hfin|lia|].
      rewrite Nat.sub_0_r. lia. }
  destruct (prev !! length (curSlots st)) as [rowSpan|] eqn:Hget; [|exact Hchild].
  destruct (JS.gt (remaining rowSpan) (JS.Num 0)); [|exact Hchild].
  assert (length (curSlots st) < M)%nat by (apply Hprev; eauto).
  destruct (JS.push (curSlots st) (Some (cell rowSpan))) as [slots|e'|] eqn:Hpush; obind;
    [done| |done].
  apply push_Raises in Hpush as [Hfull _]. lia.
Qed.

Lemma whileLoop_no_raise fuel prev M T e :
  spansBelow prev M ->
  Z.of_nat (M + T) <= JS.maxArrayLength ->
  forall st, fitsIn M T st -> whileLoop fuel prev M st <> Raises e.
Proof.
  intros Hprev Hroom. induction fuel as [|fuel IH]; intros st Hfits; cbn [whileLoop].
  - by destruct (loopCond M st).
  - destruct (loopCond M st) eqn:Hcond; [|done].
    destruct (loopBody _ prev st) as [st1|e'|] eqn:Hbody; obind; [| |done].
    + apply IH. eapply Step_fitsIn; eauto. by eapply loopBody_Step.
    + by apply (loopBody_no_raise _ _ M T) in Hbody.
Qed.

Lemma whileLoop_fitsIn fuel prev M T :
  spansBelow prev M ->
  forall st st', fitsIn M T st -> whileLoop fuel prev M st = Returns st' -> fitsIn M T st'.
Proof.
  intros Hprev. induction fuel as [|fuel IH]; intros st st' Hfits; cbn [whileLoop].
  - destruct (loopCond M st); [done|]. by intros [= <-].
  - destruct (loopCond M st) eqn:Hcond; [|by intros [= <-]].
    destruct (loopBody _ prev st) as [st1| |] eqn:Hbody; obind; [|done..].
    apply IH. eapply Step_fitsIn; eauto. by eapply loopBody_Step.
Qed.

Lemma rowCells_fitsIn M tr :
  Forall (fun c => spanOf "colspan" c <> JS.PosInf) (rowCells tr) ->
  fitsIn M (length (expandRow tr)) (mkRowState (rowCells tr) [] ∅).
Proof. intros Hfin. unfold fitsIn, expandRow. cbn [children curSlots length]. by split; [lia|]. Qed.

Lemma processRow_no_raise fuel ms tr e :
  spansBelow (prevRowspans ms) (maxColumns ms) ->
  Forall (fun c => spanOf "colspan" c <> JS.PosInf) (rowCells tr) ->
  Z.of_nat (maxColumns ms + length (expandRow tr)) <= JS.maxArrayLength ->
  processRow fuel ms tr <> Raises e.
Proof.
  intros Hprev Hfin Hroom. unfold processRow. fold (rowCells tr).
  destruct (whileLoop fuel _ _ _) as [st|e'|] eqn:Hw; obind; [done| |done].
  by apply (whileLoop_no_raise _ _ _ (length (expandRow tr))) in Hw;
    [|done|done|apply rowCells_fitsIn].
Qed.

Lemma processRow_maxColumns fuel ms tr row ms' :
  spansBelow (prevRowspans ms) (maxColumns ms) ->
  Forall (fun c => spanOf "colspan" c <> JS.PosInf) (rowCells tr) ->
  processRow fuel ms tr = Returns (row, ms') ->
  (maxColumns ms' <= maxColumns ms + length (expandRow tr))%nat.
Proof.
  intros Hprev Hfin. unfold processRow. fold (rowCells tr).
  destruct (whileLoop fuel _ _ _) as [st| |] eqn:Hw; obind; [|done..].
  intros [= <- <-]. cbn [maxColumns].
  apply (whileLoop_fitsIn _ _ _ (length (expandRow tr))) in Hw as (Hlen & _);
    [|done|by apply rowCells_fitsIn].
  lia.
Qed.

Lemma mapRows_no_raise fuel trs e :
  (forall tr c, tr ∈ trs -> c ∈ rowCells tr -> spanOf "colspan" c <> JS.PosInf) ->
  forall ms,
    spansBelow (prevRowspans ms) (maxColumns ms) ->
    Z.of_nat (maxColumns ms + totalSlots trs) <= JS.maxArrayLength ->
    mapRows fuel ms trs <> Raises e.
Proof.
  induction trs as [|tr trs IH]; intros Hfin ms Hprev Hroom; cbn [mapRows]; [done|].
  assert (Forall (fun c => spanOf "colspan" c <> JS.PosInf) (rowCells tr)) as Hrow.
  { apply list.Forall_forall. intros c Hc. apply (Hfin tr); [left|done]. }
  change (totalSlots (tr :: trs)) with (length (expandRow tr) + totalSlots trs)%nat in Hroom.
  destruct (processRow fuel ms tr) as [[row ms']|e'|] eqn:Hproc; obind.
  - pose proof (processRow_maxColumns _ _ _ _ _ Hprev Hrow Hproc) as Hmax.
    pose proof (processRow_returns _ _ _ _ _ Hprev Hproc) as Hprev'.
    destruct (mapRows fuel ms' trs) as [[rows ms'']|e'|] eqn:Hrest; obind; [done| |done].
    intros [= <-]. apply IH in Hrest; [done| |done|lia].
    intros tr' c Htr'. apply Hfin. by right.
  - apply processRow_no_raise in Hproc; [done|done|done|lia].
  - done.
Qed.

Lemma generateCellMatrix_returns trs :
  (forall tr c, tr ∈ trs -> c ∈ rowCells tr -> spanOf "colspan" c <> JS.PosInf) ->
  Z.of_nat (totalSlots trs) <= JS.maxArrayLength ->
  exists fuel m, generateCellMatrix fuel trs = Returns m.
Proof.
  intros Hfin Hroom. destruct (generateCellMatrix_ends trs) as [fuel Hends].
  exists fuel. unfold generateCellMatrix in *.
  destruct (mapRows fuel _ trs) as [[slots ms]|e|] eqn:Hmap; obind.
  - by eexists.
  - apply mapRows_no_raise in Hmap; [done|done|apply spansBelow_empty|].
    cbn [maxColumns]. lia.
  - done.
Qed.

(** C10, amended. [generateCellMatrix] ends on every array of [<tr>]
    elements, whatever the [rowspan] and [colspan] attributes hold (zero,
    negative and non-numeric strings included): some amount of fuel is
    enough for every loop.  It ends by returning the matrix whenever no
    [colspan] is infinite and the slots that the cells of all the rows take
    are no more than an array can hold; short of that, a [push] may be
    refused and end it with [RangeError].  An iteration of the [while] loop
    that completes either takes one cell off the remaining children of the
    row or adds one slot to the row. *)
Theorem generateCellMatrix_halts :
  forall trs : list ViewItem,
    (exists fuel, generateCellMatrix fuel trs <> OutOfFuel)
    /\ ((forall tr c, tr ∈ trs -> c ∈ rowCells tr -> spanOf "colspan" c <> JS.PosInf) ->
        Z.of_nat (totalSlots trs) <= JS.maxArrayLength ->
        exists fuel m, generateCellMatrix fuel trs = Returns m)
    /\ (forall fuel prev st st',
          loopBody fuel prev st = Returns st' ->
          (exists c, children st = c :: children st')
          \/ (children st' = children st
              /\ length (curSlots st') = S (length (curSlots st)))).
Proof.
  intros trs. split; [apply generateCellMatrix_ends|].
  split; [apply generateCellMatrix_returns|apply loopBody_progress].
Qed.

(** C10, amended, at the rows with spans that are zero, negative or not
    numbers. *)
Lemma generateCellMatrix_halts_witness :
  exists fuel m, generateCellMatrix fuel oddRows = Returns m.
Proof.
  apply (proj1 (proj2 (generateCellMatrix_halts oddRows))).
  - assert (Forall (fun tr => Forall (fun c => spanOf "colspan" c <> JS.PosInf) (rowCells tr))
                   oddRows) as Hall
      by (apply (bool_decide_unpack _); vm_compute; exact I).
    intros tr c Htr Hc. rewrite list.Forall_forall in Hall.
    specialize (Hall tr Htr). rewrite list.Forall_forall in Hall. exact (Hall c Hc).
  - vm_compute. discriminate.
Defined.

(** C10, as stated: on a row with one cell whose [colspan] is 2^32, more
    than an array can hold, no amount of fuel lets the function return: the
    condition of the loop over [colspan] never becomes false, the loop is
    ended by the [RangeError] of [push]. *)
Lemma generateCellMatrix_huge_colspan_never_returns :
  (forall fuel m, generateCellMatrix fuel hugeColspanRows <> Returns m)
  /\ exists fuel, generateCellMatrix fuel hugeColspanRows = Raises RangeError.
Proof.
  assert (forall fuel m, generateCellMatrix fuel hugeColspanRows <> Returns m) as Hnever.
  { intros fuel m. unfold generateCellMatrix, hugeColspanRows. cbn [mapRows].
    unfold processRow at 1. fold (rowCells hugeRow).
    assert (rowCells hugeRow = [hugeCell]) as -> by (vm_compute; reflexivity).
    cbn [prevRowspans maxColumns].
    destruct (whileLoop fuel _ _ _) as [st| |] eqn:Hw; obind; [|done..].
    exfalso. destruct fuel as [|fuel]; [done|]. cbn [whileLoop] in Hw.
    rewrite loopCond_cons in Hw.
    destruct (loopBody _ _ _) as [st1| |] eqn:Hbody; obind; [|done..].
    apply loopBody_Step in Hbody. cbn [children curSlots curRowspans] in Hbody.
    inversion Hbody as [rowSpan Hget _|c rest Hch _ Hbound|Hch _].
    - by rewrite lookup_empty in Hget.
    - cbn [children curSlots length] in Hch, Hbound. injection Hch as <- <-.
      assert (spanOf "colspan" hugeCell = JS.Num 4294967296) as Hspan
        by (vm_compute; reflexivity).
      rewrite Hspan, slotCount_Num in Hbound.
      unfold JS.maxArrayLength in Hbound. lia.
    - done. }
  split; [exact Hnever|].
  destruct (generateCellMatrix_ends hugeColspanRows) as [fuel Hends]. exists fuel.
  specialize (Hnever fuel).
  destruct (generateCellMatrix fuel hugeColspanRows) as [m|e|] eqn:Hrun;
    [by destruct (Hnever m)| |done].
  by apply generateCellMatrix_RangeError in Hrun as ->.
Qed.

Lemma mapRows_length fuel trs :
  forall ms slots ms', mapRows fuel ms trs = Returns (slots, ms') -> length slots = length trs.
Proof.
  induction trs as [|tr rest IH]; intros ms slots ms'; cbn [mapRows].
  - by intros [= <- <-].
  - destruct (processRow fuel ms tr) as [[row ms1]| |]; obind; [|done..].
    destruct (mapRows fuel ms1 rest) as [[rows ms2]| |] eqn:Hrest; obind; [|done..].
    intros [= <- <-]. simpl. f_equal. eauto.
Qed.

(** C8. The matrix returned by [generateCellMatrix] is rectangular: every
    row has the length of the longest row built by the loop over the rows,
    and it is the row as built followed by empty slots. *)
Theorem generateCellMatrix_rectangular (fuel : nat) (trs : list ViewItem)
    (m : list (list (option ViewItem))) :
  generateCellMatrix fuel trs = Returns m ->
  exists built ms,
    mapRows fuel (mkMapState ∅ O) trs = Returns (built, ms)
    /\ maxColumns ms = max_list (length <$> built)
    /\ length m = length trs
    /\ Forall (fun rowSlots => length rowSlots = max_list (length <$> built)) m
    /\ Forall2 (fun b rowSlots =>
                  rowSlots = b ++ replicate (max_list (length <$> built) - length b) None)
               built m.
Proof.
  unfold generateCellMatrix. intros H.
  destruct (mapRows fuel _ trs) as [[built ms]| |] eqn:Hm; obind; [|done..].
  injection H as <-.
  pose proof (mapRows_maxColumns _ _ _ _ _ Hm) as HM. simpl in HM.
  exists built, ms. split; [done|]. split; [done|]. split; [|split].
  - rewrite length_map. eapply mapRows_length; eauto.
  - rewrite Forall_map. apply Forall_forall. intros b Hb. rewrite HM.
    apply padRow_length. apply max_list_elem_of_le.
    apply list_elem_of_fmap. exists b. split; [done|]. by apply list_elem_of_In.
  - rewrite HM. apply Forall2_fmap_r, Forall_Forall2_diag, Forall_forall.
    by intros b _.
Qed.

(** C8, at the table of two rows with a row-spanning second cell. *)
Lemma generateCellMatrix_rectangular_witness :
  generateCellMatrix 3 spanRows = Returns spanMatrixNullThird
  /\ exists built ms,
       mapRows 3 (mkMapState ∅ O) spanRows = Returns (built, ms)
       /\ maxColumns ms = max_list (length <$> built)
       /\ length spanMatrixNullThird = length spanRows
       /\ Forall (fun rowSlots => length rowSlots = max_list (length <$> built))
                 spanMatrixNullThird
       /\ Forall2 (fun b rowSlots =>
                     rowSlots = b ++ replicate (max_list (length <$> built) - length b) None)
                  built spanMatrixNullThird.
Proof.
  split; [vm_compute; reflexivity|].
  apply (generateCellMatrix_rectangular 3 spanRows spanMatrixNullThird).
  vm_compute. reflexivity.
Defined.

(** C2, amended. For one [<tbody>] whose first row is
    [td, td rowspan=2, td] and whose second row is [td],
    [generateCellMatrix] returns [[td, td, td], [td, td, null]]: in the
    second row the row-spanning cell of the first row occupies the second
    slot, and the missing cell is the [null] of the third slot. *)
Theorem spanRows_matrix : matrixOf spanRows spanMatrixNullThird.
Proof. exists 3%nat. vm_compute. reflexivity. Qed.

(** C2, as stated: the matrix with [null] in the second slot of the second
    row and the row-spanning cell in the third is not what
    [generateCellMatrix] returns on that input. *)
Lemma spanRows_matrix_not_null_second : ~ matrixOf spanRows spanMatrixNullSecond.
Proof.
  intros H.
  assert (matrixOf spanRows spanMatrixNullThird) as H'
    by (exists 3%nat; vm_compute; reflexivity).
  pose proof (matrixOf_functional _ _ _ H H') as Heq.
  unfold spanMatrixNullSecond, spanMatrixNullThird in Heq.
  discriminate Heq.
Qed.

End Matrix.

(** ** The table scanner *)

Section Scanner.

Import Examples.

Lemma getChildren_paths (it : ViewItem) :
  path <$> getChildren it = (fun k => path it ++ [k]) <$> seq 0 (length (childNodes it)).
Proof.
  unfold getChildren. rewrite fmap_imap.
  rewrite <- (imap_seq_0 (childNodes it) (fun k => path it ++ [k])).
  by apply imap_ext.
Qed.

Lemma getChildren_NoDup (it : ViewItem) : NoDup (path <$> getChildren it).
Proof.
  rewrite getChildren_paths. apply NoDup_fmap_2; [|apply NoDup_seq].
  intros a b H. apply app_inv_head in H. by injection H.
Qed.

Lemma scanTr_firstThead tableChild st tr :
  firstTheadElement (scanTr tableChild st tr) = firstTheadElement st.
Proof. unfold scanTr. by destruct (isHeadingTr _ _ _). Qed.

(** The loop over the rows of one section. *)
Lemma scanTr_fold tableChild trs :
  forall st,
    fold_left (scanTr tableChild) trs st
    = mkScanState
        (headingRowsAcc st
         + length (filter (fun tr => isHeadingTr (firstTheadElement st) tableChild tr = true) trs))
        (headRows st
         ++ filter (fun tr => isHeadingTr (firstTheadElement st) tableChild tr = true) trs)
        (bodyRows st
         ++ filter (fun tr => isHeadingTr (firstTheadElement st) tableChild tr <> true) trs)
        (firstTheadElement st).
Proof.
  induction trs as [|tr trs IH]; intros st; simpl.
  - rewrite !app_nil_r, Nat.add_0_r. by destruct st.
  - rewrite IH, scanTr_firstThead, !filter_cons. unfold scanTr.
    destruct (isHeadingTr (firstTheadElement st) tableChild tr) eqn:Hh; simpl.
    + f_equal; [lia|]. by rewrite <- app_assoc.
    + f_equal. by rewrite <- app_assoc.
Qed.

Lemma filter_pair_snd (Q : ViewItem * ViewItem -> Prop) `{!forall p, Decision (Q p)}
    (sec : ViewItem) (trs : list ViewItem) :
  snd <$> filter Q (pair sec <$> trs) = filter (fun tr => Q (sec, tr)) trs.
Proof.
  induction trs as [|tr trs IH]; [done|].
  rewrite fmap_cons, !filter_cons.
  destruct (decide (Q (sec, tr))); rewrite ?fmap_cons, IH; done.
Qed.

Lemma filter_pair_length (Q : ViewItem * ViewItem -> Prop) `{!forall p, Decision (Q p)}
    (sec : ViewItem) (trs : list ViewItem) :
  length (filter Q (pair sec <$> trs)) = length (filter (fun tr => Q (sec, tr)) trs).
Proof. by rewrite <- filter_pair_snd, length_fmap. Qed.

Lemma allTh_eq tr :
  allTh tr
  = negb (bool_decide (length (getChildren tr) = O)) && forallb (isElement "th") (getChildren tr).
Proof. unfold allTh. by destruct (getChildren tr). Qed.

Lemma skip_isSection tableChild :
  bool_decide (name tableChild ≠ Some "tbody")
  && bool_decide (name tableChild ≠ Some "thead")
  && bool_decide (name tableChild ≠ Some "tfoot")
  = negb (isSection tableChild).
Proof.
  unfold isSection. rewrite !bool_decide_not.
  by destruct (bool_decide (name tableChild = Some "tbody")),
              (bool_decide (name tableChild = Some "thead")),
              (bool_decide (name tableChild = Some "tfoot")).
Qed.

Lemma scanSection_eq st tableChild :
  let F1 := theadAt (firstTheadElement st) tableChild in
  let trs := if isSection tableChild then trsOf tableChild else [] in
  scanSection st tableChild
  = mkScanState
      (headingRowsAcc st + length (filter (fun tr => isHeadingTr F1 tableChild tr = true) trs))
      (headRows st ++ filter (fun tr => isHeadingTr F1 tableChild tr = true) trs)
      (bodyRows st ++ filter (fun tr => isHeadingTr F1 tableChild tr <> true) trs)
      (if isSection tableChild then F1 else firstTheadElement st).
Proof.
  intros F1 trs. unfold scanSection. rewrite skip_isSection.
  subst F1 trs. destruct (isSection tableChild) eqn:Hsec; simpl.
  - rewrite scanTr_fold. unfold trsOf, theadAt.
    destruct (firstTheadElement st) as [f|] eqn:HF.
    + rewrite (bool_decide_eq_true_2 (is_Some (Some f))) by eauto.
      rewrite andb_false_r. by rewrite HF.
    + rewrite (bool_decide_eq_false_2 (is_Some None)) by (by intros [? ?]).
      rewrite andb_true_r.
      destruct (bool_decide (name tableChild = Some "thead")); simpl; [done|].
      by rewrite HF.
  - rewrite !filter_nil, !app_nil_r, Nat.add_0_r. by destruct st.
Qed.

Lemma firstTheadOf_elem cs f :
  firstTheadOf cs = Some f -> f ∈ cs /\ name f = Some "thead".
Proof.
  induction cs as [|c cs IH]; simpl; [done|].
  destruct (bool_decide (name c = Some "thead")) eqn:Hc.
  - intros [= <-]. apply bool_decide_eq_true in Hc. split; [left|done].
  - intros H. destruct (IH H). split; [by right|done].
Qed.

Lemma thead_isSection c : name c = Some "thead" -> isSection c = true.
Proof.
  intros H. unfold isSection. rewrite (bool_decide_eq_true_2 (name c = Some "thead")) by done.
  by rewrite orb_true_r.
Qed.

Lemma resolveThead_step F sec cs :
  resolveThead (if isSection sec then theadAt F sec else F) cs
  = resolveThead F (sec :: cs).
Proof.
  unfold resolveThead, theadAt. destruct F as [f|]; simpl.
  - by destruct (isSection sec).
  - destruct (bool_decide (name sec = Some "thead")) eqn:Hth.
    + apply bool_decide_eq_true in Hth. by rewrite thead_isSection.
    + by destruct (isSection sec).
Qed.

Lemma isHeadingTr_headingRow F sec cs tr :
  path sec ∉ path <$> cs ->
  isHeadingTr (theadAt F sec) sec tr = headingRow (resolveThead F (sec :: cs)) (sec, tr).
Proof.
  intros Hnotin. unfold isHeadingTr, headingRow, tbodyAllTh. simpl.
  rewrite allTh_eq, andb_assoc. f_equal.
  unfold theadAt, resolveThead, inSection, same. simpl.
  destruct F as [f|]; [done|].
  destruct (bool_decide (name sec = Some "thead")); [done|].
  destruct (firstTheadOf cs) as [g|] eqn:Hg; [|done].
  symmetry. apply bool_decide_eq_false_2. intros Heq.
  apply Hnotin. rewrite Heq. apply list_elem_of_fmap_2.
  by apply firstTheadOf_elem.
Qed.

(** The loop over the sections, in terms of the rows in document order. *)
Lemma scanSection_fold cs :
  NoDup (path <$> cs) ->
  forall st,
    fold_left scanSection cs st
    = mkScanState
        (headingRowsAcc st
         + length (filter (fun p => headingRow (resolveThead (firstTheadElement st) cs) p = true)
                          (sectionRowsOf cs)))
        (headRows st
         ++ (snd <$> filter (fun p => headingRow (resolveThead (firstTheadElement st) cs) p = true)
                            (sectionRowsOf cs)))
        (bodyRows st
         ++ (snd <$> filter (fun p => headingRow (resolveThead (firstTheadElement st) cs) p <> true)
                            (sectionRowsOf cs)))
        (resolveThead (firstTheadElement st) cs).
Proof.
  induction cs as [|sec cs IH]; intros Hnd st.
  - simpl. rewrite !app_nil_r, Nat.add_0_r. destruct st as [a h b F]. simpl.
    by destruct F.
  - rewrite fmap_cons in Hnd.
    pose proof (NoDup_cons_1_1 _ _ Hnd) as Hnotin. apply NoDup_cons_1_2 in Hnd.
    cbn [fold_left]. rewrite (IH Hnd), scanSection_eq.
    cbn [headingRowsAcc headRows bodyRows firstTheadElement].
    rewrite resolveThead_step.
    set (ft := resolveThead (firstTheadElement st) (sec :: cs)).
    cbn [sectionRowsOf]. rewrite !list.filter_app, !fmap_app, !length_app.
    destruct (isSection sec) eqn:Hsec.
    + rewrite !filter_pair_snd, !filter_pair_length.
      rewrite (list_filter_iff
                 (fun tr => isHeadingTr (theadAt (firstTheadElement st) sec) sec tr = true)
                 (fun tr => headingRow ft (sec, tr) = true))
        by (intros tr; by rewrite (isHeadingTr_headingRow _ _ cs)).
      rewrite (list_filter_iff
                 (fun tr => isHeadingTr (theadAt (firstTheadElement st) sec) sec tr <> true)
                 (fun tr => headingRow ft (sec, tr) <> true))
        by (intros tr; by rewrite (isHeadingTr_headingRow _ _ cs)).
      f_equal; [lia|by rewrite app_assoc|by rewrite app_assoc].
    + rewrite !filter_nil. simpl. rewrite !app_nil_r, Nat.add_0_r. done.
Qed.

Lemma NoDup_path_inj cs a b :
  NoDup (path <$> cs) -> a ∈ cs -> b ∈ cs -> path a = path b -> a = b.
Proof.
  induction cs as [|c cs IH]; intros Hnd Ha Hb Hp; [by apply elem_of_nil in Ha|].
  rewrite fmap_cons in Hnd.
  pose proof (NoDup_cons_1_1 _ _ Hnd) as Hnotin. apply NoDup_cons_1_2 in Hnd.
  apply elem_of_cons in Ha as [->|Ha]; apply elem_of_cons in Hb as [->|Hb].
  - done.
  - exfalso. apply Hnotin. rewrite Hp. by apply list_elem_of_fmap_2.
  - exfalso. apply Hnotin. rewrite <- Hp. by apply list_elem_of_fmap_2.
  - by apply IH.
Qed.

Lemma sectionRowsOf_section cs p : p ∈ sectionRowsOf cs -> p.1 ∈ cs /\ isSection p.1 = true.
Proof.
  induction cs as [|c cs IH]; simpl; [by intros ?%elem_of_nil|].
  intros [Hp|Hp]%elem_of_app.
  - destruct (isSection c) eqn:Hc; [|by apply elem_of_nil in Hp].
    apply list_elem_of_fmap in Hp as (tr & -> & _). simpl. split; [left|done].
  - destruct (IH Hp). split; [by right|done].
Qed.

Lemma filter_none {A} (P : A -> Prop) `{!forall x, Decision (P x)} (l : list A) :
  (forall x, x ∈ l -> ~ P x) -> filter P l = [].
Proof.
  induction l as [|x l IH]; intros Hall; [done|].
  rewrite filter_cons_False by (apply Hall; left).
  apply IH. intros y Hy. apply Hall. by right.
Qed.

Lemma filter_all {A} (P : A -> Prop) `{!forall x, Decision (P x)} (l : list A) :
  (forall x, x ∈ l -> P x) -> filter P l = l.
Proof.
  induction l as [|x l IH]; intros Hall; [done|].
  rewrite filter_cons_True by (apply Hall; left).
  f_equal. apply IH. intros y Hy. apply Hall. by right.
Qed.

Lemma filter_orb_length {A} (f g : A -> bool) (l : list A) :
  (forall x, x ∈ l -> f x = true -> g x = false) ->
  length (filter (fun x => f x || g x = true) l)
  = (length (filter (fun x => f x = true) l) + length (filter (fun x => g x = true) l))%nat.
Proof.
  induction l as [|x l IH]; intros Hall; [done|].
  assert (Hx : f x = true -> g x = false) by (apply Hall; left).
  assert (IHl := IH (fun y Hy => Hall y (list_elem_of_further _ _ _ Hy))).
  rewrite !filter_cons.
  destruct (f x) eqn:Hf, (g x) eqn:Hg; simpl in *;
    repeat case_decide; simpl; try done; try lia.
Qed.

(** The rows that lie in the section [f] are the rows of [f]. *)
Lemma inSection_rows cs f :
  NoDup (path <$> cs) -> f ∈ cs -> isSection f = true ->
  filter (fun p => inSection (Some f) p = true) (sectionRowsOf cs) = pair f <$> trsOf f.
Proof.
  induction cs as [|c cs IH]; intros Hnd Hf Hsec; [by apply elem_of_nil in Hf|].
  rewrite fmap_cons in Hnd.
  pose proof (NoDup_cons_1_1 _ _ Hnd) as Hnotin. apply NoDup_cons_1_2 in Hnd.
  cbn [sectionRowsOf]. rewrite list.filter_app.
  apply elem_of_cons in Hf as [->|Hf].
  - rewrite Hsec. rewrite filter_all, filter_none; [by rewrite app_nil_r| |].
    + intros p Hp. apply sectionRowsOf_section in Hp as [Hp _].
      unfold inSection. rewrite bool_decide_eq_true. intros Heq.
      apply Hnotin. rewrite <- Heq. by apply list_elem_of_fmap_2.
    + intros p (tr & -> & _)%list_elem_of_fmap. unfold inSection. simpl.
      by apply bool_decide_eq_true_2.
  - rewrite filter_none, IH; [done..|].
    intros p Hp. unfold inSection. rewrite bool_decide_eq_true. intros Heq.
    destruct (isSection c); [|by apply elem_of_nil in Hp].
    apply list_elem_of_fmap in Hp as (tr & -> & _). simpl in Heq.
    apply Hnotin. rewrite Heq. by apply list_elem_of_fmap_2.
Qed.

Lemma headingRows_count viewTable :
  length (filter (fun p => headingRow (firstThead viewTable) p = true) (sectionRows viewTable))
  = (length (firstTheadRows viewTable)
     + length (filter (fun p => tbodyAllTh p = true) (sectionRows viewTable)))%nat.
Proof.
  unfold headingRow, firstTheadRows, sectionRows, firstThead.
  pose proof (getChildren_NoDup viewTable) as Hnd.
  rewrite filter_orb_length.
  - f_equal. destruct (firstTheadOf (getChildren viewTable)) as [f|] eqn:Hf.
    + apply firstTheadOf_elem in Hf as [Hin Hname].
      rewrite inSection_rows by (try apply thead_isSection; done).
      by rewrite length_fmap.
    + by rewrite filter_none.
  - intros p Hp. apply sectionRowsOf_section in Hp as [Hp _].
    destruct (firstTheadOf (getChildren viewTable)) as [f|] eqn:Hf; [|done].
    apply firstTheadOf_elem in Hf as [Hin Hname].
    unfold inSection. rewrite bool_decide_eq_true. intros Heq.
    assert (p.1 = f) as Hpf by (by apply (NoDup_path_inj (getChildren viewTable))).
    unfold tbodyAllTh. rewrite Hpf, bool_decide_eq_false_2; [done|].
    rewrite Hname. by intros [=].
Qed.

(** C3, amended. [scanTable] takes a [<tr>] for a heading row exactly when
    it belongs to the first [<thead>] met (the rows of a later [<thead>]
    are body rows) or it is a [<tbody>] row with at least one child, all of
    whose children are [<th>] elements; the rows returned are the heading
    rows followed by the body rows, each group in source document order;
    [headingRows] is the number of heading rows.  So a [<thead>] that comes
    after a [<tbody>] still has its rows listed first, and [headingRows] is
    the number of rows of the first [<thead>] plus the number of [<tbody>]
    rows made of [<th>] cells only. *)
Theorem scanTable_rows (fuel : nat) (viewTable : ViewItem) (r : ScanResult) :
  scanTable fuel viewTable = Returns r ->
  rows r
  = (snd <$> filter (fun p => headingRow (firstThead viewTable) p = true)
                    (sectionRows viewTable))
    ++ (snd <$> filter (fun p => headingRow (firstThead viewTable) p <> true)
                       (sectionRows viewTable))
  /\ headingRows r
     = length (filter (fun p => headingRow (firstThead viewTable) p = true)
                      (sectionRows viewTable))
  /\ headingRows r
     = (length (firstTheadRows viewTable)
        + length (filter (fun p => tbodyAllTh p = true) (sectionRows viewTable)))%nat.
Proof.
  unfold scanTable, scanSections.
  rewrite (scanSection_fold _ (getChildren_NoDup viewTable)).
  cbn [headingRowsAcc headRows bodyRows firstTheadElement resolveThead].
  destruct (generateCellMatrix fuel _) as [bodyMatrix| |]; obind; [|done..].
  intros [= <-]. cbn [rows headingRows]. fold (firstThead viewTable).
  fold (sectionRows viewTable). rewrite <- headingRows_count.
  done.
Qed.

(** C3, amended, at the table of the comment in [scanTable]. *)
Lemma scanTable_rows_witness :
  scanTable 1 theadInTheMiddle
  = Returns (mkScanResult 1 O
            [ mkItem [1%nat; O] (tr [td ∅]); mkItem [O; O] (tr [td ∅]);
              mkItem [2%nat; O] (tr [td ∅]) ])
  /\ ([ mkItem [1%nat; O] (tr [td ∅]); mkItem [O; O] (tr [td ∅]);
        mkItem [2%nat; O] (tr [td ∅]) ]
      = (snd <$> filter (fun p => headingRow (firstThead theadInTheMiddle) p = true)
                        (sectionRows theadInTheMiddle))
        ++ (snd <$> filter (fun p => headingRow (firstThead theadInTheMiddle) p <> true)
                           (sectionRows theadInTheMiddle))
      /\ 1%nat
         = length (filter (fun p => headingRow (firstThead theadInTheMiddle) p = true)
                          (sectionRows theadInTheMiddle))
      /\ 1%nat
         = (length (firstTheadRows theadInTheMiddle)
            + length (filter (fun p => tbodyAllTh p = true) (sectionRows theadInTheMiddle)))%nat).
Proof.
  split; [vm_compute; reflexivity|].
  apply (scanTable_rows 1 theadInTheMiddle
           (mkScanResult 1 O
              [ mkItem [1%nat; O] (tr [td ∅]); mkItem [O; O] (tr [td ∅]);
                mkItem [2%nat; O] (tr [td ∅]) ])).
  vm_compute. reflexivity.
Defined.

(** C3, as stated: with a [<tbody>] row made of [<th>] cells only, a
    [<thead>] after that [<tbody>] does not give a [headingRows] equal to
    the number of rows of the [<thead>]. *)
Lemma scanTable_headingRows_not_thead_count :
  exists r, scanTable 1 theadAfterThTbody = Returns r
            /\ headingRows r = 2%nat
            /\ length (firstTheadRows theadAfterThTbody) = 1%nat
            /\ headingRows r <> length (firstTheadRows theadAfterThTbody).
Proof.
  eexists. split; [vm_compute; reflexivity|].
  split; [reflexivity|]. split; [vm_compute; reflexivity|].
  vm_compute. discriminate.
Qed.

Lemma foldr_min_acc a h ns :
  foldr Nat.min (Nat.min a h) ns = Nat.min a (foldr Nat.min h ns).
Proof. induction ns as [|n ns IH]; simpl; [done|]. rewrite IH. lia. Qed.

Lemma updateHeadingColumns_positive matrix :
  Forall (fun rowSlots => (0 < leadingTh rowSlots)%nat) matrix ->
  forall h, (0 < h)%nat ->
    fold_left updateHeadingColumns matrix (Some h)
    = Some (foldr Nat.min h (leadingTh <$> matrix)).
Proof.
  induction 1 as [|rowSlots matrix Hrow _ IH]; intros h Hh; [done|].
  cbn [fold_left fmap list_fmap foldr]. unfold updateHeadingColumns at 2.
  destruct h as [|h]; [lia|]. cbn [notTruthy default orb]. unfold id.
  destruct (Nat.ltb_spec (leadingTh rowSlots) (S h)); lazy beta iota.
  - rewrite IH by done. rewrite <- foldr_min_acc. f_equal. f_equal. lia.
  - rewrite IH by lia. rewrite <- foldr_min_acc. f_equal. f_equal. lia.
Qed.

(** As long as every row of the body matrix starts with a [<th>], the loop
    over the matrix does compute the minimum. *)
Lemma headingColumns_minimum_when_positive matrix :
  Forall (fun rowSlots => (0 < leadingTh rowSlots)%nat) matrix ->
  default O (fold_left updateHeadingColumns matrix None) = minLeadingTh matrix.
Proof.
  intros Hall. unfold minLeadingTh. destruct Hall as [|rowSlots matrix Hrow Hall]; [done|].
  cbn [fold_left fmap list_fmap]. unfold updateHeadingColumns at 2. cbn [notTruthy orb].
  by rewrite updateHeadingColumns_positive.
Qed.

(** C1. On a table whose first body row starts with a [<td>] and whose
    second body row starts with a [<th>], the rows of the body matrix have
    0 and 1 leading [<th>] slots, so the minimum is 0; [scanTable] returns
    [headingColumns = 1]: a row without a leading [<th>] does not force 0
    when a later row has one. *)
Theorem scanTable_headingColumns_after_td_row :
  exists m r,
    generateCellMatrix 2 (bodyRows (scanSections tdRowThenThRow)) = Returns m
    /\ leadingTh <$> m = [O; 1%nat]
    /\ minLeadingTh m = O
    /\ scanTable 2 tdRowThenThRow = Returns r
    /\ headingColumns r = 1%nat.
Proof.
  eexists _, _. split; [vm_compute; reflexivity|].
  split; [vm_compute; reflexivity|]. split; [vm_compute; reflexivity|].
  split; [vm_compute; reflexivity|]. reflexivity.
Qed.

End Scanner.

(** ** The listeners *)

Section Listeners.

Import Examples.

Lemma run_call {S A X : Type} (env : Env S) (c : Call X) (k : X -> Prog A) (s : S) :
  run env (call c ≫= k) s
  = let '(x, s1) := env _ c s in
    let '(a, s2, evs) := run env (k x) s1 in
    (a, s2, Called c x :: evs).
Proof. reflexivity. Qed.

Lemma run_bind {S A B : Type} (env : Env S) (p : Prog A) (f : A -> Prog B) (s : S) :
  run env (p ≫= f) s
  = let '(a, s1, evs1) := run env p s in
    let '(b, s2, evs2) := run env (f a) s1 in
    (b, s2, evs1 ++ evs2).
Proof.
  revert s. induction p as [a|X c k IH]; intros s.
  - change (run env (mret a ≫= f) s) with (run env (f a) s). simpl.
    by destruct (run env (f a) s) as [[b s2] evs2].
  - change (run env (Do c k ≫= f) s)
      with (let '(x, s1) := env _ c s in
            let '(b, s2, evs) := run env (k x ≫= f) s1 in
            (b, s2, Called c x :: evs)).
    simpl. destruct (env X c s) as [x s1]. rewrite IH.
    destruct (run env (k x) s1) as [[a s2] evs1].
    by destruct (run env (f a) s2) as [[b s3] evs2].
Qed.

Lemma run_call_last {S X : Type} (env : Env S) (c : Call X) (s : S) :
  run env (call c) s = let '(x, s1) := env _ c s in (x, s1, [Called c x]).
Proof. unfold call. simpl. by destruct (env X c s). Qed.

Lemma run_ret {S A : Type} (env : Env S) (a : A) (s : S) : run env (mret a) s = (a, s, []).
Proof. reflexivity. Qed.

Lemma consumableRevert_is_Some c item d k :
  is_Some (c !! k) -> is_Some (consumableRevert c item d !! k).
Proof.
  intros Hk. induction d as [|b d IH]; simpl; [done|].
  by apply lookup_alter_is_Some.
Qed.

Lemma consumableRevert_lookup c item d a :
  a ∈ d -> is_Some (c !! (item, a)) -> consumableRevert c item d !! (item, a) = Some true.
Proof.
  intros Ha Hsome. induction d as [|b d IH]; [by apply elem_of_nil in Ha|]. simpl.
  destruct (decide (b = a)) as [->|Hne].
  - rewrite lookup_alter_eq.
    destruct (consumableRevert_is_Some c item d _ Hsome) as [v ->]. done.
  - rewrite lookup_alter_ne by congruence.
    apply IH. apply elem_of_cons in Ha as [->|Ha]; done.
Qed.

Lemma consumableTest_available c item d :
  (forall a, a ∈ d -> c !! (item, a) = Some true) -> consumableTest c item d = Some true.
Proof.
  induction d as [|b d IH]; intros Hall; simpl; [done|].
  rewrite (Hall b) by left. apply IH. intros a Ha. apply Hall. by right.
Qed.

(** Reverting registered aspects makes them test available. *)
Lemma consumableTest_revert c item d :
  (forall a, a ∈ d -> is_Some (c !! (item, a))) ->
  consumableTest (consumableRevert c item d) item d = Some true.
Proof.
  intros Hreg. apply consumableTest_available. intros a Ha.
  apply consumableRevert_lookup; [done|]. by apply Hreg.
Qed.

Lemma truthy_Some_true v : truthy v = true -> v = Some true.
Proof. by destruct v as [[]|]. Qed.

Section WithEngine.

Variable ext : Externals.

(** C7. The guard stops the event exactly when the [<tr>] is empty and
    the index of the model cursor is 0: then no later listener runs and
    nothing but the stop flag of the event changes.  In every other case, an
    empty [<tr>] met at a cursor of index above 0 included, the guard does
    not stop the event and the later listeners convert the row as they would
    without the guard. *)
Theorem skipEmptyTableRow_stops (rest : list (Data -> Prog Data)) (data : Data)
    (s : ConvState) :
  (isEmpty (viewItem data) = true -> index (modelCursor data) = O ->
     trace (specEnv ext) (skipEmptyTableRow data) s = [Called EvtStop tt]
     /\ fire ext (skipEmptyTableRow :: rest) data s
        = (data, mkConvState (consumables s) (elements s) (nextId s) true))
  /\ (isEmpty (viewItem data) = false \/ index (modelCursor data) <> O ->
        trace (specEnv ext) (skipEmptyTableRow data) s = []
        /\ fire ext (skipEmptyTableRow :: rest) data s = fire ext rest data s).
Proof.
  split.
  - intros Hempty Hindex. unfold trace, fire. cbn [callListeners].
    unfold skipEmptyTableRow. rewrite Hempty, Hindex. simpl. done.
  - intros Hnot. unfold trace, fire. cbn [callListeners]. unfold skipEmptyTableRow.
    assert (isEmpty (viewItem data) && bool_decide (index (modelCursor data) = O) = false)
      as ->.
    { destruct Hnot as [->|Hne]; [done|].
      rewrite (bool_decide_eq_false_2 _ Hne). apply andb_false_r. }
    simpl. done.
Qed.

Lemma upcastTable_run_safeInsert_fails (fuel : nat) (data : Data) (s : ConvState)
    (scan : ScanResult) :
  truthy (consumableTest (consumables s) (path (viewItem data)) [AName]) = true ->
  scanTable fuel (viewItem data) = Returns scan ->
  schemaAllows ext (createElement "table" (tableAttributes scan) s).2 (nextId s)
               (modelCursor data) = false ->
  run (specEnv ext) (upcastTable fuel data) s
  = (Returns data, (createElement "table" (tableAttributes scan) s).2,
     [ Called (ConsumableTest (viewItem data) [AName])
              (consumableTest (consumables s) (path (viewItem data)) [AName]);
       Called (WriterCreateElement "table" (tableAttributes scan)) (nextId s);
       Called (SafeInsert (nextId s) (modelCursor data)) false ]).
Proof.
  intros Htest Hscan Hschema. unfold upcastTable.
  rewrite run_call. cbn [specEnv]. rewrite Htest, Hscan. cbn [negb].
  rewrite run_bind. unfold upcastScanned.
  rewrite run_call. cbn [specEnv]. unfold createElement at 1.
  rewrite run_call. cbn [specEnv]. unfold safeInsert.
  unfold createElement in Hschema. cbn [snd] in Hschema. rewrite Hschema.
  reflexivity.
Qed.

(** C4. When [safeInsert] of the new model table at the model cursor fails,
    the listener on [element:table] returns at once: it has only tested the
    consumable, created the (detached) element and tried [safeInsert]; the
    [data] of the event is unchanged, the consumables are as before, so the
    name of the view [<table>] is still available, every element of the
    model is as before, and no [consume], [convertItem], [convertChildren]
    or [insert] was called. *)
Theorem upcastTable_safeInsert_fails (fuel : nat) (data : Data) (s : ConvState)
    (scan : ScanResult) :
  truthy (consumableTest (consumables s) (path (viewItem data)) [AName]) = true ->
  scanTable fuel (viewItem data) = Returns scan ->
  schemaAllows ext (createElement "table" (tableAttributes scan) s).2 (nextId s)
               (modelCursor data) = false ->
  result (specEnv ext) (upcastTable fuel data) s = Returns data
  /\ trace (specEnv ext) (upcastTable fuel data) s
     = [ Called (ConsumableTest (viewItem data) [AName])
                (consumableTest (consumables s) (path (viewItem data)) [AName]);
         Called (WriterCreateElement "table" (tableAttributes scan)) (nextId s);
         Called (SafeInsert (nextId s) (modelCursor data)) false ]
  /\ consumables (final (specEnv ext) (upcastTable fuel data) s) = consumables s
  /\ truthy (consumableTest (consumables (final (specEnv ext) (upcastTable fuel data) s))
                            (path (viewItem data)) [AName]) = true
  /\ (forall e, e <> nextId s ->
        elements (final (specEnv ext) (upcastTable fuel data) s) e = elements s e)
  /\ (forall e, nextId s ∉ echildren (elements s e) ->
        nextId s ∉ echildren (elements (final (specEnv ext) (upcastTable fuel data) s) e)).
Proof.
  intros Htest Hscan Hschema. unfold result, final, trace.
  rewrite (upcastTable_run_safeInsert_fails _ _ _ _ Htest Hscan Hschema).
  cbn [fst snd createElement consumables elements].
  split; [done|]. split; [done|]. split; [done|]. split; [done|]. split.
  - intros e He. by rewrite fn_lookup_insert_ne.
  - intros e He. destruct (decide (nextId s = e)) as [<-|Hne].
    + rewrite fn_lookup_insert. simpl. apply not_elem_of_nil.
    + by rewrite fn_lookup_insert_ne.
Qed.

(** X15. The listener on [element:figure] does nothing but test the
    consumable (the result, the consumables and the model are unchanged, so
    the figure stays unconsumed) when the figure does not test available for
    [{ name, classes: 'table' }], or has no [<table>] child, or has one whose
    name does not test available.  When it has consumed the figure and the
    conversion of the inner [<table>] answers with a range that holds no
    item, it calls [revert] on the figure and returns; the figure then tests
    available again for [{ name, classes: 'table' }], its aspects being
    still registered.  When the conversion answers with no range at all
    ([null]), the listener is ended by a [TypeError] right after
    [convertItem]: nothing is reverted, and the state is left as
    [convertItem] left it. *)
Theorem upcastTableFigure_guards_and_revert (data : Data) (s : ConvState) :
  (truthy (consumableTest (consumables s) (path (viewItem data)) figureDescriptor) = false
   \/ getViewTableFromFigure (viewItem data) = None
   \/ (exists viewTable,
         getViewTableFromFigure (viewItem data) = Some viewTable
         /\ truthy (consumableTest (consumables s) (path viewTable) [AName]) = false) ->
   result (specEnv ext) (upcastTableFigure data) s = Returns data
   /\ final (specEnv ext) (upcastTableFigure data) s = s
   /\ Forall isTest (trace (specEnv ext) (upcastTableFigure data) s))
  /\ (forall viewTable,
        truthy (consumableTest (consumables s) (path (viewItem data)) figureDescriptor) = true ->
        getViewTableFromFigure (viewItem data) = Some viewTable ->
        truthy (consumableTest (consumables s) (path viewTable) [AName]) = true ->
        let s1 :=
          mkConvState
            (consumableConsume (consumables s) (path (viewItem data)) figureDescriptor).2
            (elements s) (nextId s) (stopped s) in
        let converted := convertItemImpl ext viewTable (modelCursor data) s1 in
        (resultRange converted.1 = Some [] ->
         (forall a, a ∈ figureDescriptor ->
            is_Some (consumables converted.2 !! (path (viewItem data), a))) ->
         result (specEnv ext) (upcastTableFigure data) s = Returns data
         /\ trace (specEnv ext) (upcastTableFigure data) s
            = [ Called (ConsumableTest (viewItem data) figureDescriptor) (Some true);
                Called (ConsumableTest viewTable [AName]) (Some true);
                Called (ConsumableConsume (viewItem data) figureDescriptor) true;
                Called (ConvertItem viewTable (modelCursor data)) converted.1;
                Called (ConsumableRevert (viewItem data) figureDescriptor) tt ]
         /\ consumables (final (specEnv ext) (upcastTableFigure data) s)
            = consumableRevert (consumables converted.2) (path (viewItem data))
                               figureDescriptor
         /\ consumableTest (consumables (final (specEnv ext) (upcastTableFigure data) s))
                           (path (viewItem data)) figureDescriptor = Some true)
        /\ (resultRange converted.1 = None ->
            result (specEnv ext) (upcastTableFigure data) s = Raises TypeError
            /\ trace (specEnv ext) (upcastTableFigure data) s
               = [ Called (ConsumableTest (viewItem data) figureDescriptor) (Some true);
                   Called (ConsumableTest viewTable [AName]) (Some true);
                   Called (ConsumableConsume (viewItem data) figureDescriptor) true;
                   Called (ConvertItem viewTable (modelCursor data)) converted.1 ]
            /\ final (specEnv ext) (upcastTableFigure data) s = converted.2)).
Proof.
  split.
  - intros Hcase. unfold result, final, trace, upcastTableFigure.
    rewrite run_call. cbn [specEnv].
    destruct (truthy (consumableTest (consumables s) (path (viewItem data)) figureDescriptor))
      eqn:Hfig; cbn [negb].
    + destruct Hcase as [Hcase|[Hnone|(viewTable & Hsome & Htable)]]; [done| |].
      * rewrite Hnone. cbn. repeat split. by repeat constructor.
      * rewrite Hsome, run_call. cbn [specEnv]. rewrite Htable. cbn.
        repeat split. by repeat constructor.
    + cbn. repeat split. by repeat constructor.
  - intros viewTable Hfig Hsome Htable s1 converted.
    assert (forall range,
              resultRange converted.1 = range ->
              run (specEnv ext) (upcastTableFigure data) s
              = let '(x, s2, evs) :=
                  run (specEnv ext)
                    match range with
                    | None => mret (Raises TypeError)
                    | Some items =>
                        match head items with
                        | None =>
                            _ ← call (ConsumableRevert (viewItem data) figureDescriptor);
                            mret (Returns data)
                        | Some modelTable =>
                            pos ← call (WriterCreatePositionAt modelTable AtEnd);
                            _ ← call (ConvertChildren (viewItem data) pos);
                            data' ← call (UpdateConversionResult modelTable data);
                            mret (Returns data')
                        end
                    end converted.2 in
                (x, s2,
                 Called (ConsumableTest (viewItem data) figureDescriptor) (Some true)
                 :: Called (ConsumableTest viewTable [AName]) (Some true)
                 :: Called (ConsumableConsume (viewItem data) figureDescriptor) true
                 :: Called (ConvertItem viewTable (modelCursor data)) converted.1 :: evs))
      as Hrun.
    { intros range Hrange. unfold upcastTableFigure.
      rewrite run_call. cbn [specEnv]. rewrite Hfig. cbn [negb]. rewrite Hsome.
      rewrite run_call. cbn [specEnv]. rewrite Htable. cbn [negb].
      apply truthy_Some_true in Hfig, Htable. rewrite Hfig, Htable.
      rewrite run_call. cbn [specEnv].
      subst converted s1. unfold consumableConsume in *. rewrite Hfig in *.
      rewrite bool_decide_eq_true_2 in * by done. cbn [snd] in *.
      rewrite run_call. cbn [specEnv].
      destruct (convertItemImpl ext viewTable (modelCursor data) _) as [res s2].
      cbn [fst snd] in *. rewrite Hrange.
      by destruct (run (specEnv ext) _ s2) as [[x s3] evs]. }
    split.
    + intros Hempty Hreg. unfold result, final, trace. rewrite (Hrun _ Hempty).
      cbn [head]. rewrite run_call. cbn [specEnv]. rewrite run_ret.
      cbn [fst snd consumables].
      split; [done|]. split; [done|]. split; [done|].
      by apply consumableTest_revert.
    + intros Hnull. unfold result, final, trace. rewrite (Hrun _ Hnull).
      by rewrite run_ret.
Qed.

Lemma fillEmptyTable_nonempty (table : nat) (s : ConvState) :
  echildren (elements s table) <> [] -> final (specEnv ext) (fillEmptyTable table) s = s.
Proof.
  intros Hne. unfold final, fillEmptyTable. rewrite run_call. cbn [specEnv].
  unfold elementIsEmpty. by rewrite bool_decide_eq_false_2.
Qed.

Lemma fillEmptyTable_final (table : nat) (s : ConvState) :
  (table < nextId s)%nat ->
  echildren (elements s table) = [] ->
  final (specEnv ext) (fillEmptyTable table) s
  = mkConvState
      (consumables s)
      (<[nextId s := mkElement "tableRow" ∅ [S (nextId s)]]>
         (<[S (nextId s) := mkElement "tableCell" ∅ []]>
            (<[table := mkElement (ename (elements s table)) (eattrs (elements s table))
                                  [nextId s]]>
               (<[nextId s := mkElement "tableRow" ∅ []]> (elements s)))))
      (S (S (nextId s))) (stopped s).
Proof.
  intros Hlt Hempty. unfold final, fillEmptyTable. rewrite run_call. cbn [specEnv].
  unfold elementIsEmpty. rewrite bool_decide_eq_true_2 by done.
  rewrite run_call. cbn [specEnv createElement].
  rewrite run_call. cbn [specEnv createPositionAt elements].
  rewrite (fn_lookup_insert_ne _ (nextId s) table) by lia. rewrite Hempty. cbn [length].
  rewrite run_call. cbn [specEnv]. unfold writerInsert.
  cbn [elements consumables nextId stopped parent].
  rewrite run_call. cbn [specEnv createPositionAt elements].
  rewrite (fn_lookup_insert_ne _ table (nextId s)) by lia.
  rewrite (fn_lookup_insert _ (nextId s)). cbn [echildren length].
  rewrite run_call. cbn [specEnv]. unfold createEmptyTableCell, createElement, writerInsert.
  cbn [elements consumables nextId stopped parent].
  rewrite run_ret. cbn [fst snd].
  unfold insertChild. cbn [index take drop app].
  rewrite (fn_lookup_insert_ne _ (nextId s) table) by lia.
  rewrite (fn_lookup_insert_ne _ (S (nextId s)) (nextId s)) by lia.
  rewrite (fn_lookup_insert_ne _ table (nextId s)) by lia.
  rewrite (fn_lookup_insert _ (nextId s)).
  cbn [ename eattrs echildren take drop app]. by rewrite Hempty.
Qed.

Lemma fillEmptyTable_empty (table : nat) (s : ConvState) :
  (table < nextId s)%nat ->
  echildren (elements s table) = [] ->
  echildren (elements (final (specEnv ext) (fillEmptyTable table) s) table) = [nextId s]
  /\ elements (final (specEnv ext) (fillEmptyTable table) s) (nextId s)
     = mkElement "tableRow" ∅ [S (nextId s)]
  /\ elements (final (specEnv ext) (fillEmptyTable table) s) (S (nextId s))
     = mkElement "tableCell" ∅ [].
Proof.
  intros Hlt Hempty. rewrite (fillEmptyTable_final _ _ Hlt Hempty). cbn [elements].
  repeat split.
  - rewrite (fn_lookup_insert_ne _ (nextId s) table) by lia.
    rewrite (fn_lookup_insert_ne _ (S (nextId s)) table) by lia.
    by rewrite fn_lookup_insert.
  - by rewrite fn_lookup_insert.
  - rewrite (fn_lookup_insert_ne _ (nextId s) (S (nextId s))) by lia.
    by rewrite fn_lookup_insert.
Qed.

Lemma forEachRow_nextId (table : nat) (rows : list ViewItem) :
  (forall item pos s0, (nextId s0 <= nextId (convertItemImpl ext item pos s0).2)%nat) ->
  forall s, (nextId s <= nextId (final (specEnv ext) (forEachRow table rows) s))%nat.
Proof.
  intros Hconv. induction rows as [|row rows IH]; intros s; [done|].
  unfold final. cbn [forEachRow]. rewrite run_call. cbn [specEnv].
  rewrite run_call. cbn [specEnv].
  pose proof (Hconv row (createPositionAt table AtEnd s) s) as Hrow.
  destruct (convertItemImpl ext row (createPositionAt table AtEnd s) s) as [res s1].
  specialize (IH s1). unfold final in IH.
  destruct (run (specEnv ext) (forEachRow table rows) s1) as [[u s2] evs]. simpl in *. lia.
Qed.

Lemma convertContent_nextId (viewTable : ViewItem) (table : nat) (rows : list ViewItem) :
  (forall item pos s0, (nextId s0 <= nextId (convertItemImpl ext item pos s0).2)%nat) ->
  (forall item pos s0, (nextId s0 <= nextId (convertChildrenImpl ext item pos s0).2)%nat) ->
  forall s, (nextId s <= nextId (final (specEnv ext) (convertContent viewTable table rows) s))%nat.
Proof.
  intros HconvItem HconvChildren s. unfold final, convertContent.
  rewrite run_call. cbn [specEnv].
  destruct (consumableConsume (consumables s) (path viewTable) [AName]) as [ok c'].
  rewrite run_bind.
  pose proof (forEachRow_nextId table rows HconvItem
                (mkConvState c' (elements s) (nextId s) (stopped s))) as Hrows.
  unfold final in Hrows.
  destruct (run (specEnv ext) (forEachRow table rows) _) as [[u s1] evs1].
  rewrite run_call. cbn [specEnv]. rewrite run_call. cbn [specEnv].
  pose proof (HconvChildren viewTable (createPositionAt table AtEnd s1) s1) as Hchildren.
  destruct (convertChildrenImpl ext viewTable (createPositionAt table AtEnd s1) s1) as [res s2].
  simpl in *. lia.
Qed.

(** The listener when [safeInsert] succeeds: the conversions, then the
    filling of an empty table. *)
Lemma upcastTable_run_inserted (fuel : nat) (data : Data) (s : ConvState) (scan : ScanResult) :
  truthy (consumableTest (consumables s) (path (viewItem data)) [AName]) = true ->
  scanTable fuel (viewItem data) = Returns scan ->
  schemaAllows ext (createElement "table" (tableAttributes scan) s).2 (nextId s)
               (modelCursor data) = true ->
  exists evs,
    run (specEnv ext) (upcastTable fuel data) s
    = (Returns (updateConversionResult (nextId s) data),
       final (specEnv ext) (fillEmptyTable (nextId s))
         (final (specEnv ext) (convertContent (viewItem data) (nextId s) (rows scan))
            (writerInsert (nextId s) (modelCursor data)
               (createElement "table" (tableAttributes scan) s).2)),
       evs).
Proof.
  intros Htest Hscan Hschema. unfold final, upcastTable.
  rewrite run_call. cbn [specEnv]. rewrite Htest, Hscan. cbn [negb].
  rewrite run_bind. unfold upcastScanned.
  rewrite run_call. cbn [specEnv]. unfold createElement in Hschema |- *.
  cbn [snd] in Hschema.
  rewrite run_call. cbn [specEnv]. unfold safeInsert. rewrite Hschema.
  cbn [negb]. rewrite run_bind.
  destruct (run (specEnv ext) (convertContent _ _ _) _) as [[u s3] evs3]. cbn [fst snd].
  rewrite run_bind.
  destruct (run (specEnv ext) (fillEmptyTable _) s3) as [[u' s4] evs4]. cbn [fst snd].
  rewrite run_call_last. cbn [specEnv]. rewrite run_ret. eexists. reflexivity.
Qed.

(** C6, amended. A model table produced by the listener on [element:table]
    is never empty: when the conversion of the rows and of the other
    children left it without children, the listener inserts exactly one
    [tableRow] holding exactly one empty [tableCell]; otherwise it leaves the
    table as the conversions filled it, whatever its children are. *)
Theorem upcastTable_not_empty (fuel : nat) (data : Data) (s : ConvState) (scan : ScanResult) :
  (forall item pos s0, (nextId s0 <= nextId (convertItemImpl ext item pos s0).2)%nat) ->
  (forall item pos s0, (nextId s0 <= nextId (convertChildrenImpl ext item pos s0).2)%nat) ->
  truthy (consumableTest (consumables s) (path (viewItem data)) [AName]) = true ->
  scanTable fuel (viewItem data) = Returns scan ->
  schemaAllows ext (createElement "table" (tableAttributes scan) s).2 (nextId s)
               (modelCursor data) = true ->
  let table := nextId s in
  let converted :=
    final (specEnv ext) (convertContent (viewItem data) table (rows scan))
      (writerInsert table (modelCursor data)
         (createElement "table" (tableAttributes scan) s).2) in
  let s' := final (specEnv ext) (upcastTable fuel data) s in
  echildren (elements s' table) <> []
  /\ (echildren (elements converted table) <> [] -> s' = converted)
  /\ (echildren (elements converted table) = [] ->
        echildren (elements s' table) = [nextId converted]
        /\ elements s' (nextId converted) = mkElement "tableRow" ∅ [S (nextId converted)]
        /\ elements s' (S (nextId converted)) = mkElement "tableCell" ∅ []).
Proof.
  intros HconvItem HconvChildren Htest Hscan Hschema table converted s'.
  destruct (upcastTable_run_inserted _ _ _ _ Htest Hscan Hschema) as [evs Hrun].
  assert (s' = final (specEnv ext) (fillEmptyTable table) converted) as Hfinal.
  { subst s'. unfold final at 1. by rewrite Hrun. }
  assert (table < nextId converted)%nat as Hlt.
  { pose proof (convertContent_nextId (viewItem data) table (rows scan)
                  HconvItem HconvChildren
                  (writerInsert table (modelCursor data)
                     (createElement "table" (tableAttributes scan) s).2)) as Hmono.
    fold converted in Hmono. simpl in Hmono. subst table. lia. }
  assert (echildren (elements converted table) <> [] -> s' = converted) as Hfull.
  { intros Hne. rewrite Hfinal. by apply fillEmptyTable_nonempty. }
  assert (echildren (elements converted table) = [] ->
          echildren (elements s' table) = [nextId converted]
          /\ elements s' (nextId converted) = mkElement "tableRow" ∅ [S (nextId converted)]
          /\ elements s' (S (nextId converted)) = mkElement "tableCell" ∅ []) as Hempty.
  { intros He. rewrite Hfinal. by apply fillEmptyTable_empty. }
  split; [|by split].
  destruct (echildren (elements converted table)) as [|c cs] eqn:Hc.
  - destruct (Hempty eq_refl) as [-> _]. done.
  - rewrite Hfull by done. by rewrite Hc.
Qed.

End WithEngine.

(** C7, at an empty [<tr>] met at the start of the table, and at one met
    when the table already holds a row. *)
Lemma skipEmptyTableRow_stops_witness :
  (trace (specEnv plain) (skipEmptyTableRow (mkData emptyTr (mkPosition 1 O) None))
         (startState [])
   = [Called EvtStop tt]
   /\ fire plain [skipEmptyTableRow; rowListener]
           (mkData emptyTr (mkPosition 1 O) None) (startState [])
      = (mkData emptyTr (mkPosition 1 O) None,
         mkConvState (consumables (startState [])) (elements (startState []))
                     (nextId (startState [])) true))
  /\ (trace (specEnv plain) (skipEmptyTableRow (mkData emptyTr (mkPosition 1 1) None))
            (startState [])
      = []
      /\ fire plain [skipEmptyTableRow; rowListener]
              (mkData emptyTr (mkPosition 1 1) None) (startState [])
         = fire plain [rowListener] (mkData emptyTr (mkPosition 1 1) None) (startState [])).
Proof.
  split.
  - apply (proj1 (skipEmptyTableRow_stops plain [rowListener]
                    (mkData emptyTr (mkPosition 1 O) None) (startState []))).
    + reflexivity.
    + reflexivity.
  - apply (proj2 (skipEmptyTableRow_stops plain [rowListener]
                    (mkData emptyTr (mkPosition 1 1) None) (startState []))).
    right. simpl. lia.
Defined.

(** C4, at an empty [<table>] under a schema that refuses it. *)
Lemma upcastTable_safeInsert_fails_witness :
  result (specEnv refusing)
         (upcastTable 0 (tableData emptyTable)) tableState
  = Returns (tableData emptyTable)
  /\ consumables (final (specEnv refusing)
                        (upcastTable 0 (tableData emptyTable)) tableState)
     = consumables tableState.
Proof.
  pose proof (upcastTable_safeInsert_fails refusing
                O (tableData emptyTable) tableState (mkScanResult O O [])) as H.
  assert (truthy (consumableTest (consumables tableState)
                                 (path (viewItem (tableData emptyTable))) [AName]) = true)
    as Htest by (vm_compute; reflexivity).
  assert (scanTable 0 (viewItem (tableData emptyTable)) = Returns (mkScanResult O O []))
    as Hscan by (vm_compute; reflexivity).
  specialize (H Htest Hscan eq_refl).
  split; apply H.
Defined.

(** X15, at a table figure whose [<table>] is converted to nothing, and at
    one whose [<table>] the schema refuses, the listener on [element:table]
    then leaving the range unset. *)
Lemma upcastTableFigure_guards_and_revert_witness :
  consumableTest
    (consumables (final (specEnv emptyInFigure)
                        (upcastTableFigure (tableData tableFigure)) figureState))
    [] figureDescriptor
  = Some true
  /\ result (specEnv refusedInFigure) (upcastTableFigure (tableData tableFigure)) figureState
     = Raises TypeError.
Proof.
  split.
  - apply (proj1 (proj2 (upcastTableFigure_guards_and_revert emptyInFigure
                           (tableData tableFigure) figureState)
                    (mkItem [O] (ViewElement "table" ∅ [tbody [tr [td ∅]]]))
                    ltac:(vm_compute; reflexivity) ltac:(vm_compute; reflexivity)
                    ltac:(vm_compute; reflexivity))).
    + vm_compute. reflexivity.
    + intros a Ha. vm_compute in Ha.
      apply elem_of_cons in Ha as [->|Ha]; [vm_compute; eauto|].
      apply elem_of_cons in Ha as [->|Ha]; [vm_compute; eauto|].
      by apply elem_of_nil in Ha.
  - apply (proj2 (proj2 (upcastTableFigure_guards_and_revert refusedInFigure
                           (tableData tableFigure) figureState)
                    (mkItem [O] (ViewElement "table" ∅ [tbody [tr [td ∅]]]))
                    ltac:(vm_compute; reflexivity) ltac:(vm_compute; reflexivity)
                    ltac:(vm_compute; reflexivity))).
    vm_compute. reflexivity.
Defined.

(** C5. At a table figure whose [<table>] does not become a model table,
    its content being turned into a paragraph instead, the listener on
    [element:figure] takes the paragraph for the model table: it converts the
    children of the figure into the paragraph, reports the paragraph as the
    result of the figure, never calls [revert], and leaves the figure
    consumed, so that no other converter can claim it. *)
Theorem upcastTableFigure_paragraph_not_reverted :
  let filled := specEnv paragraphInFigure in
  let s' := final filled (upcastTableFigure (tableData tableFigure)) figureState in
  result filled (upcastTableFigure (tableData tableFigure)) figureState
  = Returns (updateConversionResult 1 (tableData tableFigure))
  /\ elements s' 1 = mkElement "paragraph" ∅ []
  /\ omap convertChildrenOf
          (trace filled (upcastTableFigure (tableData tableFigure)) figureState)
     = [(tableFigure, mkPosition 1 O)]
  /\ Forall (fun ev => ~ isRevert ev)
            (trace filled (upcastTableFigure (tableData tableFigure)) figureState)
  /\ consumableTest (consumables s') [] figureDescriptor = Some false.
Proof.
  vm_compute. split; [done|]. split; [done|]. split; [done|]. split; [|done].
  repeat constructor; by intros [].
Qed.

(** C6, amended, at an empty [<table>]: the table gets one row with one cell. *)
Lemma upcastTable_not_empty_witness :
  echildren (elements (final (specEnv plain)
                             (upcastTable 0 (tableData emptyTable)) tableState) 1)
  <> [].
Proof.
  pose proof (upcastTable_not_empty plain
                O (tableData emptyTable) tableState (mkScanResult O O [])) as H.
  assert (truthy (consumableTest (consumables tableState)
                                 (path (viewItem (tableData emptyTable))) [AName]) = true)
    as Htest by (vm_compute; reflexivity).
  assert (scanTable 0 (viewItem (tableData emptyTable)) = Returns (mkScanResult O O []))
    as Hscan by (vm_compute; reflexivity).
  specialize (H (fun _ _ _ => Nat.le_refl _) (fun _ _ _ => Nat.le_refl _) Htest Hscan eq_refl).
  cbv zeta in H. apply H.
Defined.

Example emptyTable_gets_row_and_cell :
  let s' := final (specEnv plain)
                  (upcastTable 0 (tableData emptyTable)) tableState in
  echildren (elements s' O) = [1%nat]
  /\ elements s' 1 = mkElement "table" ∅ [2%nat]
  /\ elements s' 2 = mkElement "tableRow" ∅ [3%nat]
  /\ elements s' 3 = mkElement "tableCell" ∅ []
  /\ hasRowWithCell s' 1 = true.
Proof. vm_compute. repeat split. Qed.

(** C6, as stated: a [<table>] that holds only a [<caption>] is converted to
    a model table whose only child is the [caption]; the table is not empty,
    so no row is added, and it has no row at all. *)
Lemma upcastTable_caption_only_has_no_row :
  let s' := final (specEnv withCaptions)
                  (upcastTable 0 (tableData captionTable)) tableState in
  result (specEnv withCaptions)
         (upcastTable 0 (tableData captionTable)) tableState
  = Returns (updateConversionResult 1 (tableData captionTable))
  /\ echildren (elements s' O) = [1%nat]
  /\ elements s' 1 = mkElement "table" ∅ [2%nat]
  /\ elements s' 2 = mkElement "caption" ∅ []
  /\ hasRowWithCell s' 1 = false.
Proof. vm_compute. repeat split. Qed.

(** The rows of a table go through the guard one after the other: the empty
    rows at the start are all dropped, each of them being met with the table
    still empty; an empty row after a converted row is kept.  A table of
    empty rows only ends up with the one row and cell of the empty table. *)
Example leading_empty_rows_dropped :
  let s' := final (specEnv withRows) (upcastTable 2 (tableData leadingEmptyRows)) tableState in
  let s'' := final (specEnv withRows) (upcastTable 2 (tableData onlyEmptyRows)) tableState in
  (r ← scanTable 2 leadingEmptyRows; Returns (length (rows r))) = Returns 4%nat
  /\ map (fun e => ename (elements s' e)) (echildren (elements s' 1))
     = ["tableRow"; "tableRow"]
  /\ echildren (elements s'' 1) = [2%nat]
  /\ elements s'' 2 = mkElement "tableRow" ∅ [3%nat]
  /\ elements s'' 3 = mkElement "tableCell" ∅ [].
Proof. vm_compute. repeat split. Qed.

End Listeners.

(** ** More on the listeners *)

Section MoreListeners.

Import Examples.

Lemma firstTable_Some (cs : list ViewItem) (t : ViewItem) :
  firstTable cs = Some t <->
  exists i, cs !! i = Some t /\ isElement "table" t = true
            /\ forall j c, (j < i)%nat -> cs !! j = Some c -> isElement "table" c = false.
Proof.
  induction cs as [|c cs IH]; simpl.
  - split; [done|]. by intros (i & Hi & _).
  - destruct (isElement "table" c) eqn:Hc.
    + split.
      * intros [= <-]. exists O. repeat split; [done|]. intros j c' Hj. lia.
      * intros (i & Hi & Ht & Hbefore). destruct i as [|i]; [by simpl in Hi|].
        assert (isElement "table" c = false) by (apply (Hbefore O); [lia|done]).
        congruence.
    + rewrite IH. split.
      * intros (i & Hi & Ht & Hbefore). exists (S i). repeat split; [done..|].
        intros [|j] c' Hj Hc'; simpl in Hc'; [congruence|]. apply (Hbefore j); [lia|done].
      * intros (i & Hi & Ht & Hbefore). destruct i as [|i].
        -- simpl in Hi. congruence.
        -- exists i. repeat split; [done..|]. intros j c' Hj Hc'.
           apply (Hbefore (S j)); [lia|done].
Qed.

Lemma firstTable_None (cs : list ViewItem) :
  firstTable cs = None <-> Forall (fun c => isElement "table" c = false) cs.
Proof.
  induction cs as [|c cs IH]; simpl; [by split|].
  destruct (isElement "table" c) eqn:Hc.
  - split; [done|]. intros H. inversion H; subst. congruence.
  - rewrite IH. split; [by constructor|]. intros H. by inversion H.
Qed.

(** X1. [getViewTableFromFigure] returns the first child of the figure that
    is a [<table>] element, whatever comes before or after it, and returns
    nothing exactly when no child is a [<table>] element. *)
Theorem getViewTableFromFigure_first (figureView : ViewItem) :
  (forall t,
     getViewTableFromFigure figureView = Some t <->
     exists i, getChildren figureView !! i = Some t
               /\ isElement "table" t = true
               /\ forall j c, (j < i)%nat -> getChildren figureView !! j = Some c ->
                              isElement "table" c = false)
  /\ (getViewTableFromFigure figureView = None <->
      Forall (fun c => isElement "table" c = false) (getChildren figureView)).
Proof.
  split; [intros t; apply firstTable_Some|apply firstTable_None].
Qed.

Lemma result_bind {S A B : Type} (env : Env S) (p : Prog A) (f : A -> Prog B) (s : S) :
  result env (p ≫= f) s = result env (f (result env p s)) (final env p s).
Proof.
  unfold result, final. rewrite run_bind.
  destruct (run env p s) as [[a s1] evs1]. simpl.
  by destruct (run env (f a) s1) as [[b s2] evs2].
Qed.

Lemma final_bind {S A B : Type} (env : Env S) (p : Prog A) (f : A -> Prog B) (s : S) :
  final env (p ≫= f) s = final env (f (result env p s)) (final env p s).
Proof.
  unfold result, final. rewrite run_bind.
  destruct (run env p s) as [[a s1] evs1]. simpl.
  by destruct (run env (f a) s1) as [[b s2] evs2].
Qed.

Lemma trace_bind {S A B : Type} (env : Env S) (p : Prog A) (f : A -> Prog B) (s : S) :
  trace env (p ≫= f) s
  = trace env p s ++ trace env (f (result env p s)) (final env p s).
Proof.
  unfold result, final, trace. rewrite run_bind.
  destruct (run env p s) as [[a s1] evs1]. simpl.
  by destruct (run env (f a) s1) as [[b s2] evs2].
Qed.

Lemma run_projections {S A : Type} (env : Env S) (p : Prog A) (s : S) :
  run env p s = (result env p s, final env p s, trace env p s).
Proof. unfold result, final, trace. by destruct (run env p s) as [[a s1] evs]. Qed.

Lemma result_call {S X : Type} (env : Env S) (c : Call X) (s : S) :
  result env (call c) s = (env _ c s).1.
Proof. unfold result. rewrite run_call_last. by destruct (env X c s). Qed.

Lemma final_call {S X : Type} (env : Env S) (c : Call X) (s : S) :
  final env (call c) s = (env _ c s).2.
Proof. unfold final. rewrite run_call_last. by destruct (env X c s). Qed.

Lemma trace_call {S X : Type} (env : Env S) (c : Call X) (s : S) :
  trace env (call c) s = [Called c (env _ c s).1].
Proof. unfold trace. rewrite run_call_last. by destruct (env X c s). Qed.

Section MoreWithEngine.

Variable ext : Externals.

(** X2. When the name of the view [<table>] does not test available (it was
    consumed, or never registered), the listener on [element:table] does
    nothing: it returns after the test, before [scanTable], with the data and
    the state of the pass unchanged. *)
Theorem upcastTable_already_consumed (fuel : nat) (data : Data) (s : ConvState) :
  truthy (consumableTest (consumables s) (path (viewItem data)) [AName]) = false ->
  run (specEnv ext) (upcastTable fuel data) s
  = (Returns data, s,
     [ Called (ConsumableTest (viewItem data) [AName])
              (consumableTest (consumables s) (path (viewItem data)) [AName]) ]).
Proof.
  intros Htest. unfold upcastTable. rewrite run_call. cbn [specEnv].
  by rewrite Htest.
Qed.

(** X3. When the inner [<table>] of a table figure is converted to a model
    item, the listener on [element:figure] converts the children of the
    figure to the end of that item and reports the item as the result of the
    figure; it makes exactly these calls, in this order, and never reverts
    the consumption of the figure. *)
Theorem upcastTableFigure_converts (data : Data) (s : ConvState) (viewTable : ViewItem)
    (modelTable : nat) :
  truthy (consumableTest (consumables s) (path (viewItem data)) figureDescriptor) = true ->
  getViewTableFromFigure (viewItem data) = Some viewTable ->
  truthy (consumableTest (consumables s) (path viewTable) [AName]) = true ->
  let s1 :=
    mkConvState
      (consumableConsume (consumables s) (path (viewItem data)) figureDescriptor).2
      (elements s) (nextId s) (stopped s) in
  let converted := convertItemImpl ext viewTable (modelCursor data) s1 in
  resultRange converted.1 ≫= head = Some modelTable ->
  let pos := createPositionAt modelTable AtEnd converted.2 in
  let children := convertChildrenImpl ext (viewItem data) pos converted.2 in
  run (specEnv ext) (upcastTableFigure data) s
  = (Returns (updateConversionResult modelTable data), children.2,
     [ Called (ConsumableTest (viewItem data) figureDescriptor) (Some true);
       Called (ConsumableTest viewTable [AName]) (Some true);
       Called (ConsumableConsume (viewItem data) figureDescriptor) true;
       Called (ConvertItem viewTable (modelCursor data)) converted.1;
       Called (WriterCreatePositionAt modelTable AtEnd) pos;
       Called (ConvertChildren (viewItem data) pos) children.1;
       Called (UpdateConversionResult modelTable data)
              (updateConversionResult modelTable data) ])
  /\ Forall (fun ev => ~ isRevert ev) (trace (specEnv ext) (upcastTableFigure data) s).
Proof.
  intros Hfig Hsome Htable s1 converted Hhead pos children.
  assert (run (specEnv ext) (upcastTableFigure data) s
          = (Returns (updateConversionResult modelTable data), children.2,
             [ Called (ConsumableTest (viewItem data) figureDescriptor) (Some true);
               Called (ConsumableTest viewTable [AName]) (Some true);
               Called (ConsumableConsume (viewItem data) figureDescriptor) true;
               Called (ConvertItem viewTable (modelCursor data)) converted.1;
               Called (WriterCreatePositionAt modelTable AtEnd) pos;
               Called (ConvertChildren (viewItem data) pos) children.1;
               Called (UpdateConversionResult modelTable data)
                      (updateConversionResult modelTable data) ])) as Hrun.
  { unfold upcastTableFigure.
    rewrite run_call. cbn [specEnv]. rewrite Hfig. cbn [negb]. rewrite Hsome.
    rewrite run_call. cbn [specEnv]. rewrite Htable. cbn [negb].
    apply truthy_Some_true in Hfig, Htable. rewrite Hfig, Htable.
    rewrite run_call. cbn [specEnv].
    subst children pos converted s1. unfold consumableConsume in *. rewrite Hfig in *.
    rewrite bool_decide_eq_true_2 in * by done. cbn [snd] in *.
    rewrite run_call. cbn [specEnv].
    destruct (convertItemImpl ext viewTable (modelCursor data) _) as [res s2].
    cbn [fst snd] in *.
    destruct (resultRange res) as [items|]; cbn in Hhead; [|done]. rewrite Hhead.
    rewrite run_call. cbn [specEnv].
    rewrite run_call. cbn [specEnv].
    destruct (convertChildrenImpl ext (viewItem data) _ s2) as [res' s3].
    rewrite run_call. cbn [specEnv]. rewrite run_ret. reflexivity. }
  split; [exact Hrun|].
  unfold trace. rewrite Hrun. cbn [snd].
  repeat constructor; by intros [].
Qed.

Lemma trace_call_bind {A X : Type} (c : Call X) (k : X -> Prog A) (s : ConvState) :
  trace (specEnv ext) (call c ≫= k) s
  = Called c (specEnv ext _ c s).1
    :: trace (specEnv ext) (k (specEnv ext _ c s).1) (specEnv ext _ c s).2.
Proof. rewrite trace_bind, trace_call, result_call, final_call. done. Qed.

Lemma forEachRow_converted (table : nat) (rows : list ViewItem) :
  forall s,
    (omap convertItemOf (trace (specEnv ext) (forEachRow table rows) s)).*1 = rows
    /\ Forall (fun p => parent p.2 = table)
              (omap convertItemOf (trace (specEnv ext) (forEachRow table rows) s))
    /\ omap convertChildrenOf (trace (specEnv ext) (forEachRow table rows) s) = [].
Proof.
  induction rows as [|row rows IH]; intros s; [by repeat split|].
  cbn [forEachRow]. rewrite trace_call_bind. cbn [specEnv fst snd].
  rewrite trace_call_bind. cbn [specEnv].
  destruct (IH (convertItemImpl ext row (createPositionAt table AtEnd s) s).2)
    as (Hrows & Hpos & Hchildren).
  cbn [omap list_omap convertItemOf convertChildrenOf fmap list_fmap fst snd].
  split; [|split].
  - f_equal. exact Hrows.
  - constructor; [done|exact Hpos].
  - exact Hchildren.
Qed.

Lemma fillEmptyTable_converts_nothing (table : nat) (s : ConvState) :
  omap convertItemOf (trace (specEnv ext) (fillEmptyTable table) s) = []
  /\ omap convertChildrenOf (trace (specEnv ext) (fillEmptyTable table) s) = [].
Proof.
  unfold fillEmptyTable. rewrite trace_call_bind. cbn [specEnv fst snd].
  destruct (elementIsEmpty table s); [|done].
  repeat (rewrite trace_call_bind; cbn [specEnv fst snd]).
  done.
Qed.

Lemma convertContent_converted (viewTable : ViewItem) (table : nat) (rows : list ViewItem)
    (s : ConvState) :
  (omap convertItemOf (trace (specEnv ext) (convertContent viewTable table rows) s)).*1 = rows
  /\ Forall (fun p => parent p.2 = table)
            (omap convertItemOf (trace (specEnv ext) (convertContent viewTable table rows) s))
  /\ (omap convertChildrenOf
        (trace (specEnv ext) (convertContent viewTable table rows) s)).*1 = [viewTable]
  /\ Forall (fun p => parent p.2 = table)
            (omap convertChildrenOf
               (trace (specEnv ext) (convertContent viewTable table rows) s)).
Proof.
  unfold convertContent. rewrite trace_call_bind.
  set (s1 := (specEnv ext _ (ConsumableConsume viewTable [AName]) s).2).
  rewrite trace_bind.
  set (s2 := final (specEnv ext) (forEachRow table rows) s1).
  destruct (forEachRow_converted table rows s1) as (Hrows & Hpos & Hchildren).
  rewrite trace_call_bind. cbn [specEnv fst snd].
  rewrite trace_call_bind. cbn [specEnv].
  cbn [omap list_omap convertItemOf convertChildrenOf].
  rewrite !omap_app, Hchildren.
  cbn [omap list_omap convertItemOf convertChildrenOf app fmap list_fmap fst snd
       trace run Prog_ret mret].
  rewrite app_nil_r.
  repeat split; [done..|]. by repeat constructor.
Qed.

(** X4. When the model table could be inserted, the listener on
    [element:table] hands to [convertItem] exactly the rows that [scanTable]
    returned, in that order (heading rows first), each at a position in the
    new model table, and then calls [convertChildren] once, on the view
    [<table>], at a position in the new model table. *)
Theorem upcastTable_converts_rows_in_order (fuel : nat) (data : Data) (s : ConvState)
    (scan : ScanResult) :
  truthy (consumableTest (consumables s) (path (viewItem data)) [AName]) = true ->
  scanTable fuel (viewItem data) = Returns scan ->
  schemaAllows ext (createElement "table" (tableAttributes scan) s).2 (nextId s)
               (modelCursor data) = true ->
  (omap convertItemOf (trace (specEnv ext) (upcastTable fuel data) s)).*1 = rows scan
  /\ Forall (fun p => parent p.2 = nextId s)
            (omap convertItemOf (trace (specEnv ext) (upcastTable fuel data) s))
  /\ (omap convertChildrenOf (trace (specEnv ext) (upcastTable fuel data) s)).*1
     = [viewItem data]
  /\ Forall (fun p => parent p.2 = nextId s)
            (omap convertChildrenOf (trace (specEnv ext) (upcastTable fuel data) s)).
Proof.
  intros Htest Hscan Hschema.
  unfold upcastTable. rewrite trace_call_bind. cbn [specEnv fst snd].
  rewrite Htest, Hscan. cbn [negb]. rewrite trace_bind. unfold upcastScanned.
  rewrite trace_call_bind. cbn [specEnv]. unfold createElement in Hschema |- *.
  cbn [fst snd] in Hschema |- *.
  rewrite trace_call_bind. cbn [specEnv]. unfold safeInsert. rewrite Hschema.
  cbn [fst snd negb]. rewrite trace_bind.
  match goal with
  | |- context [trace (specEnv ext) (convertContent ?v ?t ?r) ?s0] =>
      destruct (convertContent_converted v t r s0) as (Hrows & Hpos & Hch & Hchpos);
      set (evsContent := trace (specEnv ext) (convertContent v t r) s0) in *
  end.
  rewrite trace_bind.
  match goal with
  | |- context [trace (specEnv ext) (fillEmptyTable ?t) ?s0] =>
      destruct (fillEmptyTable_converts_nothing t s0) as (Hfill & Hfillch);
      set (evsFill := trace (specEnv ext) (fillEmptyTable t) s0) in *
  end.
  rewrite trace_call.
  cbn [omap list_omap convertItemOf convertChildrenOf app].
  rewrite !omap_app, Hfill, Hfillch.
  cbn [omap list_omap convertItemOf convertChildrenOf app trace run Prog_ret mret snd].
  rewrite !app_nil_r. done.
Qed.

End MoreWithEngine.

(** X4, at the table with a [<thead>] between two [<tbody>]s. *)
Lemma upcastTable_converts_rows_in_order_witness :
  (omap convertItemOf
     (trace (specEnv plain) (upcastTable 1 (tableData theadInTheMiddle)) tableState)).*1
  = [ mkItem [1%nat; O] (tr [td ∅]); mkItem [O; O] (tr [td ∅]);
      mkItem [2%nat; O] (tr [td ∅]) ].
Proof.
  apply (upcastTable_converts_rows_in_order plain 1 (tableData theadInTheMiddle) tableState
           (mkScanResult 1 O
              [ mkItem [1%nat; O] (tr [td ∅]); mkItem [O; O] (tr [td ∅]);
                mkItem [2%nat; O] (tr [td ∅]) ])).
  - vm_compute. reflexivity.
  - vm_compute. reflexivity.
  - reflexivity.
Defined.

(** X2, at a [<table>] none of whose aspects is registered. *)
Lemma upcastTable_already_consumed_witness :
  run (specEnv plain) (upcastTable 0 (tableData emptyTable)) (startState [])
  = (Returns (tableData emptyTable), startState [],
     [ Called (ConsumableTest emptyTable [AName]) None ]).
Proof.
  apply (upcastTable_already_consumed plain O (tableData emptyTable) (startState [])).
  vm_compute. reflexivity.
Defined.

(** X3, at a figure with a caption and a table that is converted. *)
Lemma upcastTableFigure_converts_witness :
  result (specEnv withTables) (upcastTableFigure (tableData captionedFigure))
         (startState [([], AName); ([], AClass "table"); ([1%nat], AName)])
  = Returns (updateConversionResult 1 (tableData captionedFigure)).
Proof.
  pose proof (upcastTableFigure_converts withTables (tableData captionedFigure)
                (startState [([], AName); ([], AClass "table"); ([1%nat], AName)])
                (mkItem [1%nat] (ViewElement "table" ∅ [tbody [tr [td ∅]]])) 1) as H.
  assert (truthy (consumableTest
                    (consumables (startState [([], AName); ([], AClass "table");
                                              ([1%nat], AName)]))
                    (path (viewItem (tableData captionedFigure))) figureDescriptor) = true)
    as H1 by (vm_compute; reflexivity).
  assert (getViewTableFromFigure (viewItem (tableData captionedFigure))
          = Some (mkItem [1%nat] (ViewElement "table" ∅ [tbody [tr [td ∅]]])))
    as H2 by (vm_compute; reflexivity).
  assert (truthy (consumableTest
                    (consumables (startState [([], AName); ([], AClass "table");
                                              ([1%nat], AName)]))
                    (path (mkItem [1%nat] (ViewElement "table" ∅ [tbody [tr [td ∅]]])))
                    [AName]) = true)
    as H3 by (vm_compute; reflexivity).
  specialize (H H1 H2 H3). cbv zeta in H. specialize (H eq_refl).
  destruct H as [Hrun _]. unfold result. rewrite Hrun. reflexivity.
Defined.

End MoreListeners.

(** ** More on the table scanner *)

Section MoreScanner.

Import Examples.

Lemma trsOf_elem (sec tr : ViewItem) :
  tr ∈ trsOf sec <-> isElement "tr" tr = true /\ tr ∈ getChildren sec.
Proof. unfold trsOf. by rewrite list_elem_of_filter. Qed.

Lemma sectionRowsOf_elem (cs : list ViewItem) (sec tr : ViewItem) :
  (sec, tr) ∈ sectionRowsOf cs <-> sec ∈ cs /\ isSection sec = true /\ tr ∈ trsOf sec.
Proof.
  induction cs as [|c cs IH]; simpl.
  - split; [by intros ?%elem_of_nil|]. by intros [?%elem_of_nil _].
  - rewrite elem_of_app, IH, elem_of_cons. split.
    + intros [Hc|(Hin & Hsec & Htr)]; [|by auto].
      destruct (isSection c) eqn:Hsec; [|by apply elem_of_nil in Hc].
      apply list_elem_of_fmap in Hc as (tr' & [= -> ->] & Htr). auto.
    + intros ([->|Hin] & Hsec & Htr); [|by auto].
      left. rewrite Hsec. by apply list_elem_of_fmap_2.
Qed.

Lemma scanTable_result (fuel : nat) (viewTable : ViewItem) (r : ScanResult) :
  scanTable fuel viewTable = Returns r ->
  exists bodyMatrix,
    generateCellMatrix fuel (bodyRows (scanSections viewTable)) = Returns bodyMatrix
    /\ r = mkScanResult (headingRowsAcc (scanSections viewTable))
                        (default O (fold_left updateHeadingColumns bodyMatrix None))
                        (headRows (scanSections viewTable)
                         ++ bodyRows (scanSections viewTable)).
Proof.
  unfold scanTable.
  destruct (generateCellMatrix fuel _) as [bodyMatrix| |]; obind; [|done..].
  intros [= <-]. by exists bodyMatrix.
Qed.

(** X5. [scanTable] neither loses nor repeats a row: the rows it returns are,
    up to their order, the [<tr>] children of the [<thead>], [<tbody>] and
    [<tfoot>] children of the table, each once.  A [<tr>] that is a direct
    child of the table, or a child of any other element, is not among them.
    [headingRows] never exceeds the number of rows returned. *)
Theorem scanTable_keeps_every_row (fuel : nat) (viewTable : ViewItem) (r : ScanResult) :
  scanTable fuel viewTable = Returns r ->
  rows r ≡ₚ (sectionRows viewTable).*2
  /\ (forall tr, tr ∈ rows r <->
                 exists sec, sec ∈ getChildren viewTable /\ isSection sec = true
                             /\ isElement "tr" tr = true /\ tr ∈ getChildren sec)
  /\ (headingRows r <= length (rows r))%nat.
Proof.
  intros Hscan. apply scanTable_result in Hscan as (bodyMatrix & _ & ->).
  unfold scanSections.
  rewrite (scanSection_fold _ (getChildren_NoDup viewTable)).
  cbn [headingRowsAcc headRows bodyRows firstTheadElement resolveThead rows headingRows
       app].
  fold (sectionRows viewTable).
  match goal with
  | |- ?R ≡ₚ _ /\ _ =>
      assert (R ≡ₚ (sectionRows viewTable).*2) as Hperm
        by (rewrite <- fmap_app; apply fmap_Permutation, filter_app_complement)
  end.
  split; [exact Hperm|]. split.
  - intros tr. rewrite Hperm. rewrite list_elem_of_fmap. split.
    + intros ([sec tr'] & -> & Hin). apply sectionRowsOf_elem in Hin as (Hsec & His & Htr).
      apply trsOf_elem in Htr as [Htr Hchild]. by exists sec.
    + intros (sec & Hsec & His & Htr & Hchild). exists (sec, tr). split; [done|].
      apply sectionRowsOf_elem. repeat split; [done..|]. by apply trsOf_elem.
  - rewrite length_app, !length_fmap. lia.
Qed.

(** X5, at the table of the comment in [scanTable]. *)
Lemma scanTable_keeps_every_row_witness :
  [ mkItem [1%nat; O] (tr [td ∅]); mkItem [O; O] (tr [td ∅]);
    mkItem [2%nat; O] (tr [td ∅]) ]
  ≡ₚ (sectionRows theadInTheMiddle).*2.
Proof.
  apply (scanTable_keeps_every_row 1 theadInTheMiddle
           (mkScanResult 1 O
              [ mkItem [1%nat; O] (tr [td ∅]); mkItem [O; O] (tr [td ∅]);
                mkItem [2%nat; O] (tr [td ∅]) ])).
  vm_compute. reflexivity.
Defined.

Lemma scanSection_skip (cs : list ViewItem) (st : ScanState) :
  Forall (fun c => isSection c = false) cs -> fold_left scanSection cs st = st.
Proof.
  intros Hall. revert st. induction Hall as [|c cs Hc _ IH]; intros st; [done|].
  cbn [fold_left]. unfold scanSection at 2. rewrite skip_isSection, Hc. apply IH.
Qed.

(** X6. A table without any [<thead>], [<tbody>] or [<tfoot>] child (an
    empty table, or one that holds only a caption, text or [<tr>] elements
    directly) is scanned to no rows, no heading rows and no heading columns,
    without a single iteration of the loop of [generateCellMatrix]. *)
Theorem scanTable_without_sections (fuel : nat) (viewTable : ViewItem) :
  Forall (fun c => isSection c = false) (getChildren viewTable) ->
  scanTable fuel viewTable = Returns (mkScanResult O O []).
Proof.
  intros Hall. unfold scanTable, scanSections. by rewrite scanSection_skip.
Qed.

(** X6, at a table whose only child is a [<tr>]. *)
Lemma scanTable_without_sections_witness :
  scanTable 0 (table [tr [th ∅]]) = Returns (mkScanResult O O []).
Proof.
  apply (scanTable_without_sections O (table [tr [th ∅]])).
  repeat constructor.
Defined.

Lemma updateHeadingColumns_zero (hc : option nat) (rowSlots : list (option ViewItem)) :
  leadingTh rowSlots = O -> updateHeadingColumns hc rowSlots = Some O.
Proof.
  intros H0. unfold updateHeadingColumns. rewrite H0.
  by destruct hc as [[|n]|].
Qed.

Lemma updateHeadingColumns_le (hc : option nat) (rowSlots : list (option ViewItem)) :
  (default O (updateHeadingColumns hc rowSlots) <= leadingTh rowSlots)%nat.
Proof.
  unfold updateHeadingColumns.
  destruct hc as [[|n]|]; cbn [notTruthy orb default id]; [done| |done].
  unfold default, id. simpl.
  destruct (Nat.ltb_spec (leadingTh rowSlots) (S n)); simpl; lia.
Qed.

Lemma updateHeadingColumns_falsy (hc : option nat) (matrix : list (list (option ViewItem))) :
  notTruthy hc = true ->
  default O (fold_left updateHeadingColumns matrix hc)
  = default O (fold_left updateHeadingColumns matrix None).
Proof.
  intros Hhc. destruct matrix as [|rowSlots matrix].
  - by destruct hc as [[|n]|].
  - cbn [fold_left]. unfold updateHeadingColumns at 2 4. rewrite Hhc. done.
Qed.

Lemma fold_updateHeadingColumns_last_zero (m1 : list (list (option ViewItem)))
    (hc : option nat) :
  list.last (leadingTh <$> m1) = Some O ->
  fold_left updateHeadingColumns m1 hc = Some O.
Proof.
  rewrite fmap_last. intros Hlast.
  destruct (list.last m1) as [rowSlots|] eqn:Hrow; [|done].
  apply last_Some in Hrow as [m0 ->]. injection Hlast as Hzero.
  rewrite fold_left_app. cbn [fold_left]. by apply updateHeadingColumns_zero.
Qed.

Lemma leadingTh_le_length (rowSlots : list (option ViewItem)) :
  (leadingTh rowSlots <= length rowSlots)%nat.
Proof.
  induction rowSlots as [|[c|] rowSlots IH]; simpl; [lia| |lia].
  destruct (bool_decide (name c ≠ Some "th")); lia.
Qed.

(** X7. What [scanTable] returns as [headingColumns]: split the body rows of
    the matrix after the last row that has no leading [<th>] slot; the
    result is the smallest number of leading [<th>] slots among the rows
    after that point, and 0 when there is no row after it.  The rows before
    the split do not count. *)
Theorem headingColumns_after_last_td_row (fuel : nat) (viewTable : ViewItem)
    (r : ScanResult) (m : list (list (option ViewItem))) (pre suf : list nat) :
  scanTable fuel viewTable = Returns r ->
  generateCellMatrix fuel (bodyRows (scanSections viewTable)) = Returns m ->
  leadingTh <$> m = pre ++ suf ->
  pre = [] \/ list.last pre = Some O ->
  Forall (fun n => (0 < n)%nat) suf ->
  headingColumns r = minOr0 suf.
Proof.
  intros Hscan Hm Hsplit Hpre Hsuf.
  apply scanTable_result in Hscan as (m' & Hm' & ->). cbn [headingColumns].
  assert (m' = m) as -> by congruence.
  apply fmap_app_inv in Hsplit as (m1 & m2 & -> & -> & ->).
  rewrite fold_left_app.
  rewrite updateHeadingColumns_falsy.
  - rewrite headingColumns_minimum_when_positive; [done|].
    rewrite Forall_fmap in Hsuf. exact Hsuf.
  - destruct Hpre as [Hnil|Hlast].
    + by apply fmap_nil_inv in Hnil as ->.
    + by rewrite (fold_updateHeadingColumns_last_zero _ _ Hlast).
Qed.

(** X7, at a body row starting with a [<td>] followed by one starting with a
    [<th>]: the first row does not count, the result is 1. *)
Lemma headingColumns_after_last_td_row_witness :
  headingColumns (mkScanResult O 1 (getChildren (mkItem [O] (tbody [tr [td ∅]; tr [th ∅; td ∅]]))))
  = minOr0 [1%nat].
Proof.
  apply (headingColumns_after_last_td_row 2 tdRowThenThRow
           (mkScanResult O 1 (getChildren (mkItem [O] (tbody [tr [td ∅]; tr [th ∅; td ∅]]))))
           tdRowThenThRowMatrix [O] [1%nat]).
  - vm_compute. reflexivity.
  - vm_compute. reflexivity.
  - vm_compute. reflexivity.
  - right. reflexivity.
  - repeat constructor.
Defined.

(** X8. [headingColumns] is 0 when the table has no body row; otherwise it
    is never more than the number of leading [<th>] slots of the last body
    row, hence never more than the width of the body matrix. *)
Theorem headingColumns_bounds (fuel : nat) (viewTable : ViewItem) (r : ScanResult)
    (m : list (list (option ViewItem))) :
  scanTable fuel viewTable = Returns r ->
  generateCellMatrix fuel (bodyRows (scanSections viewTable)) = Returns m ->
  (m = [] -> headingColumns r = O)
  /\ (forall lastRow, list.last m = Some lastRow ->
        (headingColumns r <= leadingTh lastRow)%nat)
  /\ (headingColumns r <= max_list (length <$> m))%nat.
Proof.
  intros Hscan Hm.
  apply scanTable_result in Hscan as (m' & Hm' & ->). cbn [headingColumns].
  assert (m' = m) as -> by congruence.
  assert (forall lastRow, list.last m = Some lastRow ->
            (default O (fold_left updateHeadingColumns m None) <= leadingTh lastRow)%nat)
    as Hlast.
  { intros lastRow [m0 ->]%last_Some. rewrite fold_left_app. cbn [fold_left].
    apply updateHeadingColumns_le. }
  split; [by intros ->|]. split; [exact Hlast|].
  destruct (list.last m) as [lastRow|] eqn:Hl.
  - specialize (Hlast lastRow eq_refl).
    pose proof (leadingTh_le_length lastRow).
    assert (length lastRow <= max_list (length <$> m))%nat.
    { apply max_list_elem_of_le, list_elem_of_fmap_2. by apply last_Some_elem_of. }
    lia.
  - apply last_None in Hl as ->. simpl. lia.
Qed.

(** X8, at the same table. *)
Lemma headingColumns_bounds_witness :
  (1 <= max_list (length <$> tdRowThenThRowMatrix))%nat.
Proof.
  apply (headingColumns_bounds 2 tdRowThenThRow
           (mkScanResult O 1 (getChildren (mkItem [O] (tbody [tr [td ∅]; tr [th ∅; td ∅]]))))
           tdRowThenThRowMatrix).
  - vm_compute. reflexivity.
  - vm_compute. reflexivity.
Defined.

End MoreScanner.

(** ** More on the cell matrix *)

Section MoreMatrix.

Import Examples.

Section Cells.

(** A property of cells that holds of every cell of the rows that has a
    positive, finite [colspan]. *)
Variable P : ViewItem -> Prop.

Lemma pushCell_cells n c rowspan slots spans :
  ((0 < n)%nat -> P c) ->
  (forall x, Some x ∈ slots -> P x) ->
  (forall k rs, spans !! k = Some rs -> P (cell rs)) ->
  (forall x, Some x ∈ (pushCell n c rowspan slots spans).1 -> P x)
  /\ (forall k rs, (pushCell n c rowspan slots spans).2 !! k = Some rs -> P (cell rs)).
Proof.
  revert slots spans. induction n as [|n IH]; intros slots spans Hc Hslots Hspans.
  - by split.
  - cbn [pushCell]. assert (P c) as HPc by (apply Hc; lia). apply IH.
    + done.
    + intros x [Hx|Hx]%elem_of_app; [by apply Hslots|].
      apply list_elem_of_singleton in Hx. congruence.
    + intros k rs. destruct (JS.gt rowspan (JS.Num 1)); [|by apply Hspans].
      intros Hk. apply lookup_insert_Some in Hk as [[_ <-]|[_ Hk]]; [done|].
      by apply (Hspans k).
Qed.

Lemma Step_cells prev st st' :
  (forall k rs, prev !! k = Some rs -> P (cell rs)) ->
  (forall c, c ∈ children st -> (0 < slotCount (spanOf "colspan" c))%nat -> P c) ->
  (forall x, Some x ∈ curSlots st -> P x) ->
  (forall k rs, curRowspans st !! k = Some rs -> P (cell rs)) ->
  Step prev st st' ->
  (forall c, c ∈ children st' -> c ∈ children st)
  /\ (forall x, Some x ∈ curSlots st' -> P x)
  /\ (forall k rs, curRowspans st' !! k = Some rs -> P (cell rs)).
Proof.
  intros Hprev Hchildren Hslots Hspans Hstep.
  destruct Hstep as [rowSpan Hget _|c rest Hch _ _|Hch _]; cbn [children curSlots curRowspans].
  - split; [done|]. split; [|done].
    intros x [Hx|Hx]%elem_of_app; [by apply Hslots|].
    apply list_elem_of_singleton in Hx. injection Hx as ->. by apply (Hprev _ _ Hget).
  - split; [intros x Hx; rewrite Hch; by right|].
    apply pushCell_cells; [|done..]. apply Hchildren. rewrite Hch. left.
  - split; [by intros x ?%elem_of_nil|]. split; [|done].
    intros x [Hx|Hx]%elem_of_app; [by apply Hslots|].
    by apply list_elem_of_singleton in Hx.
Qed.

Lemma whileLoop_cells fuel prev M :
  (forall k rs, prev !! k = Some rs -> P (cell rs)) ->
  forall st st',
    (forall c, c ∈ children st -> (0 < slotCount (spanOf "colspan" c))%nat -> P c) ->
    (forall x, Some x ∈ curSlots st -> P x) ->
    (forall k rs, curRowspans st !! k = Some rs -> P (cell rs)) ->
    whileLoop fuel prev M st = Returns st' ->
    (forall x, Some x ∈ curSlots st' -> P x)
    /\ (forall k rs, curRowspans st' !! k = Some rs -> P (cell rs)).
Proof.
  intros Hprev. induction fuel as [|fuel IH]; intros st st' Hchildren Hslots Hspans;
    cbn [whileLoop].
  - destruct (loopCond M st); [done|]. by intros [= <-].
  - destruct (loopCond M st); [|by intros [= <-]].
    destruct (loopBody _ prev st) as [st1| |] eqn:Hbody; obind; [|done..].
    apply loopBody_Step in Hbody.
    destruct (Step_cells prev st st1 Hprev Hchildren Hslots Hspans Hbody) as (Hsub & Hs & Hr).
    apply IH; [|done..]. intros c Hc. apply Hchildren. by apply Hsub.
Qed.

Lemma mergeRowspans_cells prev cur :
  (forall k rs, prev !! k = Some rs -> P (cell rs)) ->
  (forall k rs, cur !! k = Some rs -> P (cell rs)) ->
  forall k rs, mergeRowspans prev cur !! k = Some rs -> P (cell rs).
Proof.
  intros Hprev Hcur. unfold mergeRowspans. revert Hprev.
  apply (map_fold_weak_ind
           (fun acc m => (forall k rs, m !! k = Some rs -> P (cell rs)) ->
                         forall k rs, acc !! k = Some rs -> P (cell rs))).
  - done.
  - intros i x m acc Hi IH Hm.
    assert (forall k rs, acc !! k = Some rs -> P (cell rs)) as Hacc.
    { apply IH. intros k rs Hk. apply (Hm k).
      destruct (decide (i = k)) as [<-|Hne]; [congruence|]. by rewrite lookup_insert_ne. }
    destruct (_ && _); [|done].
    intros k rs Hk. apply lookup_insert_Some in Hk as [[_ <-]|[_ Hk]]; [|by apply (Hacc k)].
    cbn [cell]. apply (Hm i). by rewrite lookup_insert_eq.
Qed.

Lemma mapRows_cells fuel trs :
  (forall tr c, tr ∈ trs -> c ∈ rowCells tr ->
                (0 < slotCount (spanOf "colspan" c))%nat -> P c) ->
  forall ms slots ms',
    (forall k rs, prevRowspans ms !! k = Some rs -> P (cell rs)) ->
    mapRows fuel ms trs = Returns (slots, ms') ->
    forall rowSlots x, rowSlots ∈ slots -> Some x ∈ rowSlots -> P x.
Proof.
  induction trs as [|tr trs IH]; intros Hcells ms slots ms' Hprev; cbn [mapRows].
  - intros [= <- <-] rowSlots x Hrow. by apply elem_of_nil in Hrow.
  - unfold processRow at 1.
    destruct (whileLoop fuel _ _ _) as [st| |] eqn:Hwhile; obind; [|done..].
    destruct (mapRows fuel _ trs) as [[rows ms'']| |] eqn:Hrest; obind; [|done..].
    intros [= <- <-] rowSlots x Hrow Hx.
    apply whileLoop_cells in Hwhile as [Hs Hr]; [|done|..].
    + apply elem_of_cons in Hrow as [->|Hrow]; [by apply Hs|].
      assert (forall tr' c, tr' ∈ trs -> c ∈ rowCells tr' ->
                (0 < slotCount (spanOf "colspan" c))%nat -> P c) as Hcells'.
      { intros tr' c Htr'. apply Hcells. by right. }
      refine (IH Hcells' _ _ _ _ Hrest rowSlots x Hrow Hx).
      cbn [prevRowspans]. by apply mergeRowspans_cells.
    + cbn [children]. intros c Hc. apply (Hcells tr); [left|exact Hc].
    + cbn [curSlots]. by intros x' ?%elem_of_nil.
    + cbn [curRowspans]. intros k rs Hk. by rewrite lookup_empty in Hk.
Qed.

End Cells.

Lemma generateCellMatrix_slots (P : ViewItem -> Prop) fuel trs m :
  (forall tr c, tr ∈ trs -> c ∈ rowCells tr ->
                (0 < slotCount (spanOf "colspan" c))%nat -> P c) ->
  generateCellMatrix fuel trs = Returns m ->
  forall rowSlots x, rowSlots ∈ m -> Some x ∈ rowSlots -> P x.
Proof.
  intros Hcells. unfold generateCellMatrix.
  destruct (mapRows fuel _ trs) as [[slots ms]| |] eqn:Hmap; obind; [|done..].
  intros [= <-] rowSlots x Hrow Hx.
  apply list_elem_of_fmap in Hrow as (row & -> & Hrow).
  unfold padRow in Hx. apply elem_of_app in Hx as [Hx|Hx].
  - apply (mapRows_cells P fuel trs Hcells (mkMapState ∅ O) slots ms) with (rowSlots := row);
      [|exact Hmap|exact Hrow|exact Hx].
    cbn [prevRowspans]. intros k rs Hk. by rewrite lookup_empty in Hk.
  - by apply elem_of_replicate in Hx as [? _].
Qed.

(** X9. Whatever [generateCellMatrix] returns, every cell in a slot of the
    matrix is a [<th>] or [<td>] child of one of the given rows, and its
    [colspan] is parsed to a positive, finite number: text, other elements
    and cells whose [colspan] is zero, negative or not a number are in no
    slot. *)
Theorem generateCellMatrix_cells fuel trs m rowSlots c :
  generateCellMatrix fuel trs = Returns m ->
  rowSlots ∈ m ->
  Some c ∈ rowSlots ->
  (0 < slotCount (spanOf "colspan" c))%nat
  /\ exists tr, tr ∈ trs /\ c ∈ rowCells tr.
Proof.
  intros Hm. revert rowSlots c.
  apply (generateCellMatrix_slots
           (fun c => (0 < slotCount (spanOf "colspan" c))%nat
                     /\ exists tr, tr ∈ trs /\ c ∈ rowCells tr) fuel trs m); [|exact Hm].
  intros tr c Htr Hc Hpos. split; [done|]. by exists tr.
Qed.

Lemma generateCellMatrix_cells_witness :
  (0 < slotCount (spanOf "colspan" cell12))%nat
  /\ exists tr, tr ∈ spanRows /\ cell12 ∈ rowCells tr.
Proof.
  apply (generateCellMatrix_cells 3 spanRows spanMatrixNullThird
           [Some cell21; Some cell12; None] cell12).
  - vm_compute. reflexivity.
  - unfold spanMatrixNullThird. right. left.
  - right. left.
Defined.

(** *** Rows without row spans *)

Lemma pushCell_no_rowspan n c rowspan slots spans :
  JS.gt rowspan (JS.Num 1) = false ->
  pushCell n c rowspan slots spans = (slots ++ replicate n (Some c), spans).
Proof.
  intros Hrow. revert slots. induction n as [|n IH]; intros slots.
  - simpl. by rewrite app_nil_r.
  - cbn [pushCell]. rewrite Hrow, IH. by rewrite <- app_assoc.
Qed.

Lemma loopCond_false M st :
  loopCond M st = false -> children st = [] /\ (M <= length (curSlots st))%nat.
Proof.
  unfold loopCond. intros [Hch Hlen]%orb_false_iff.
  apply negb_false_iff, bool_decide_eq_true in Hch. apply Nat.ltb_ge in Hlen. done.
Qed.

Lemma whileLoop_no_rowspan fuel M :
  forall st st',
    curRowspans st = ∅ ->
    (forall c, c ∈ children st -> JS.gt (spanOf "rowspan" c) (JS.Num 1) = false) ->
    whileLoop fuel ∅ M st = Returns st' ->
    st' = mkRowState []
            (curSlots st ++ expandCells (children st)
             ++ replicate (M - (length (curSlots st) + length (expandCells (children st)))) None)
            ∅.
Proof.
  assert (forall st st',
            curRowspans st = ∅ -> loopCond M st = false -> Returns st = Returns st' ->
            st' = mkRowState []
                    (curSlots st ++ expandCells (children st)
                     ++ replicate
                          (M - (length (curSlots st) + length (expandCells (children st))))
                          None)
                    ∅) as Hexit.
  { intros [cs slots spans] st' Hspans [Hch Hlen]%loopCond_false [= <-].
    cbn [children curSlots curRowspans] in *. subst cs spans. f_equal.
    change (expandCells []) with (@nil (option ViewItem)). cbn [length app].
    replace (M - (length slots + 0))%nat with O by lia. by rewrite app_nil_r. }
  induction fuel as [|fuel IH]; intros st st' Hspans Hcells; cbn [whileLoop].
  - destruct (loopCond M st) eqn:Hcond; [done|]. by apply Hexit.
  - destruct (loopCond M st) eqn:Hcond; [|by apply Hexit].
    destruct (loopBody _ ∅ st) as [st1| |] eqn:Hbody; obind; [|done..].
    apply loopBody_Step in Hbody. intros Hloop.
    destruct Hbody as [rowSpan Hget _|c rest Hch _ _|Hch _].
    + by rewrite lookup_empty in Hget.
    + rewrite pushCell_no_rowspan in Hloop by (apply Hcells; rewrite Hch; left).
      cbn [fst snd] in Hloop. apply IH in Hloop; [|done|].
      * cbn [children curSlots curRowspans] in Hloop. subst st'. f_equal.
        rewrite Hch. fold (ownSlots c). rewrite expandCells_cons.
        rewrite !length_app. rewrite <- !app_assoc. do 3 f_equal. f_equal. lia.
      * cbn [children]. intros c' Hc'. apply Hcells. rewrite Hch. by right.
    + apply IH in Hloop; [|done|by intros c ?%elem_of_nil].
      cbn [children curSlots curRowspans] in Hloop. subst st'. f_equal.
      rewrite Hch. change (expandCells []) with (@nil (option ViewItem)).
      unfold loopCond in Hcond. rewrite Hch in Hcond.
      rewrite bool_decide_eq_true_2 in Hcond by done. cbn in Hcond.
      apply Nat.ltb_lt in Hcond.
      rewrite length_app. cbn [length app].
      replace (M - (length (curSlots st) + 0))%nat
        with (S (M - (length (curSlots st) + 1 + 0)))%nat by lia.
      cbn [replicate]. by rewrite <- app_assoc.
Qed.

Lemma processRow_no_rowspan fuel ms tr row ms' :
  prevRowspans ms = ∅ ->
  (forall c, c ∈ rowCells tr -> JS.gt (spanOf "rowspan" c) (JS.Num 1) = false) ->
  processRow fuel ms tr = Returns (row, ms') ->
  row = padRow (maxColumns ms) (expandRow tr)
  /\ ms' = mkMapState ∅ (Nat.max (maxColumns ms) (length (expandRow tr))).
Proof.
  intros Hprev Hcells. unfold processRow. rewrite Hprev.
  destruct (whileLoop fuel _ _ _) as [st| |] eqn:Hwhile; obind; [|done..].
  apply whileLoop_no_rowspan in Hwhile; [|done|exact Hcells].
  cbn [children curSlots curRowspans] in Hwhile. subst st. cbn [curSlots curRowspans].
  intros [= <- <-]. fold (rowCells tr). fold (expandRow tr). simpl. split; [done|].
  unfold mergeRowspans. rewrite map_fold_empty. f_equal.
  rewrite length_app, length_replicate. lia.
Qed.

Lemma mapRows_no_rowspan fuel trs :
  (forall tr c, tr ∈ trs -> c ∈ rowCells tr -> JS.gt (spanOf "rowspan" c) (JS.Num 1) = false) ->
  forall ms slots ms',
    prevRowspans ms = ∅ ->
    mapRows fuel ms trs = Returns (slots, ms') ->
    maxColumns ms' = Nat.max (maxColumns ms) (max_list (length <$> (expandRow <$> trs)))
    /\ Forall2 (fun tr row => exists M, (M <= maxColumns ms')%nat
                                        /\ row = padRow M (expandRow tr)) trs slots.
Proof.
  induction trs as [|tr trs IH]; intros Hcells ms slots ms' Hprev; cbn [mapRows].
  - intros [= <- <-]. split; [simpl; lia|constructor].
  - destruct (processRow fuel ms tr) as [[row ms1]| |] eqn:Hrow; obind; [|done..].
    destruct (mapRows fuel ms1 trs) as [[rows ms2]| |] eqn:Hrest; obind; [|done..].
    intros [= <- <-].
    apply processRow_no_rowspan in Hrow as [-> ->]; [|done|].
    2:{ intros c. apply Hcells. left. }
    apply IH in Hrest as [Hmax Hrows]; [| |done].
    2:{ intros tr' c Htr'. apply Hcells. by right. }
    cbn [maxColumns] in Hmax. split; [simpl; unfold fmap in *; lia|].
    constructor; [|done]. exists (maxColumns ms). split; [lia|done].
Qed.

Lemma padRow_padRow M W (row : list (option ViewItem)) :
  (M <= W)%nat -> padRow W (padRow M row) = padRow W row.
Proof.
  intros Hle. unfold padRow. rewrite length_app, length_replicate, <- app_assoc. f_equal.
  destruct (decide (length row <= M)%nat) as [Hrow|Hrow].
  - replace (W - (length row + (M - length row)))%nat with (W - M)%nat by lia.
    rewrite <- replicate_add. f_equal. lia.
  - replace (M - length row)%nat with O by lia. simpl. f_equal. lia.
Qed.

(** X10. When no cell of the rows has a [rowspan] above one,
    [generateCellMatrix] works row by row: each row of the matrix is the
    row's cells in order, each repeated [colspan] times, followed by [null]s
    up to the length of the longest such row. *)
Theorem generateCellMatrix_without_rowspans fuel trs m :
  (forall tr c, tr ∈ trs -> c ∈ rowCells tr -> JS.gt (spanOf "rowspan" c) (JS.Num 1) = false) ->
  generateCellMatrix fuel trs = Returns m ->
  m = padRow (max_list (length <$> (expandRow <$> trs))) <$> (expandRow <$> trs).
Proof.
  intros Hcells. unfold generateCellMatrix.
  destruct (mapRows fuel _ trs) as [[slots ms]| |] eqn:Hmap; obind; [|done..].
  intros [= <-].
  apply mapRows_no_rowspan in Hmap as [Hmax Hrows]; [|done|done].
  cbn [maxColumns] in Hmax. rewrite Nat.max_0_l in Hmax. rewrite <- Hmax.
  clear Hmax Hcells. induction Hrows as [|tr row trs slots (M & HM & ->) _ IH].
  - done.
  - simpl. rewrite padRow_padRow by done. f_equal. exact IH.
Qed.

(** X10, at rows whose spans are zero, negative or not numbers. *)
Lemma generateCellMatrix_without_rowspans_witness :
  oddMatrix = padRow (max_list (length <$> (expandRow <$> oddRows))) <$> (expandRow <$> oddRows).
Proof.
  apply (generateCellMatrix_without_rowspans 8 oddRows oddMatrix).
  - assert (Forall (fun tr => Forall (fun c => JS.gt (spanOf "rowspan" c) (JS.Num 1) = false)
                                     (rowCells tr)) oddRows) as Hall
      by (apply (bool_decide_unpack _); vm_compute; exact I).
    intros tr c Htr Hc. rewrite list.Forall_forall in Hall.
    specialize (Hall tr Htr). rewrite list.Forall_forall in Hall. exact (Hall c Hc).
  - vm_compute. reflexivity.
Defined.

End MoreMatrix.

(** ** The attributes of the model table *)

Section Attributes.

Import Examples.

Lemma leadingTh_no_th (rowSlots : list (option ViewItem)) :
  (forall c, Some c ∈ rowSlots -> name c <> Some "th") -> leadingTh rowSlots = O.
Proof.
  destruct rowSlots as [|[c|] rest]; [done| |done]. intros Hall. simpl.
  rewrite bool_decide_eq_true_2; [done|]. apply Hall. left.
Qed.

Lemma fold_updateHeadingColumns_zero (m : list (list (option ViewItem))) :
  Forall (fun rowSlots => leadingTh rowSlots = O) m ->
  forall hc, hc = None \/ hc = Some O ->
    default O (fold_left updateHeadingColumns m hc) = O.
Proof.
  induction 1 as [|rowSlots m Hrow _ IH]; intros hc Hhc.
  - by destruct Hhc as [-> | ->].
  - cbn [fold_left]. apply IH. right. by apply updateHeadingColumns_zero.
Qed.

Lemma isElement_name (n : string) (it : ViewItem) :
  isElement n it = true <-> name it = Some n.
Proof.
  unfold isElement, name. destruct (node it); [by split|].
  rewrite bool_decide_eq_true. split; [by intros ->|by intros [= ->]].
Qed.

(** X11. A table without a [<thead>] whose rows hold no [<th>] is scanned
    to no heading rows and no heading columns, whatever the spans of its
    cells are, so the model table that the listener on [element:table]
    creates for it has no attribute at all. *)
Theorem tableAttributes_without_headings (fuel : nat) (viewTable : ViewItem)
    (scan : ScanResult) :
  firstThead viewTable = None ->
  (forall p c, p ∈ sectionRows viewTable -> c ∈ getChildren p.2 -> name c <> Some "th") ->
  scanTable fuel viewTable = Returns scan ->
  headingRows scan = O /\ headingColumns scan = O /\ tableAttributes scan = ∅.
Proof.
  intros Hthead Hcells Hscan.
  apply scanTable_result in Hscan as (bodyMatrix & Hmatrix & ->).
  cbn [headingRows headingColumns].
  unfold scanSections in *.
  rewrite (scanSection_fold _ (getChildren_NoDup viewTable)) in Hmatrix |- *.
  cbn [headingRowsAcc bodyRows firstTheadElement resolveThead app] in Hmatrix |- *.
  unfold firstThead in Hthead. rewrite Hthead in Hmatrix |- *.
  fold (sectionRows viewTable) in Hmatrix |- *.
  assert (filter (fun p => headingRow None p = true) (sectionRows viewTable) = []) as Hnone.
  { apply filter_none. intros [sec tr] Hp. unfold headingRow, tbodyAllTh, allTh.
    cbn [inSection orb fst snd].
    destruct (getChildren tr) as [|c cells] eqn:Hch; [by rewrite andb_false_r|].
    cbn [forallb]. intros Hall.
    apply andb_true_iff in Hall as [_ [Hc _]%andb_true_iff].
    apply isElement_name in Hc. apply (Hcells (sec, tr) c Hp); [|done].
    cbn [snd]. rewrite Hch. left. }
  rewrite Hnone. cbn [length].
  assert (default O (fold_left updateHeadingColumns bodyMatrix None) = O) as Hcols.
  { apply fold_updateHeadingColumns_zero; [|by left].
    apply list.Forall_forall. intros rowSlots Hrow. apply leadingTh_no_th. intros c Hc.
    revert rowSlots c Hrow Hc.
    eapply (generateCellMatrix_slots (fun c => name c <> Some "th")); [|exact Hmatrix].
    intros tr c Htr Hc _.
    apply list_elem_of_fmap in Htr as (p & -> & Hp). apply list_elem_of_filter in Hp as [_ Hp].
    apply (Hcells p c Hp). unfold rowCells in Hc. by apply list_elem_of_filter in Hc as [_ Hc]. }
  rewrite Hcols. done.
Qed.

(** X11, at a table of two body rows of [<td>] cells. *)
Lemma tableAttributes_without_headings_witness :
  headingRows (mkScanResult O O (getChildren (mkItem [O] (tbody [tr [td ∅]; tr [td ∅; td ∅]]))))
  = O
  /\ headingColumns
       (mkScanResult O O (getChildren (mkItem [O] (tbody [tr [td ∅]; tr [td ∅; td ∅]])))) = O
  /\ tableAttributes
       (mkScanResult O O (getChildren (mkItem [O] (tbody [tr [td ∅]; tr [td ∅; td ∅]])))) = ∅.
Proof.
  apply (tableAttributes_without_headings 2 (table [tbody [tr [td ∅]; tr [td ∅; td ∅]]])).
  - reflexivity.
  - assert (Forall (fun p => Forall (fun c => name c <> Some "th") (getChildren p.2))
                   (sectionRows (table [tbody [tr [td ∅]; tr [td ∅; td ∅]]]))) as Hall
      by (apply (bool_decide_unpack _); vm_compute; exact I).
    intros p c Hp Hc. rewrite list.Forall_forall in Hall.
    specialize (Hall p Hp). rewrite list.Forall_forall in Hall. exact (Hall c Hc).
  - vm_compute. reflexivity.
Defined.

End Attributes.

(** ** The paragraph of a table cell *)

Section CellParagraph.

Import Examples.

Lemma filter_ne_notin (node : nat) (l : list nat) :
  node ∉ l -> filter (fun c => c <> node) l = l.
Proof.
  induction l as [|x l IH]; [done|]. intros Hnotin.
  apply not_elem_of_cons in Hnotin as [Hne Hnotin].
  rewrite filter_cons_True by done. f_equal. by apply IH.
Qed.

Lemma writerMove_step (tableCell paragraph node : nat) (post pre : list nat) (st : ConvState) :
  tableCell <> paragraph ->
  node <> paragraph ->
  node ∉ post ->
  echildren (elements st tableCell) = paragraph :: node :: post ->
  echildren (elements st paragraph) = pre ->
  elements (writerMove node tableCell (createPositionAt paragraph AtEnd st) st) tableCell
  = mkElement (ename (elements st tableCell)) (eattrs (elements st tableCell)) (paragraph :: post)
  /\ elements (writerMove node tableCell (createPositionAt paragraph AtEnd st) st) paragraph
     = mkElement (ename (elements st paragraph)) (eattrs (elements st paragraph)) (pre ++ [node])
  /\ (forall e, e <> tableCell -> e <> paragraph ->
        elements (writerMove node tableCell (createPositionAt paragraph AtEnd st) st) e
        = elements st e)
  /\ nextId (writerMove node tableCell (createPositionAt paragraph AtEnd st) st) = nextId st
  /\ consumables (writerMove node tableCell (createPositionAt paragraph AtEnd st) st)
     = consumables st
  /\ stopped (writerMove node tableCell (createPositionAt paragraph AtEnd st) st) = stopped st.
Proof.
  intros Hcp Hnp Hnotin Hcell Hpar.
  unfold writerMove, writerInsert, createPositionAt.
  cbn [elements nextId consumables stopped parent index].
  repeat split.
  - rewrite fn_lookup_insert_ne by done. rewrite fn_lookup_insert.
    unfold removeChild. rewrite Hcell. f_equal.
    rewrite filter_cons_True by done. rewrite filter_cons_False by (intros H; by apply H).
    by rewrite filter_ne_notin.
  - rewrite fn_lookup_insert. rewrite fn_lookup_insert_ne by done.
    unfold insertChild. cbn [index ename eattrs echildren]. rewrite Hpar. f_equal.
    by rewrite firstn_all, drop_all.
  - intros e He1 He2. by rewrite !fn_lookup_insert_ne.
Qed.

Lemma moveToParagraph_spec (tableCell paragraph : nat) (post : list nat) :
  tableCell <> paragraph ->
  paragraph ∉ post ->
  NoDup post ->
  forall (pre : list nat) (st : ConvState),
    echildren (elements st tableCell) = paragraph :: post ->
    echildren (elements st paragraph) = pre ->
    elements (moveToParagraph tableCell paragraph post st) tableCell
    = mkElement (ename (elements st tableCell)) (eattrs (elements st tableCell)) [paragraph]
    /\ elements (moveToParagraph tableCell paragraph post st) paragraph
       = mkElement (ename (elements st paragraph)) (eattrs (elements st paragraph)) (pre ++ post)
    /\ (forall e, e <> tableCell -> e <> paragraph ->
          elements (moveToParagraph tableCell paragraph post st) e = elements st e)
    /\ nextId (moveToParagraph tableCell paragraph post st) = nextId st
    /\ consumables (moveToParagraph tableCell paragraph post st) = consumables st
    /\ stopped (moveToParagraph tableCell paragraph post st) = stopped st.
Proof.
  intros Hcp. induction post as [|node post IH]; intros Hnotin Hnodup pre st Hcell Hpar.
  - unfold moveToParagraph. cbn [foldl]. rewrite app_nil_r, <- Hcell, <- Hpar.
    split; [by destruct (elements st tableCell)|].
    split; [by destruct (elements st paragraph)|]. done.
  - apply not_elem_of_cons in Hnotin as [Hne Hnotin].
    pose proof (NoDup_cons_1_1 _ _ Hnodup) as Hfresh.
    pose proof (NoDup_cons_1_2 _ _ Hnodup) as Hnodup'.
    destruct (writerMove_step tableCell paragraph node post pre st)
      as (H1 & H2 & H3 & H4 & H5 & H6); [done|congruence|done..|].
    unfold moveToParagraph in *. cbn [foldl].
    set (st1 := writerMove node tableCell (createPositionAt paragraph AtEnd st) st) in *.
    destruct (IH Hnotin Hnodup' (pre ++ [node]) st1) as (I1 & I2 & I3 & I4 & I5 & I6).
    + by rewrite H1.
    + by rewrite H2.
    + rewrite I1, I2, I4, I5, I6, H1, H2, H4, H5, H6. cbn [ename eattrs].
      rewrite <- app_assoc. repeat split; [done..|].
      intros e He1 He2. rewrite I3 by done. by apply H3.
Qed.

(** X12. On a converted cell (a model range starting at the cell) the
    listener always succeeds and leaves the model cell with at least one
    child; no former child of the cell is lost (each is afterwards a child of
    the cell or of the new paragraph), and no element other than the cell
    and the new paragraph is changed. *)
Theorem ensureParagraphInTableCell_cell_not_empty (data : Data) (s : ConvState)
    (tableCell : nat) (rest : list nat) :
  modelRange data = Some (tableCell :: rest) ->
  tableCell <> nextId s ->
  nextId s ∉ echildren (elements s tableCell) ->
  NoDup (echildren (elements s tableCell)) ->
  exists s',
    ensureParagraphInTableCell data s = Some s'
    /\ echildren (elements s' tableCell) <> []
    /\ (forall c, c ∈ echildren (elements s tableCell) ->
          c ∈ echildren (elements s' tableCell) \/ c ∈ echildren (elements s' (nextId s)))
    /\ (forall e, e <> tableCell -> e <> nextId s -> elements s' e = elements s e).
Proof.
  intros Hrange Hcell Hfresh Hnodup. unfold ensureParagraphInTableCell.
  rewrite Hrange. cbn [head mbind option_bind].
  destruct (isEmpty (viewItem data)).
  - eexists. split; [reflexivity|].
    unfold createElement, writerInsert, createPositionAt.
    cbn [elements parent index fst snd]. repeat split.
    + rewrite fn_lookup_insert. unfold insertChild. cbn [index echildren]. done.
    + intros c Hc. left. rewrite fn_lookup_insert. unfold insertChild.
      cbn [index echildren take drop app]. rewrite fn_lookup_insert_ne by done. by right.
    + intros e He1 He2. by rewrite !fn_lookup_insert_ne.
  - destruct (forallb _ _) eqn:Hall.
    + eexists. split; [reflexivity|].
      unfold createElement. cbn [fst snd].
      match goal with
      | |- context [moveToParagraph _ _ _ ?st] => set (s2 := st)
      end.
      assert (echildren (elements s2 tableCell)
              = nextId s :: echildren (elements s tableCell)) as Hcell2.
      { unfold s2, writerInsert, createPositionAt. cbn [elements parent index].
        rewrite fn_lookup_insert. unfold insertChild. cbn [index echildren take drop app].
        by rewrite fn_lookup_insert_ne. }
      assert (elements s2 (nextId s) = mkElement "paragraph" ∅ []) as Hpar2.
      { unfold s2, writerInsert, createPositionAt. cbn [elements parent index].
        rewrite fn_lookup_insert_ne by done. by rewrite fn_lookup_insert. }
      assert (forall e, e <> tableCell -> e <> nextId s -> elements s2 e = elements s e)
        as Hframe2.
      { intros e He1 He2. unfold s2, writerInsert, createPositionAt.
        cbn [elements parent index]. by rewrite !fn_lookup_insert_ne. }
      destruct (moveToParagraph_spec tableCell (nextId s) (echildren (elements s tableCell))
                  Hcell Hfresh Hnodup [] s2 Hcell2)
        as (H1 & H2 & H3 & _); [by rewrite Hpar2|].
      rewrite H1, H2. cbn [echildren app]. repeat split.
      * done.
      * intros c Hc. by right.
      * intros e He1 He2. rewrite H3 by done. by apply Hframe2.
    + exists s. split; [done|]. repeat split.
      * intros Hnil. rewrite Hnil in Hall. done.
      * intros c Hc. by left.
Qed.

(** X13. When the view cell is not empty and the model cell holds nothing
    but [$marker] elements (or nothing at all), the listener leaves the cell
    with exactly one child, a new paragraph, which holds the former children
    of the cell in their order; the elements moved are themselves unchanged. *)
Theorem ensureParagraphInTableCell_wraps_markers (data : Data) (s : ConvState)
    (tableCell : nat) (rest : list nat) :
  modelRange data = Some (tableCell :: rest) ->
  isEmpty (viewItem data) = false ->
  Forall (fun node => ename (elements s node) = "$marker") (echildren (elements s tableCell)) ->
  tableCell <> nextId s ->
  nextId s ∉ echildren (elements s tableCell) ->
  NoDup (echildren (elements s tableCell)) ->
  exists s',
    ensureParagraphInTableCell data s = Some s'
    /\ elements s' tableCell
       = mkElement (ename (elements s tableCell)) (eattrs (elements s tableCell)) [nextId s]
    /\ elements s' (nextId s) = mkElement "paragraph" ∅ (echildren (elements s tableCell))
    /\ (forall e, e <> tableCell -> e <> nextId s -> elements s' e = elements s e)
    /\ nextId s' = S (nextId s).
Proof.
  intros Hrange Hview Hmarkers Hcell Hfresh Hnodup. unfold ensureParagraphInTableCell.
  rewrite Hrange, Hview. cbn [head mbind option_bind].
  assert (forallb (isMarkerElement s) (echildren (elements s tableCell)) = true) as ->.
  { apply Is_true_true. apply forallb_True. eapply list.Forall_impl; [exact Hmarkers|].
    intros node Hnode. unfold isMarkerElement. by apply bool_decide_pack. }
  eexists. split; [reflexivity|].
  unfold createElement. cbn [fst snd].
  match goal with
  | |- context [moveToParagraph _ _ _ ?st] => set (s2 := st)
  end.
  assert (elements s2 tableCell
          = mkElement (ename (elements s tableCell)) (eattrs (elements s tableCell))
                      (nextId s :: echildren (elements s tableCell))) as Hcell2.
  { unfold s2, writerInsert, createPositionAt. cbn [elements parent index].
    rewrite fn_lookup_insert. unfold insertChild. cbn [index echildren take drop app].
    by rewrite fn_lookup_insert_ne. }
  assert (elements s2 (nextId s) = mkElement "paragraph" ∅ []) as Hpar2.
  { unfold s2, writerInsert, createPositionAt. cbn [elements parent index].
    rewrite fn_lookup_insert_ne by done. by rewrite fn_lookup_insert. }
  assert (forall e, e <> tableCell -> e <> nextId s -> elements s2 e = elements s e)
    as Hframe2.
  { intros e He1 He2. unfold s2, writerInsert, createPositionAt.
    cbn [elements parent index]. by rewrite !fn_lookup_insert_ne. }
  destruct (moveToParagraph_spec tableCell (nextId s) (echildren (elements s tableCell))
              Hcell Hfresh Hnodup [] s2)
    as (H1 & H2 & H3 & H4 & _); [by rewrite Hcell2|by rewrite Hpar2|].
  rewrite H1, H2, H4, Hcell2, Hpar2. cbn [ename eattrs app]. repeat split.
  intros e He1 He2. rewrite H3 by done. by apply Hframe2.
Qed.

Lemma moveToParagraph_nextId (tableCell paragraph : nat) (childNodes : list nat)
    (s : ConvState) :
  nextId (moveToParagraph tableCell paragraph childNodes s) = nextId s.
Proof.
  revert s. induction childNodes as [|node childNodes IH]; intros s; [done|].
  unfold moveToParagraph in *. cbn [foldl]. by rewrite IH.
Qed.

Lemma forallb_isMarkerElement_false (s : ConvState) (childNodes : list nat) :
  forallb (isMarkerElement s) childNodes = false
  <-> Exists (fun node => ename (elements s node) <> "$marker") childNodes.
Proof.
  induction childNodes as [|node childNodes IH]; simpl.
  - split; [done|]. by intros H%Exists_nil.
  - rewrite andb_false_iff, Exists_cons, IH. unfold isMarkerElement.
    by rewrite bool_decide_eq_false.
Qed.

(** X14. The listener leaves the model exactly as it was in two cases only:
    when the event has no model range, and when the view cell is not empty
    and the model cell has a child that is not a [$marker] element.  In any
    other case it fails or creates an element. *)
Theorem ensureParagraphInTableCell_untouched (data : Data) (s : ConvState) :
  ensureParagraphInTableCell data s = Some s
  <-> modelRange data = None
      \/ exists range tableCell,
           modelRange data = Some range
           /\ head range = Some tableCell
           /\ isEmpty (viewItem data) = false
           /\ Exists (fun node => ename (elements s node) <> "$marker")
                     (echildren (elements s tableCell)).
Proof.
  unfold ensureParagraphInTableCell. destruct (modelRange data) as [range|]; [|by split; [left|]].
  destruct (head range) as [tableCell|] eqn:Hhead; cbn [mbind option_bind].
  - destruct (isEmpty (viewItem data)) eqn:Hview.
    + split.
      * intros [= Heq]. apply (f_equal nextId) in Heq. cbn in Heq. lia.
      * intros [?|(r & c & [= <-] & _ & ? & _)]; done.
    + destruct (forallb _ _) eqn:Hall.
      * split.
        -- intros [= Heq]. apply (f_equal nextId) in Heq.
           rewrite moveToParagraph_nextId in Heq. cbn in Heq. lia.
        -- intros [?|(r & c & [= <-] & Hc & _ & Hex)]; [done|].
           rewrite Hhead in Hc. injection Hc as <-.
           apply forallb_isMarkerElement_false in Hex. congruence.
      * split; [|done]. intros _. right. exists range, tableCell.
        repeat split; [done..|]. by apply forallb_isMarkerElement_false.
  - split; [done|]. intros [?|(r & c & [= <-] & Hc & _)]; [done|]. congruence.
Qed.


(** X12, at a view cell without children whose model cell holds markers. *)
Lemma ensureParagraphInTableCell_cell_not_empty_witness :
  exists s',
    ensureParagraphInTableCell (cellData []) markerCellState = Some s'
    /\ echildren (elements s' 1%nat) <> []
    /\ (forall c, c ∈ echildren (elements markerCellState 1%nat) ->
          c ∈ echildren (elements s' 1%nat)
          \/ c ∈ echildren (elements s' (nextId markerCellState)))
    /\ (forall e, e <> 1%nat -> e <> nextId markerCellState ->
          elements s' e = elements markerCellState e).
Proof.
  apply (ensureParagraphInTableCell_cell_not_empty (cellData []) markerCellState 1 []).
  - reflexivity.
  - vm_compute. lia.
  - apply (bool_decide_unpack _). vm_compute. exact I.
  - apply (bool_decide_unpack _). vm_compute. exact I.
Defined.

(** X13, at a view cell with text whose model cell holds two markers. *)
Lemma ensureParagraphInTableCell_wraps_markers_witness :
  exists s',
    ensureParagraphInTableCell (cellData [ViewText "x"]) markerCellState = Some s'
    /\ elements s' 1%nat
       = mkElement (ename (elements markerCellState 1%nat))
                   (eattrs (elements markerCellState 1%nat)) [nextId markerCellState]
    /\ elements s' (nextId markerCellState)
       = mkElement "paragraph" ∅ (echildren (elements markerCellState 1%nat))
    /\ (forall e, e <> 1%nat -> e <> nextId markerCellState ->
          elements s' e = elements markerCellState e)
    /\ nextId s' = S (nextId markerCellState).
Proof.
  apply (ensureParagraphInTableCell_wraps_markers (cellData [ViewText "x"]) markerCellState
           1 []).
  - reflexivity.
  - reflexivity.
  - vm_compute. repeat constructor.
  - vm_compute. lia.
  - apply (bool_decide_unpack _). vm_compute. exact I.
  - apply (bool_decide_unpack _). vm_compute. exact I.
Defined.

End CellParagraph.
